(** * LearnOn audio core: PCM codec and playback engine

    A shallow embedding of [src/utils/audioUtils.ts] (decodeBase64,
    decodeRawPCM, writeString, bufferToWave) and of the transport
    functions of the AudioPlayer component (initAudio, playAudio,
    pauseAudio, stopAudio, togglePlay, toggleMute, handleSeek,
    drawVisualizer, handleDownload, formatTime), together with the
    properties the specification states about them; and of the code
    around them: the two functions of the Gemini service, the state
    machine of the App component with its rendering, and the
    validation of the FileUpload component, with further properties
    read off the code.

    JavaScript numbers are IEEE 754 binary64 values and the samples of
    an AudioBuffer are binary32 values; both are modelled with the
    standard library's [spec_float] and its rounding operations.
    Exceptions are modelled with a result type. *)

From Stdlib Require Import ZArith QArith Qabs Lia Lqa.
From Stdlib Require Import DecimalString.
From Stdlib Require Import Strings.String Strings.Ascii Init.Byte.
From Stdlib Require Import Floats.SpecFloat.
From stdpp Require Import base list.

Open Scope Z_scope.

(** ** Exceptions and results *)

(** The exceptions the platform calls of the source can throw, and
    [MalformedAudioData], the error kind the specification names for the
    decoder.  No statement of the source constructs [MalformedAudioData]. *)
Inductive exn :=
  | InvalidCharacterError  (* DOMException of atob *)
  | RangeError             (* typed-array construction, DataView bounds *)
  | NotSupportedError      (* DOMException of createBuffer *)
  | IndexSizeError         (* DOMException of getChannelData *)
  | TypeError              (* property access on undefined *)
  | InvalidStateError      (* stop() on a source that was never started *)
  | MalformedAudioData.

Inductive result (A : Type) :=
  | Ok (a : A)
  | Throw (e : exn).
Arguments Ok {A} a.
Arguments Throw {A} e.

#[global] Instance result_ret : MRet result := fun A a => Ok a.
#[global] Instance result_bind : MBind result := fun A B f m =>
  match m with
  | Ok a => f a
  | Throw e => Throw e
  end.

(** ** Bytes and fixed-width integers *)

Definition byte_to_Z (b : byte) : Z := Z.of_N (Byte.to_N b).

(** Storing a number in a [Uint8Array] or through [setUint8] keeps it
    modulo 256. *)
Definition byte_of_Z (z : Z) : byte :=
  match Byte.of_N (Z.to_N (z mod 256)) with
  | Some b => b
  | None => x00
  end.

(** Two's complement reading of the low [w] bits of [n]. *)
Definition wrap_signed (w : Z) (n : Z) : Z :=
  (n + 2 ^ (w - 1)) mod 2 ^ w - 2 ^ (w - 1).

(** ** JavaScript numbers *)

Module Number.

(** A JavaScript number: a binary64 value. *)
Definition t := spec_float.

Definition prec : Z := 53.
Definition emax : Z := 1024.

Definition NaN : t := S754_nan.

(** The number denoted by an integer literal or an integer element of
    a typed array. *)
Definition of_Z (z : Z) : t := binary_normalize prec emax z 0 false.

Definition div (x y : t) : t := SFdiv prec emax x y.
Definition mul (x y : t) : t := SFmul prec emax x y.

(** [x < y] *)
Definition ltb (x y : t) : bool := SFltb x y.

(** [Math.min] and [Math.max]: NaN if either argument is NaN, and
    [-0] is smaller than [+0]. *)
Definition min (x y : t) : t :=
  match SFcompare x y with
  | None => NaN
  | Some Lt => x
  | Some Gt => y
  | Some Eq => match x with S754_zero true => x | _ => y end
  end.

Definition max (x y : t) : t :=
  match SFcompare x y with
  | None => NaN
  | Some Lt => y
  | Some Gt => x
  | Some Eq => match x with S754_zero false => x | _ => y end
  end.

(** The integer part of a finite number, rounding toward zero; [0]
    for NaN and the infinities. *)
Definition truncate (x : t) : Z :=
  match x with
  | S754_finite s m e =>
      let n := match e with
               | Zneg p => Z.shiftr (Zpos m) (Zpos p)
               | _ => Z.shiftl (Zpos m) e
               end in
      if s then - n else n
  | _ => 0
  end.

(** [x | 0], i.e. ToInt32. *)
Definition ToInt32 (x : t) : Z := wrap_signed 32 (truncate x).

(** The rational a finite number denotes. *)
Definition to_Q (x : t) : option Q :=
  match x with
  | S754_zero _ => Some 0%Q
  | S754_finite s m e =>
      let q := match e with
               | Zneg p => Zpos m # (2 ^ p)
               | _ => inject_Z (Z.shiftl (Zpos m) e)
               end in
      Some (if s then Qopp q else q)
  | _ => None
  end.

End Number.

(** ** Float32Array elements *)

Module Float32.

Definition prec : Z := 24.
Definition emax : Z := 128.

(** Storing a number into a [Float32Array] rounds it to the nearest
    binary32 value, ties to even. *)
Definition fround (x : Number.t) : spec_float :=
  match x with
  | S754_finite s m e => binary_round prec emax s m e
  | _ => x
  end.

(** Reading an element back gives the same value as a number. *)
Definition to_Number (x : spec_float) : Number.t :=
  match x with
  | S754_finite s m e => binary_round Number.prec Number.emax s m e
  | _ => x
  end.

Definition valid (x : spec_float) : bool := valid_binary prec emax x.

End Float32.

(** ** atob *)

Module Base64.

Definition code (c : ascii) : Z := Z.of_N (N_of_ascii c).

Definition is_ascii_whitespace (c : ascii) : bool :=
  let n := code c in
  (n =? 9) || (n =? 10) || (n =? 12) || (n =? 13) || (n =? 32).

Definition sextet (c : ascii) : option Z :=
  let n := code c in
  if (65 <=? n) && (n <=? 90) then Some (n - 65)
  else if (97 <=? n) && (n <=? 122) then Some (n - 71)
  else if (48 <=? n) && (n <=? 57) then Some (n + 4)
  else if n =? 43 then Some 62
  else if n =? 47 then Some 63
  else None.

Definition is_pad (c : ascii) : bool := code c =? 61.

(** When the length is a multiple of four, one or two trailing [=]
    are dropped. *)
Definition strip_padding (l : list ascii) : list ascii :=
  if (Z.of_nat (length l) mod 4 =? 0) then
    match rev l with
    | a :: b :: r => if is_pad a then if is_pad b then rev r else rev (b :: r) else l
    | _ => l
    end
  else l.

Fixpoint sextets (l : list ascii) : option (list Z) :=
  match l with
  | [] => Some []
  | c :: r =>
      match sextet c, sextets r with
      | Some s, Some ss => Some (s :: ss)
      | _, _ => None
      end
  end.

Definition char_of_Z (z : Z) : ascii := ascii_of_N (Z.to_N (z mod 256)).

(** Four sextets give three characters; a final group of three gives
    two and a final group of two gives one, the spare bits dropped. *)
Fixpoint decode_groups (l : list Z) : list ascii :=
  match l with
  | a :: b :: c :: d :: r =>
      let n := ((a * 64 + b) * 64 + c) * 64 + d in
      char_of_Z (n / 65536) :: char_of_Z (n / 256) :: char_of_Z n :: decode_groups r
  | [a; b; c] =>
      let n := ((a * 64 + b) * 64 + c) / 4 in
      [char_of_Z (n / 256); char_of_Z n]
  | [a; b] => [char_of_Z ((a * 64 + b) / 16)]
  | _ => []
  end.

(** [atob]: the forgiving-base64 decoder of the HTML standard.  The
    result is a binary string, one character per byte. *)
Definition atob (data : string) : result string :=
  let l := strip_padding (filter (fun c => negb (is_ascii_whitespace c)) (list_ascii_of_string data)) in
  if (Z.of_nat (length l) mod 4 =? 1) then Throw InvalidCharacterError
  else match sextets l with
       | Some ss => Ok (string_of_list_ascii (decode_groups ss))
       | None => Throw InvalidCharacterError
       end.

End Base64.

(** ** audioUtils.ts: decodeBase64 *)

Definition charCodeAt (s : string) (i : nat) : option Z :=
  match String.get i s with
  | Some c => Some (Base64.code c)
  | None => None
  end.

(** [new Uint8Array(len)] then [bytes[i] = binaryString.charCodeAt(i)]
    for every [i < len]. *)
Definition decodeBase64 (base64 : string) : result (list byte) :=
  binaryString ← Base64.atob base64;
  let len := String.length binaryString in
  let bytes := replicate len x00 in
  mret (foldl (fun (bytes : list byte) i =>
                 match charCodeAt binaryString i with
                 | Some c => <[i := byte_of_Z c]> bytes
                 | None => bytes
                 end) bytes (seq 0 len)).

(** ** Web Audio: AudioBuffer and createBuffer *)

Module AudioBuffer.

(** [length] is the number of frames and [sampleRate] a whole number
    of Hz (24000 at the one call site); [channelData] holds one
    [Float32Array] per channel, so that [numberOfChannels] is its
    length. *)
Record t := mk {
  length : nat;
  sampleRate : Z;
  channelData : list (list spec_float)
}.

Definition numberOfChannels (b : t) : nat := Datatypes.length (channelData b).

Definition getChannelData (b : t) (i : nat) : option (list spec_float) :=
  channelData b !! i.

(** [duration]: the length in frames over the sample rate. *)
Definition duration (b : t) : Q :=
  (inject_Z (Z.of_nat (length b)) / inject_Z (sampleRate b))%Q.

End AudioBuffer.

Module AudioContext.

(** What [createBuffer] depends on: the sample rates and the number
    of channels the implementation supports (the Web Audio standard
    requires at least 8000 to 96000 Hz and 32 channels). *)
Record t := mk {
  minSampleRate : Z;
  maxSampleRate : Z;
  maxChannels : nat
}.

(** [createBuffer(numberOfChannels, length, sampleRate)]: a buffer of
    silence.  The Web Audio standard has it throw NotSupportedError when
    an argument is zero or outside its nominal range; in particular the
    length must be at least one frame. *)
Definition createBuffer (ctx : t) (numberOfChannels length : nat) (sampleRate : Z)
  : result AudioBuffer.t :=
  if (numberOfChannels =? 0)%nat || (maxChannels ctx <? numberOfChannels)%nat
     || (length =? 0)%nat
     || (sampleRate <? minSampleRate ctx) || (maxSampleRate ctx <? sampleRate)
  then Throw NotSupportedError
  else Ok (AudioBuffer.mk length sampleRate
             (replicate numberOfChannels (replicate length (S754_zero false)))).

(** A context with exactly the ranges every implementation must
    support. *)
Definition standard : t := mk 8000 96000 32.

End AudioContext.

(** ** audioUtils.ts: decodeRawPCM *)

(** The element a little-endian [Int16Array] view shows for two bytes. *)
Definition int16_le (lo hi : byte) : Z :=
  wrap_signed 16 (byte_to_Z lo + 256 * byte_to_Z hi).

Fixpoint int16_elements (bytes : list byte) : list Z :=
  match bytes with
  | lo :: hi :: rest => int16_le lo hi :: int16_elements rest
  | _ => []
  end.

(** [new Int16Array(buffer)]: a view of the whole buffer, RangeError
    when its byte length is not a multiple of two. *)
Definition Int16Array (bytes : list byte) : result (list Z) :=
  if Nat.even (length bytes) then Ok (int16_elements bytes)
  else Throw RangeError.

(** The value [channelData[i] = int16Data[i] / 32768.0] stores. *)
Definition normalize (v : Z) : spec_float :=
  Float32.fround (Number.div (Number.of_Z v) (Number.of_Z 32768)).

Definition decodeRawPCM (base64Data : string) (audioContext : AudioContext.t)
    (sampleRate : Z) : result AudioBuffer.t :=
  bytes ← decodeBase64 base64Data;
  int16Data ← Int16Array bytes;
  buffer ← AudioContext.createBuffer audioContext 1 (length int16Data) sampleRate;
  match AudioBuffer.getChannelData buffer 0 with
  | None => Throw IndexSizeError
  | Some channelData =>
      let channelData :=
        foldl (fun (channelData : list spec_float) i =>
                 match int16Data !! i with
                 | Some v => <[i := normalize v]> channelData
                 | None => channelData
                 end) channelData (seq 0 (length int16Data)) in
      mret (AudioBuffer.mk (AudioBuffer.length buffer) (AudioBuffer.sampleRate buffer)
              (<[0%nat := channelData]> (AudioBuffer.channelData buffer)))
  end.

(** ** DataView *)

Module DataView.

(** A view of a whole [ArrayBuffer], given by the buffer's bytes.
    Every setter throws RangeError when the bytes it writes do not lie
    within the buffer; multi-byte values are written little-endian, as
    every call of the source asks. *)
Definition t := list byte.

Definition setUint8 (view : t) (byteOffset : nat) (value : Z) : result t :=
  if (byteOffset + 1 <=? length view)%nat
  then Ok (<[byteOffset := byte_of_Z value]> view)
  else Throw RangeError.

Definition setUint16 (view : t) (byteOffset : nat) (value : Z) : result t :=
  if (byteOffset + 2 <=? length view)%nat
  then Ok (<[(byteOffset + 1)%nat := byte_of_Z (value / 256)]>
             (<[byteOffset := byte_of_Z value]> view))
  else Throw RangeError.

Definition setUint32 (view : t) (byteOffset : nat) (value : Z) : result t :=
  if (byteOffset + 4 <=? length view)%nat
  then Ok (<[(byteOffset + 3)%nat := byte_of_Z (value / 16777216)]>
             (<[(byteOffset + 2)%nat := byte_of_Z (value / 65536)]>
                (<[(byteOffset + 1)%nat := byte_of_Z (value / 256)]>
                   (<[byteOffset := byte_of_Z value]> view))))
  else Throw RangeError.

(** [setInt16] stores the low sixteen bits of the integer. *)
Definition setInt16 (view : t) (byteOffset : nat) (value : Z) : result t :=
  setUint16 view byteOffset (wrap_signed 16 value).

Definition getUint16 (view : t) (byteOffset : nat) : option Z :=
  b0 ← view !! byteOffset;
  b1 ← view !! (byteOffset + 1)%nat;
  Some (byte_to_Z b0 + 256 * byte_to_Z b1).

Definition getUint32 (view : t) (byteOffset : nat) : option Z :=
  b0 ← view !! byteOffset;
  b1 ← view !! (byteOffset + 1)%nat;
  b2 ← view !! (byteOffset + 2)%nat;
  b3 ← view !! (byteOffset + 3)%nat;
  Some (byte_to_Z b0 + 256 * byte_to_Z b1 + 65536 * byte_to_Z b2
        + 16777216 * byte_to_Z b3).

End DataView.

(** A loop whose body can throw. *)
Fixpoint foldM {A B} (f : B -> A -> result B) (l : list A) (b : B) : result B :=
  match l with
  | [] => Ok b
  | a :: l => b' ← f b a; foldM f l b'
  end.

(** ** audioUtils.ts: writeString *)

Definition writeString (view : DataView.t) (offset : nat) (string : string)
  : result DataView.t :=
  foldM (fun view i =>
           match charCodeAt string i with
           | Some c => DataView.setUint8 view (offset + i) c
           | None => Ok view
           end) (seq 0 (String.length string)) view.

(** ** audioUtils.ts: bufferToWave *)

(** [channels[i][pos]] as a number: NaN when [pos] is past the end of
    the array (the element is [undefined]). *)
Definition channel_sample (channels : list (list spec_float)) (i pos : nat)
  : result Number.t :=
  match channels !! i with
  | None => Throw TypeError
  | Some channel =>
      match channel !! pos with
      | Some x => Ok (Float32.to_Number x)
      | None => Ok Number.NaN
      end
  end.

(** The two statements of the inner loop that compute [sample]:
    clamp, then scale to a 16-bit signed integer. *)
Definition scale_sample (x : Number.t) : Z :=
  let sample := Number.max (Number.of_Z (-1)) (Number.min (Number.of_Z 1) x) in
  Number.ToInt32
    (if Number.ltb sample (Number.of_Z 0)
     then Number.mul sample (Number.of_Z 32768)
     else Number.mul sample (Number.of_Z 32767)).

(** The body of the inner loop: the sample of channel [i] at frame
    [pos], written at [offset]. *)
Definition write_sample (channels : list (list spec_float)) (pos : nat)
    (st : DataView.t * nat) (i : nat) : result (DataView.t * nat) :=
  let '(view, offset) := st in
  x ← channel_sample channels i pos;
  let sample := scale_sample x in
  view ← DataView.setInt16 view offset sample;
  mret (view, (offset + 2)%nat).

(** The loop [while (pos < len)] with its inner loop over the channels. *)
Definition interleave (channels : list (list spec_float)) (numOfChan len : nat)
    (view : DataView.t) (offset : nat) : result (DataView.t * nat) :=
  foldM (fun st pos => foldM (write_sample channels pos) (seq 0 numOfChan) st)
        (seq 0 len) (view, offset).

(** [bufferToWave]; [channels] is filled with [getChannelData(i)] for
    every channel [i], which gives the arrays of [channelData]. *)
Definition bufferToWave (abuffer : AudioBuffer.t) (len : nat) : result (list byte) :=
  let numOfChan := AudioBuffer.numberOfChannels abuffer in
  let length := (len * numOfChan * 2 + 44)%nat in
  let view : DataView.t := replicate length x00 in
  let offset := 0%nat in
  (* write WAVE header *)
  view ← writeString view offset "RIFF"; let offset := (offset + 4)%nat in
  view ← DataView.setUint32 view offset (Z.of_nat length - 8); let offset := (offset + 4)%nat in
  view ← writeString view offset "WAVE"; let offset := (offset + 4)%nat in
  view ← writeString view offset "fmt "; let offset := (offset + 4)%nat in
  view ← DataView.setUint32 view offset 16; let offset := (offset + 4)%nat in
  view ← DataView.setUint16 view offset 1; let offset := (offset + 2)%nat in
  view ← DataView.setUint16 view offset (Z.of_nat numOfChan); let offset := (offset + 2)%nat in
  view ← DataView.setUint32 view offset (AudioBuffer.sampleRate abuffer); let offset := (offset + 4)%nat in
  view ← DataView.setUint32 view offset (AudioBuffer.sampleRate abuffer * 2 * Z.of_nat numOfChan);
  let offset := (offset + 4)%nat in
  view ← DataView.setUint16 view offset (Z.of_nat numOfChan * 2); let offset := (offset + 2)%nat in
  view ← DataView.setUint16 view offset 16; let offset := (offset + 2)%nat in
  view ← writeString view offset "data"; let offset := (offset + 4)%nat in
  view ← DataView.setUint32 view offset (Z.of_nat length - 0 - 44); let offset := (offset + 4)%nat in
  (* interleave channels *)
  let channels := AudioBuffer.channelData abuffer in
  '(view, _) ← interleave channels numOfChan len view offset;
  mret view.

(** ** The bytes of a WAVE file *)

Definition string_bytes (s : string) : list byte :=
  map (fun c => byte_of_Z (Base64.code c)) (list_ascii_of_string s).

Definition le16 (v : Z) : list byte := [byte_of_Z v; byte_of_Z (v / 256)].

Definition le32 (v : Z) : list byte :=
  [byte_of_Z v; byte_of_Z (v / 256); byte_of_Z (v / 65536); byte_of_Z (v / 16777216)].

Definition wav_header (numOfChan : nat) (sampleRate : Z) (length : nat) : list byte :=
  string_bytes "RIFF" ++ le32 (Z.of_nat length - 8)
  ++ string_bytes "WAVE" ++ string_bytes "fmt "
  ++ le32 16 ++ le16 1 ++ le16 (Z.of_nat numOfChan)
  ++ le32 sampleRate ++ le32 (sampleRate * 2 * Z.of_nat numOfChan)
  ++ le16 (Z.of_nat numOfChan * 2) ++ le16 16
  ++ string_bytes "data" ++ le32 (Z.of_nat length - 0 - 44).

(** The element of a channel as the encoder reads it. *)
Definition element (channel : list spec_float) (pos : nat) : Number.t :=
  match channel !! pos with
  | Some x => Float32.to_Number x
  | None => Number.NaN
  end.

Definition sample_bytes (x : Number.t) : list byte :=
  le16 (wrap_signed 16 (scale_sample x)).

Definition frame_bytes (channels : list (list spec_float)) (pos : nat) : list byte :=
  flat_map (fun channel => sample_bytes (element channel pos)) channels.

Definition wav_data (channels : list (list spec_float)) (len : nat) : list byte :=
  flat_map (frame_bytes channels) (seq 0 len).

(** ** Vocabulary of the properties *)

(** What [decodeRawPCM] returns when it returns. *)
Definition decoded (int16Data : list Z) (sampleRate : Z) : AudioBuffer.t :=
  AudioBuffer.mk (length int16Data) sampleRate [map normalize int16Data].

(** A sample and the rational it denotes. *)
Definition denotes (x : spec_float) (q : Q) : Prop :=
  exists q', Number.to_Q x = Some q' /\ (q' == q)%Q.

(** Two samples within one quantization step of each other. *)
Definition close (x y : spec_float) : Prop :=
  exists q r, Number.to_Q x = Some q /\ Number.to_Q y = Some r
              /\ (Qabs (q - r) <= 1 # 32768)%Q.

(** What the encoder stores for a sample the decoder produced. *)
Definition requantize (v : Z) : Z := if v <=? 0 then v else v - 1.

(** ** AudioPlayer: the playback engine

    The component keeps React state ([isPlaying], [currentTime],
    [isMuted]), refs, and the platform objects it created.  A function
    of the component body reads the React state of the render that
    created it: inside a handler, and inside the [draw] callback a
    handler has scheduled, [isPlaying] is the value of that render, and
    [setIsPlaying] only changes what the next render sees.  Refs and
    platform objects are read when the statement runs.  Times are in
    seconds and modelled as rationals: the code computes
    [currentTime - offset], [currentTime - startTimeRef] and
    [duration - 0.1] in binary64, each within rounding error of the
    rational here (below 2^-14 s each, for times below 2^40 s).  The
    comparison in [onended] can therefore come out differently in the
    code when the two sides are that close; the properties that depend
    on its outcome are stated for times that keep [clearance] away
    from the threshold. *)

Module Player.

(** An [AudioBufferSourceNode]. *)
Record SourceNode := mkSource {
  started : bool;      (* start() was called *)
  stopped : bool;      (* stop() was called *)
  ended : bool;        (* its ended event was dispatched *)
  connected : bool;    (* wired to the analyser *)
  startedAt : Q;       (* context time of start() *)
  offset : Q           (* offset into the buffer given to start() *)
}.

(** A pending [requestAnimationFrame(draw)]: the request id and the
    [isPlaying] the [draw] closure holds. *)
Definition Frame : Type := nat * bool.

Record state := mkState {
  (* props *)
  audioBuffer : option AudioBuffer.t;
  (* React state *)
  isPlaying : bool;
  currentTime : Q;
  isMuted : bool;
  (* refs *)
  audioContextRef : bool;
  sourceRef : option nat;
  gainNodeRef : option Q;       (* gain.value of the current GainNode *)
  analyzerRef : bool;
  animationRef : option nat;
  startTimeRef : Q;
  pauseTimeRef : Q;
  (* platform *)
  now : Q;                      (* audioContext.currentTime *)
  sources : list SourceNode;    (* every source node created, by index *)
  frames : list Frame;          (* pending animation frame callbacks *)
  nextFrame : nat;
  framesDrawn : nat             (* runs of [draw] past its check *)
}.

Definition initial (audioBuffer : option AudioBuffer.t) : state :=
  mkState audioBuffer false 0%Q false false None None false None 0%Q 0%Q 0%Q [] [] 1 0.

Definition setIsPlaying (b : bool) (st : state) : state :=
  mkState (audioBuffer st) b (currentTime st) (isMuted st) (audioContextRef st)
    (sourceRef st) (gainNodeRef st) (analyzerRef st) (animationRef st)
    (startTimeRef st) (pauseTimeRef st) (now st) (sources st) (frames st)
    (nextFrame st) (framesDrawn st).

Definition setCurrentTime (t : Q) (st : state) : state :=
  mkState (audioBuffer st) (isPlaying st) t (isMuted st) (audioContextRef st)
    (sourceRef st) (gainNodeRef st) (analyzerRef st) (animationRef st)
    (startTimeRef st) (pauseTimeRef st) (now st) (sources st) (frames st)
    (nextFrame st) (framesDrawn st).

Definition setIsMuted (b : bool) (st : state) : state :=
  mkState (audioBuffer st) (isPlaying st) (currentTime st) b (audioContextRef st)
    (sourceRef st) (gainNodeRef st) (analyzerRef st) (animationRef st)
    (startTimeRef st) (pauseTimeRef st) (now st) (sources st) (frames st)
    (nextFrame st) (framesDrawn st).

Definition set_nodes (ctx : bool) (gain : option Q) (analyzer : bool) (st : state) : state :=
  mkState (audioBuffer st) (isPlaying st) (currentTime st) (isMuted st) ctx
    (sourceRef st) gain analyzer (animationRef st)
    (startTimeRef st) (pauseTimeRef st) (now st) (sources st) (frames st)
    (nextFrame st) (framesDrawn st).

Definition set_sources (ref : option nat) (l : list SourceNode) (st : state) : state :=
  mkState (audioBuffer st) (isPlaying st) (currentTime st) (isMuted st)
    (audioContextRef st) ref (gainNodeRef st) (analyzerRef st) (animationRef st)
    (startTimeRef st) (pauseTimeRef st) (now st) l (frames st)
    (nextFrame st) (framesDrawn st).

Definition set_startTimeRef (t : Q) (st : state) : state :=
  mkState (audioBuffer st) (isPlaying st) (currentTime st) (isMuted st)
    (audioContextRef st) (sourceRef st) (gainNodeRef st) (analyzerRef st)
    (animationRef st) t (pauseTimeRef st) (now st) (sources st) (frames st)
    (nextFrame st) (framesDrawn st).

Definition set_pauseTimeRef (t : Q) (st : state) : state :=
  mkState (audioBuffer st) (isPlaying st) (currentTime st) (isMuted st)
    (audioContextRef st) (sourceRef st) (gainNodeRef st) (analyzerRef st)
    (animationRef st) (startTimeRef st) t (now st) (sources st) (frames st)
    (nextFrame st) (framesDrawn st).

Definition set_now (t : Q) (st : state) : state :=
  mkState (audioBuffer st) (isPlaying st) (currentTime st) (isMuted st)
    (audioContextRef st) (sourceRef st) (gainNodeRef st) (analyzerRef st)
    (animationRef st) (startTimeRef st) (pauseTimeRef st) t (sources st) (frames st)
    (nextFrame st) (framesDrawn st).

Definition set_frames (ref : option nat) (l : list Frame) (next drawn : nat)
    (st : state) : state :=
  mkState (audioBuffer st) (isPlaying st) (currentTime st) (isMuted st)
    (audioContextRef st) (sourceRef st) (gainNodeRef st) (analyzerRef st)
    ref (startTimeRef st) (pauseTimeRef st) (now st) (sources st) l next drawn.

(** *** Handlers

    A handler runs its statements in order until one throws. *)
Definition action : Type := state -> state * option exn.

Definition skip : action := fun st => (st, None).
Definition update (f : state -> state) : action := fun st => (f st, None).
Definition andThen (a b : action) : action := fun st =>
  match a st with
  | (st', None) => b st'
  | r => r
  end.
Notation "a ;> b" := (andThen a b) (at level 62, right associativity).

Definition isSome {A} (o : option A) : bool :=
  match o with Some _ => true | None => false end.

(** [if (c) { a }], the condition read when the statement runs. *)
Definition when (c : state -> bool) (a : action) : action := fun st =>
  if c st then a st else (st, None).

(** *** Platform calls *)

(** [sourceRef.current.stop()]: InvalidStateError on a node that was
    never started, nothing new on a node that has stopped. *)
Definition source_stop : action := fun st =>
  match sourceRef st with
  | None => (st, None)
  | Some i =>
      match sources st !! i with
      | None => (st, None)
      | Some s =>
          if started s
          then (set_sources (sourceRef st)
                  (<[i := mkSource true true (ended s) (connected s) (startedAt s) (offset s)]>
                     (sources st)) st, None)
          else (st, Some InvalidStateError)
      end
  end.

Definition source_disconnect : action := fun st =>
  match sourceRef st with
  | None => (st, None)
  | Some i =>
      match sources st !! i with
      | None => (st, None)
      | Some s =>
          (set_sources (sourceRef st)
             (<[i := mkSource (started s) (stopped s) (ended s) false (startedAt s) (offset s)]>
                (sources st)) st, None)
      end
  end.

(** [sourceRef.current = createBufferSource()], the buffer assigned
    and the node connected to the analyser. *)
Definition create_source : action := update (fun st =>
  set_sources (Some (length (sources st)))
    (sources st ++ [mkSource false false false true 0%Q 0%Q]) st).

(** [sourceRef.current.start(0, offset)]: RangeError when [offset] is
    negative. *)
Definition source_start (off : Q) : action := fun st =>
  if Qle_bool 0%Q off then
    match sourceRef st with
    | None => (st, None)
    | Some i =>
        (set_sources (sourceRef st)
           (<[i := mkSource true false false true (now st) off]> (sources st)) st, None)
    end
  else (st, Some RangeError).

(** [cancelAnimationFrame(animationRef.current)] when the ref holds a
    request id. *)
Definition cancel_animation : action := update (fun st =>
  match animationRef st with
  | None => st
  | Some id =>
      set_frames (animationRef st)
        (filter (fun f : Frame => negb (fst f =? id)%nat) (frames st))
        (nextFrame st) (framesDrawn st) st
  end).

(** *** The functions of the component *)

(** [initAudio]; the [AudioContext] constructor is taken to succeed,
    and every call installs a new analyser and a new gain node, whose
    gain is 1. *)
Definition initAudio : action := fun st =>
  match audioBuffer st with
  | None => (st, None)
  | Some _ => (set_nodes true (Some 1%Q) true st, None)
  end.

(** One run of the [draw] closure created by [drawVisualizer] in a
    render whose [isPlaying] was [isPlaying_]. *)
Definition draw (isPlaying_ : bool) : action := fun st =>
  if negb isPlaying_ then (st, None)
  else
    let st := if audioContextRef st
              then setCurrentTime (now st - startTimeRef st)%Q st else st in
    let id := nextFrame st in
    (set_frames (Some id) (frames st ++ [(id, isPlaying_)]) (S id)
       (S (framesDrawn st)) st, None).

(** [drawVisualizer] returns at once without an analyser; the canvas
    and its 2d context are there for as long as the component is
    mounted.  Then it calls [draw]. *)
Definition drawVisualizer (isPlaying_ : bool) : action := fun st =>
  if negb (analyzerRef st) then (st, None) else draw isPlaying_ st.

(** [playAudio]; resuming a suspended context has no effect on this
    state, and the [onended] handler it installs is [onended] below,
    run by the [Ended] event of the source. *)
Definition playAudio (isPlaying_ : bool) : action := fun st =>
  match audioBuffer st with
  | None => (st, None)
  | Some _ =>
      (initAudio ;>
       create_source ;>
       (fun st =>
          let offset := pauseTimeRef st in
          (source_start offset ;>
           update (fun st => set_startTimeRef (now st - offset)%Q st)) st) ;>
       update (setIsPlaying true) ;>
       drawVisualizer isPlaying_) st
  end.

Definition pauseAudio (isPlaying_ : bool) : action :=
  when (fun st => isSome (sourceRef st) && isPlaying_)
    (source_stop ;>
     update (fun st => set_pauseTimeRef (now st - startTimeRef st)%Q st) ;>
     update (setIsPlaying false) ;>
     cancel_animation).

Definition stopAudio : action :=
  when (fun st => isSome (sourceRef st))
    (source_stop ;> source_disconnect) ;>
  update (setIsPlaying false) ;>
  update (set_pauseTimeRef 0%Q) ;>
  update (setCurrentTime 0%Q) ;>
  cancel_animation.

Definition togglePlay (isPlaying_ : bool) : action :=
  if isPlaying_ then pauseAudio isPlaying_ else playAudio isPlaying_.

Definition toggleMute (isMuted_ : bool) : action := fun st =>
  match gainNodeRef st with
  | None => (st, None)
  | Some _ =>
      (setIsMuted (negb isMuted_)
         (set_nodes (audioContextRef st) (Some (if isMuted_ then 1%Q else 0%Q))
            (analyzerRef st) st), None)
  end.

Definition handleSeek (time : Q) (isPlaying_ : bool) : action :=
  update (setCurrentTime time) ;>
  update (set_pauseTimeRef time) ;>
  (if isPlaying_
   then when (fun st => isSome (sourceRef st)) source_stop ;>
        playAudio isPlaying_
   else skip).

(** The restart control: [stopAudio(); playAudio()]. *)
Definition restart (isPlaying_ : bool) : action :=
  stopAudio ;> playAudio isPlaying_.

(** The [onended] handler [playAudio] installs. *)
Definition onended (duration : Q) : action := fun st =>
  if Qle_bool (duration - (1 # 10))%Q (now st - startTimeRef st)%Q
  then (setCurrentTime 0%Q (set_pauseTimeRef 0%Q (setIsPlaying false st)), None)
  else (st, None).

(** *** Events

    What can happen to a mounted player: the four controls, the
    context clock moving on, the browser running a pending animation
    frame callback, and the [ended] event of a source node.  The event
    of a source is dispatched once, after [stop()] or when the source
    has played to the end of the buffer. *)
Inductive event :=
  | TogglePlay
  | Restart
  | Seek (time : Q)
  | ToggleMute
  | Advance (dt : Q)
  | AnimationFrame (id : nat)
  | Ended (i : nat).

Definition duration (st : state) : Q :=
  match audioBuffer st with
  | Some b => AudioBuffer.duration b
  | None => 0%Q
  end.

(** A handler runs with the React state of the last render; an
    exception it throws is not caught and ends it. *)
Definition step (ev : event) (st : state) : option state :=
  match ev with
  | TogglePlay => Some (fst (togglePlay (isPlaying st) st))
  | Restart => Some (fst (restart (isPlaying st) st))
  | Seek time => Some (fst (handleSeek time (isPlaying st) st))
  | ToggleMute => Some (fst (toggleMute (isMuted st) st))
  | Advance dt =>
      if Qle_bool 0%Q dt then Some (set_now (now st + dt)%Q st) else None
  | AnimationFrame id =>
      match find (fun f : Frame => (fst f =? id)%nat) (frames st) with
      | Some (_, isPlaying_) =>
          let st := set_frames (animationRef st)
                      (filter (fun f : Frame => negb (fst f =? id)%nat) (frames st))
                      (nextFrame st) (framesDrawn st) st in
          Some (fst (draw isPlaying_ st))
      | None => None
      end
  | Ended i =>
      match sources st !! i with
      | Some s =>
          if started s && negb (ended s)
             && (stopped s
                 || Qle_bool (startedAt s + (duration st - offset s))%Q (now st))
          then
            let st := set_sources (sourceRef st)
                        (<[i := mkSource (started s) (stopped s) true (connected s)
                                  (startedAt s) (offset s)]> (sources st)) st in
            Some (fst (onended (duration st) st))
          else None
      | None => None
      end
  end.

Fixpoint run (evs : list event) (st : state) : option state :=
  match evs with
  | [] => Some st
  | ev :: evs => st' ← step ev st; run evs st'
  end.

(** *** Observations *)

(** A source that was started and has neither been stopped nor
    ended. *)
Definition alive (s : SourceNode) : bool :=
  started s && negb (stopped s) && negb (ended s).

(** A source that is producing sound at context time [t]. *)
Definition audible (duration t : Q) (s : SourceNode) : bool :=
  started s && negb (stopped s)
  && negb (Qle_bool (startedAt s + (duration - offset s))%Q t).

Definition aliveSources (st : state) : list SourceNode :=
  filter (fun s => alive s = true) (sources st).

(** The position the engine is at: the one [draw] shows while
    playing, the one [playAudio] resumes from otherwise. *)
Definition currentPosition (st : state) : Q :=
  if isPlaying st then (now st - startTimeRef st)%Q else pauseTimeRef st.

(** An [ended] event that arrives for a source the engine has already
    replaced. *)
Definition superseded (st : state) (ev : event) : bool :=
  match ev with
  | Ended i =>
      match sourceRef st with
      | Some j => negb (i =? j)%nat
      | None => true
      end
  | _ => false
  end.

(** Runs in which no [ended] event arrives late. *)
Fixpoint runCurrent (evs : list event) (st : state) : option state :=
  match evs with
  | [] => Some st
  | ev :: evs =>
      if superseded st ev then None
      else st' ← step ev st; runCurrent evs st'
  end.

(** Without such a late [ended] event the engine does keep to one
    source: the only source that can be alive is the one [sourceRef]
    holds, and only while [isPlaying] is true. *)
Definition currentOnly (st : state) : Prop :=
  forall i s, sources st !! i = Some s -> alive s = true -> sourceRef st = Some i.

Definition oneAlive (st : state) : Prop :=
  forall i s, sources st !! i = Some s -> alive s = true ->
              sourceRef st = Some i /\ isPlaying st = true.

Definition noneAlive (st : state) : Prop :=
  forall i s, sources st !! i = Some s -> alive s = false.

(** Actions that leave every source as dead as it was, and actions
    that leave no source alive. *)
Definition keepsNoneAlive (a : action) : Prop :=
  forall st, noneAlive st -> noneAlive (fst (a st)).

Definition stopsAll (a : action) : Prop :=
  forall st, currentOnly st -> noneAlive (fst (a st)).

(** A millisecond: how far from the threshold of [onended] a time is
    kept by the properties that depend on the outcome of its test. *)
Definition clearance : Q := 1 # 1000.

(** When the [ended] event of the source that was stopped by the pause
    is dispatched, in a run of play, pause, seek, play: before the
    seek, between the seek and the second play, or not before the
    second play. *)
Inductive dispatch := BeforeSeek | AfterSeek | NotYet.

(** The clamp of the specification's [seek]. *)
Definition clamp (lo hi t : Q) : Q :=
  if Qle_bool t lo then lo else if Qle_bool hi t then hi else t.

(** Running the oldest pending animation frame, [n] times. *)
Fixpoint runFrames (n : nat) (st : state) : option state :=
  match n with
  | O => Some st
  | S n =>
      match frames st with
      | [] => None
      | (id, _) :: _ => st' ← step (AnimationFrame id) st; runFrames n st'
      end
  end.

End Player.

(** A buffer of three seconds, six frames at 2 Hz, short enough to
    compute with. *)
Definition lesson : AudioBuffer.t :=
  AudioBuffer.mk 6 2 [replicate 6 (S754_zero false)].

(** A buffer of two channels. *)
Definition stereo : AudioBuffer.t :=
  AudioBuffer.mk 2 48000 [[S754_zero false; S754_zero false]; [S754_zero false; S754_zero false]].

(** ** AudioPlayer: the download *)

(** [handleDownload]: nothing without a buffer; otherwise the name and
    the bytes of the file the link downloads. *)
Definition handleDownload (audioBuffer : option AudioBuffer.t)
  : result (option (string * list byte)) :=
  match audioBuffer with
  | None => Ok None
  | Some audioBuffer =>
      blob ← bufferToWave audioBuffer (AudioBuffer.length audioBuffer);
      Ok (Some ("learnon_ai_lesson.wav"%string, blob))
  end.

(** ** AudioPlayer: the clock *)

(** ** Math.floor, the remainder operator and number-to-string *)

Module Math.


End Math.

Module JSNumber.




End JSNumber.



(** ** AudioPlayer: runs of the controls *)

Module Transport.
Import Player.

(** The exception, if any, that ends the handler an event runs. *)
Definition raises (ev : event) (st : state) : option exn :=
  match ev with
  | TogglePlay => snd (togglePlay (isPlaying st) st)
  | Restart => snd (restart (isPlaying st) st)
  | Seek time => snd (handleSeek time (isPlaying st) st)
  | ToggleMute => snd (toggleMute (isMuted st) st)
  | Advance _ => None
  | AnimationFrame id =>
      match find (fun f : Frame => (fst f =? id)%nat) (frames st) with
      | Some (_, isPlaying_) => snd (draw isPlaying_ st)
      | None => None
      end
  | Ended _ => snd (onended (duration st) st)
  end.

(** Events the rendered controls can produce: the range input only
    yields values from [0] up. *)
Definition fromSlider (ev : event) : bool :=
  match ev with
  | Seek time => Qle_bool 0 time
  | _ => true
  end.

Definition wellTimed (st : state) : Prop :=
  (0 <= pauseTimeRef st)%Q /\ (startTimeRef st <= now st)%Q /\
  forall i, sourceRef st = Some i ->
            exists s, sources st !! i = Some s /\ started s = true.

(** The state a failed [start()] leaves behind: the component counts
    as playing and [sourceRef] holds a node that was never started. *)
Definition jammed (st : state) : Prop :=
  isPlaying st = true /\
  exists i s, sourceRef st = Some i /\ sources st !! i = Some s /\ started s = false.

(** Everything but the [ended] event of a source. *)
Definition control (ev : event) : bool :=
  match ev with
  | Ended _ => false
  | _ => true
  end.

(** Handlers that neither throw nor leave such a state. *)
Definition safe (a : action) : Prop :=
  forall st, wellTimed st -> snd (a st) = None /\ wellTimed (fst (a st)).

(** Handlers that keep a property of the state, whether or not they
    throw. *)
Definition invariant (P : state -> Prop) (a : action) : Prop :=
  forall st, P st -> P (fst (a st)).

(** A player that was given no buffer. *)
Definition inert (st : state) : Prop :=
  audioBuffer st = None /\ sources st = [] /\ frames st = [] /\
  isPlaying st = false /\ sourceRef st = None /\ gainNodeRef st = None /\
  isMuted st = false /\ framesDrawn st = 0%nat /\ audioContextRef st = false.

(** Events other than a seek and the restart control. *)
Definition plain (ev : event) : bool :=
  match ev with
  | Seek _ | Restart => false
  | _ => true
  end.

(** Nothing has been drawn and the displayed time is still zero. *)
Definition undrawn (st : state) : Prop :=
  frames st = [] /\ framesDrawn st = 0%nat /\ currentTime st = 0%Q /\
  animationRef st = None.

(** The position a control starts playback from, for the controls
    that start playback in the given state. *)
Definition startsAt (ev : event) (st : state) : option Q :=
  match ev with
  | TogglePlay => if isPlaying st then None else Some (pauseTimeRef st)
  | Seek time => if isPlaying st then Some time else None
  | Restart => Some 0%Q
  | _ => None
  end.



End Transport.

(** ** types.ts *)

Inductive AppState := IDLE | ANALYZING | SYNTHESIZING | READY | ERROR.

Module FileData.

(** [base64] is what [split(',')[1]] gave: [None] stands for
    [undefined]. *)
Record t := mk {
  name : string;
  type : string;
  base64 : option string
}.

End FileData.

(** ** Values thrown and promises settled *)

(** What the application code sees thrown: an [Error] with its
    message (its own, or one of the Gemini client), or an exception of
    the platform. *)
Inductive thrown :=
  | Error (message : string)
  | DOMException (e : exn).

(** How an awaited promise settles. *)
Inductive outcome (A : Type) :=
  | Fulfilled (a : A)
  | Rejected (err : thrown).
Arguments Fulfilled {A} a.
Arguments Rejected {A} err.

(** A string used as a condition: the empty string and [undefined]
    count as false. *)
Definition truthy (s : option string) : option string :=
  match s with
  | Some (String c r) => Some (String c r)
  | _ => None
  end.

(** ** geminiService.ts *)

Module Gemini.

(** The fields of a [GenerateContentResponse] the code reads; a
    missing field is [None].  [text] is the getter of the client
    library. *)
Record Blob := mkBlob { data : option string }.
Record Part := mkPart { inlineData : option Blob }.
Record Content := mkContent { parts : option (list Part) }.
Record Candidate := mkCandidate { content : option Content }.
Record GenerateContentResponse := mkResponse {
  text : option string;
  candidates : option (list Candidate)
}.

(** [analyzeDocument], from the point where the call of
    [generateContent] has settled.  The [catch] logs the error and
    throws it again. *)
Definition analyzeDocument (response : outcome GenerateContentResponse)
  : outcome string :=
  match response with
  | Fulfilled response =>
      match truthy (text response) with
      | Some text => Fulfilled text
      | None => Rejected (Error "No script generated.")
      end
  | Rejected error => Rejected error
  end.

(** [response.candidates?.[0]?.content?.parts?.[0]?.inlineData?.data] *)
Definition audioData (response : GenerateContentResponse) : option string :=
  candidates ← candidates response;
  candidate ← candidates !! 0%nat;
  content ← content candidate;
  parts ← parts content;
  part ← parts !! 0%nat;
  inlineData ← inlineData part;
  data inlineData.

Definition synthesizeAudio (response : outcome GenerateContentResponse)
  : outcome string :=
  match response with
  | Fulfilled response =>
      match truthy (audioData response) with
      | Some audioData => Fulfilled audioData
      | None => Rejected (Error "No audio data received from Gemini.")
      end
  | Rejected error => Rejected error
  end.

End Gemini.

(** ** App.tsx *)

Module App.

(** An [await] at which a call of [handleFileSelect] is suspended. *)
Inductive await :=
  | AwaitAnalysis (file : FileData.t)
  | AwaitSynthesis (script : string).

(** The React state of the component, and the calls of
    [handleFileSelect] that have not returned yet ([None] for one that
    has). *)
Record state := mkState {
  appState : AppState;
  generatedScript : string;
  audioBuffer : option AudioBuffer.t;
  errorMsg : string;
  calls : list (option await)
}.

Definition initial : state := mkState IDLE "" None "" [].

Section Handlers.

(** The message the platform gives an exception it throws. *)
Variable messageOf : exn -> string.

Definition message (err : thrown) : string :=
  match err with
  | Error message => message
  | DOMException e => messageOf e
  end.

(** The [catch] block of [handleFileSelect]. *)
Definition catch (id : nat) (err : thrown) (st : state) : state :=
  mkState ERROR (generatedScript st) (audioBuffer st)
    (match truthy (Some (message err)) with
     | Some message => message
     | None => "An unexpected error occurred processing your file."
     end)
    (<[id := None]> (calls st)).

(** [handleFileSelect] up to its first [await]. *)
Definition handleFileSelect (file : FileData.t) (st : state) : state :=
  mkState ANALYZING (generatedScript st) (audioBuffer st) ""
    (calls st ++ [Some (AwaitAnalysis file)]).

(** ... from there to its second [await] ... *)
Definition analyzed (id : nat) (response : outcome Gemini.GenerateContentResponse)
    (st : state) : state :=
  match Gemini.analyzeDocument response with
  | Fulfilled script =>
      mkState SYNTHESIZING script (audioBuffer st) (errorMsg st)
        (<[id := Some (AwaitSynthesis script)]> (calls st))
  | Rejected err => catch id err st
  end.

(** ... and from there to its end.  [audioCtx] is what
    [new AudioContext()] gives. *)
Definition synthesized (id : nat) (response : outcome Gemini.GenerateContentResponse)
    (audioCtx : result AudioContext.t) (st : state) : state :=
  match Gemini.synthesizeAudio response with
  | Fulfilled rawAudioData =>
      match audioCtx with
      | Ok audioCtx =>
          match decodeRawPCM rawAudioData audioCtx 24000 with
          | Ok buffer =>
              mkState READY (generatedScript st) (Some buffer) (errorMsg st)
                (<[id := None]> (calls st))
          | Throw e => catch id (DOMException e) st
          end
      | Throw e => catch id (DOMException e) st
      end
  | Rejected err => catch id err st
  end.

Definition handleReset (st : state) : state :=
  mkState IDLE "" None "" (calls st).

(** What can happen to the mounted application: a file arrives from
    the upload component, a reset button is pressed, or a request of a
    suspended call settles. *)
Inductive event :=
  | FileSelect (file : FileData.t)
  | Reset
  | AnalysisSettled (id : nat) (response : outcome Gemini.GenerateContentResponse)
  | SynthesisSettled (id : nat) (response : outcome Gemini.GenerateContentResponse)
      (audioCtx : result AudioContext.t).

Definition step (ev : event) (st : state) : option state :=
  match ev with
  | FileSelect file => Some (handleFileSelect file st)
  | Reset => Some (handleReset st)
  | AnalysisSettled id response =>
      match calls st !! id with
      | Some (Some (AwaitAnalysis _)) => Some (analyzed id response st)
      | _ => None
      end
  | SynthesisSettled id response audioCtx =>
      match calls st !! id with
      | Some (Some (AwaitSynthesis _)) => Some (synthesized id response audioCtx st)
      | _ => None
      end
  end.

Fixpoint run (evs : list event) (st : state) : option state :=
  match evs with
  | [] => Some st
  | ev :: evs => st' ← step ev st; run evs st'
  end.

End Handlers.

(** *** Rendering *)

Definition AppState_eqb (a b : AppState) : bool :=
  match a, b with
  | IDLE, IDLE | ANALYZING, ANALYZING | SYNTHESIZING, SYNTHESIZING
  | READY, READY | ERROR, ERROR => true
  | _, _ => false
  end.

(** The panels of the main area. *)
Inductive panel :=
  | Upload
  | Processing (title detail : string)
  | Player (audioBuffer : option AudioBuffer.t) (script : string)
  | Failure (errorMsg : string).

(** The [ProcessingStep] component: its title and its status line. *)
Definition ProcessingStep (state : AppState) : panel :=
  let isAnalyzing := AppState_eqb state ANALYZING in
  Processing
    (if isAnalyzing then "Analyzing Document" else "Synthesizing Audio")
    (if isAnalyzing then "Extracting key concepts & simplifying..."
     else "Generating neural speech & visualizer data...").

Definition main (st : state) : list panel :=
  (if AppState_eqb (appState st) IDLE then [Upload] else [])
  ++ (if AppState_eqb (appState st) ANALYZING || AppState_eqb (appState st) SYNTHESIZING
      then [ProcessingStep (appState st)] else [])
  ++ (if AppState_eqb (appState st) READY
      then [Player (audioBuffer st) (generatedScript st)] else [])
  ++ (if AppState_eqb (appState st) ERROR then [Failure (errorMsg st)] else []).

(** Whether the navigation bar offers Start Over. *)
Definition startOver (st : state) : bool := negb (AppState_eqb (appState st) IDLE).

(** What every reachable state satisfies: a buffer is one the decoder
    returned at 24 kHz, READY comes with a buffer, ERROR with a message,
    SYNTHESIZING with a script, and IDLE with everything cleared. *)
Definition consistent (st : state) : Prop :=
  (forall buffer, audioBuffer st = Some buffer ->
     exists rawAudioData audioCtx, decodeRawPCM rawAudioData audioCtx 24000 = Ok buffer) /\
  (appState st = READY -> audioBuffer st <> None) /\
  (appState st = ERROR -> errorMsg st <> EmptyString) /\
  (appState st = SYNTHESIZING -> generatedScript st <> EmptyString) /\
  (appState st = IDLE ->
   generatedScript st = EmptyString /\ audioBuffer st = None /\ errorMsg st = EmptyString).

End App.

(** ** FileUpload.tsx *)

Module JSString.

(** [s.split(sep)] for a one-character separator. *)
Fixpoint split (sep : ascii) (s : string) : list string :=
  match s with
  | EmptyString => [EmptyString]
  | String c r =>
      if Ascii.eqb c sep then EmptyString :: split sep r
      else match split sep r with
           | h :: t => String c h :: t
           | [] => [String c EmptyString]
           end
  end.

End JSString.

Module FileUpload.

(** A [File] of the platform, as far as the component looks at it. *)
Record File := mkFile {
  name : string;
  type : string;
  size : Z
}.

Definition validTypes : list string :=
  ["application/pdf"; "application/vnd.ms-powerpoint";
   "application/vnd.openxmlformats-officedocument.presentationml.presentation"]%string.

Definition includes (l : list string) (s : string) : bool :=
  existsb (String.eqb s) l.

(** The React state of the component, and the files it has handed to
    [readAsDataURL], in order. *)
Record state := mkState {
  isDragging : bool;
  error : option string;
  reading : list File
}.

Definition initial : state := mkState false None [].

Definition setIsDragging (b : bool) (st : state) : state :=
  mkState b (error st) (reading st).

Definition setError (e : option string) (st : state) : state :=
  mkState (isDragging st) e (reading st).

Definition processFile (file : File) (st : state) : state :=
  let st := setError None st in
  (* Validate type *)
  if negb (includes validTypes (type file))
  then setError (Some "Please upload a PDF or PowerPoint file."%string) st
  (* Validate size (limit to 10MB for base64 safety) *)
  else if (10 * 1024 * 1024 <? size file)
  then setError (Some "File size exceeds 10MB limit."%string) st
  else mkState (isDragging st) (error st) (reading st ++ [file]).

(** [reader.onload]: the argument of the call of [onFileSelect]. *)
Definition onload (file : File) (result : string) : FileData.t :=
  let base64String := JSString.split "," result !! 1%nat in
  FileData.mk (name file) (type file) base64String.

Definition handleDragOver (st : state) : state := setIsDragging true st.
Definition handleDragLeave (st : state) : state := setIsDragging false st.

(** [files] is [e.dataTransfer.files]. *)
Definition handleDrop (files : list File) (st : state) : state :=
  let st := setIsDragging false st in
  match files !! 0%nat with
  | Some file => processFile file st
  | None => st
  end.

(** [files] is [e.target.files]. *)
Definition handleInputChange (files : list File) (st : state) : state :=
  match files !! 0%nat with
  | Some file => processFile file st
  | None => st
  end.

Inductive event :=
  | DragOver
  | DragLeave
  | Drop (files : list File)
  | InputChange (files : list File).

Definition step (ev : event) (st : state) : state :=
  match ev with
  | DragOver => handleDragOver st
  | DragLeave => handleDragLeave st
  | Drop files => handleDrop files st
  | InputChange files => handleInputChange files st
  end.

Definition run (evs : list event) (st : state) : state := foldl (fun st ev => step ev st) st evs.

(** The data URL [readAsDataURL] produces for a file whose content
    has the base64 form [payload]. *)
Definition dataURL (file : File) (payload : string) : string :=
  ("data:" ++ type file ++ ";base64," ++ payload)%string.

(** A file the component reads. *)
Definition accepted (file : File) : Prop :=
  In (type file) validTypes /\ size file <= 10485760.

End FileUpload.

(** An upload and two responses to compute with. *)
Definition lessonFile : FileData.t :=
  FileData.mk "lesson.pdf" "application/pdf" (Some "JVBERi0="%string).

Definition scriptResponse : outcome Gemini.GenerateContentResponse :=
  Fulfilled (Gemini.mkResponse (Some "Welcome."%string) None).

Definition audioResponse : outcome Gemini.GenerateContentResponse :=
  Fulfilled
    (Gemini.mkResponse None
       (Some [Gemini.mkCandidate
                (Some (Gemini.mkContent
                         (Some [Gemini.mkPart (Some (Gemini.mkBlob (Some "AID/fw=="%string)))])))])).


(** * Properties of the PCM codec *)

(** ** Bytes *)

Lemma byte_to_Z_range (b : byte) : 0 <= byte_to_Z b < 256.
Proof.
  unfold byte_to_Z. pose proof (Byte.to_N_bounded b). lia.
Qed.

Lemma byte_to_of_Z (z : Z) : byte_to_Z (byte_of_Z z) = z mod 256.
Proof.
  unfold byte_to_Z, byte_of_Z.
  pose proof (Z.mod_pos_bound z 256 eq_refl) as Hr.
  destruct (Byte.of_N (Z.to_N (z mod 256))) as [b|] eqn:E.
  - apply Byte.to_of_N in E. rewrite E. lia.
  - apply Byte.of_N_None_iff in E. lia.
Qed.

Lemma byte_of_to_Z (b : byte) : byte_of_Z (byte_to_Z b) = b.
Proof.
  unfold byte_of_Z, byte_to_Z.
  pose proof (Byte.to_N_bounded b).
  rewrite Z.mod_small by lia.
  rewrite N2Z.id, Byte.of_to_N. reflexivity.
Qed.

(** ** Exact rounding

    The operations of [SpecFloat] are stated over the integers of the
    core library; [fold_Z] shows them as the operations of [ZArith]. *)

Ltac fold_Z :=
  change IntDef.Z.add with Z.add in *;
  change IntDef.Z.sub with Z.sub in *;
  change IntDef.Z.mul with Z.mul in *;
  change IntDef.Z.opp with Z.opp in *;
  change IntDef.Z.max with Z.max in *;
  change IntDef.Z.min with Z.min in *;
  change IntDef.Z.leb with Z.leb in *;
  change IntDef.Z.eqb with Z.eqb in *;
  change IntDef.Z.compare with Z.compare in *;
  change IntDef.Z.even with Z.even in *;
  change IntDef.Z.shiftl with Z.shiftl in *;
  change IntDef.Z.div_eucl with Z.div_eucl in *;
  change (@PosDef.Pos.iter) with (@Pos.iter) in *;
  change PosDef.Pos.mul with Pos.mul in *;
  change PosDef.Pos.succ with Pos.succ in *;
  change PosDef.Pos.compare_cont with Pos.compare_cont in *.

Lemma iter_pos_eq {A} (f : A -> A) (n : positive) (x : A) :
  SpecFloat.iter_pos f n x = Pos.iter f x n.
Proof.
  revert x. induction n as [n IH|n IH|]; intros x; simpl.
  - rewrite !IH. rewrite <- !Pos.iter_swap. reflexivity.
  - rewrite !IH. reflexivity.
  - reflexivity.
Qed.

Lemma shr_1_exact (k p : positive) :
  Pos.iter shr_1 (Build_shr_record (Zpos (Pos.iter xO p k)) false false) k
  = Build_shr_record (Zpos p) false false.
Proof.
  revert p. induction k as [|k IH] using Pos.peano_ind; intros p.
  - reflexivity.
  - rewrite !Pos.iter_succ.
    rewrite <- (Pos.iter_swap k positive xO p). rewrite IH. reflexivity.
Qed.

Lemma digits2_pos_iter (k p : positive) :
  digits2_pos (Pos.iter xO p k) = (digits2_pos p + k)%positive.
Proof.
  induction k as [|k IH] using Pos.peano_ind.
  - simpl. lia.
  - rewrite Pos.iter_succ. simpl. rewrite IH. lia.
Qed.

Lemma Zpos_iter_xO (k p : positive) :
  Zpos (Pos.iter xO p k) = Zpos p * 2 ^ Zpos k.
Proof.
  induction k as [|k IH] using Pos.peano_ind.
  - simpl. lia.
  - rewrite Pos.iter_succ, Pos2Z.inj_succ, Z.pow_succ_r by lia.
    rewrite Pos2Z.inj_xO, IH. lia.
Qed.

(** Rounding a value that is representable returns it. *)
Section Rounding.
Variables prec emax : Z.

(** A mantissa that already has its canonical exponent is kept. *)
Lemma binary_round_aux_canonical (s : bool) (m : positive) (e : Z) :
  fexp prec emax (Zpos (digits2_pos m) + e) = e ->
  e <= emax - prec ->
  binary_round_aux prec emax s (Zpos m) e loc_Exact = S754_finite s m e.
Proof.
  intros Hc He. unfold binary_round_aux, shr_fexp. simpl Zdigits2. fold_Z.
  rewrite Hc, Z.sub_diag.
  cbn [shr shr_record_of_loc round_nearest_even shr_m loc_of_shr_record Zdigits2].
  rewrite Hc, Z.sub_diag.
  cbn [shr shr_m].
  apply Z.leb_le in He. rewrite He. reflexivity.
Qed.

(** Dropping [k] zero bits is exact. *)
Lemma binary_round_aux_shift (s : bool) (p k : positive) (e : Z) :
  fexp prec emax (Zpos (digits2_pos p) + Zpos k + e) = e + Zpos k ->
  e + Zpos k <= emax - prec ->
  binary_round_aux prec emax s (Zpos (Pos.iter xO p k)) e loc_Exact
  = S754_finite s p (e + Zpos k).
Proof.
  intros Hc He. unfold binary_round_aux, shr_fexp. simpl Zdigits2. fold_Z.
  rewrite digits2_pos_iter, Pos2Z.inj_add, Hc.
  replace (e + Zpos k - e) with (Zpos k) by lia.
  simpl shr_record_of_loc. unfold shr at 1.
  rewrite iter_pos_eq, shr_1_exact.
  cbn [shr shr_record_of_loc round_nearest_even shr_m loc_of_shr_record Zdigits2].
  replace (Zpos (digits2_pos p) + (e + Zpos k)) with (Zpos (digits2_pos p) + Zpos k + e) by lia.
  rewrite Hc, Z.sub_diag.
  cbn [shr shr_m].
  apply Z.leb_le in He. rewrite He. reflexivity.
Qed.

(** Aligning to the canonical exponent appends zero bits. *)
Lemma binary_round_align (s : bool) (p k : positive) (e : Z) :
  fexp prec emax (Zpos (digits2_pos p) + e) = e - Zpos k ->
  e - Zpos k <= emax - prec ->
  binary_round prec emax s p e = S754_finite s (Pos.iter xO p k) (e - Zpos k).
Proof.
  intros Hc He. unfold binary_round, shl_align. fold_Z. rewrite Hc.
  replace (e - Zpos k - e) with (Zneg k) by lia.
  apply binary_round_aux_canonical; [|exact He].
  rewrite digits2_pos_iter, Pos2Z.inj_add.
  replace (Zpos (digits2_pos p) + Zpos k + (e - Zpos k)) with (Zpos (digits2_pos p) + e) by lia.
  exact Hc.
Qed.


(** Rounding a mantissa with [k] spare zero bits to a coarser exponent. *)
Lemma binary_round_shift (s : bool) (p k : positive) (e : Z) :
  fexp prec emax (Zpos (digits2_pos p) + Zpos k + e) = e + Zpos k ->
  e + Zpos k <= emax - prec ->
  binary_round prec emax s (Pos.iter xO p k) e = S754_finite s p (e + Zpos k).
Proof.
  intros Hc He. unfold binary_round, shl_align. fold_Z.
  rewrite digits2_pos_iter, Pos2Z.inj_add, Hc.
  replace (e + Zpos k - e) with (Zpos k) by lia.
  apply binary_round_aux_shift; assumption.
Qed.
End Rounding.

(** ** The operations of the codec on binary64 and binary32 values *)

Lemma digits2_pos_bounds (p : positive) :
  2 ^ (Zpos (digits2_pos p) - 1) <= Zpos p < 2 ^ Zpos (digits2_pos p).
Proof.
  induction p as [p IH|p IH|]; simpl digits2_pos.
  - rewrite Pos2Z.inj_succ, Z.pow_succ_r by lia.
    replace (Z.succ (Zpos (digits2_pos p)) - 1) with (Z.succ (Zpos (digits2_pos p) - 1)) by lia.
    rewrite Z.pow_succ_r by lia. lia.
  - rewrite Pos2Z.inj_succ, Z.pow_succ_r by lia.
    replace (Z.succ (Zpos (digits2_pos p)) - 1) with (Z.succ (Zpos (digits2_pos p) - 1)) by lia.
    rewrite Z.pow_succ_r by lia. lia.
  - simpl. lia.
Qed.

Lemma digits2_pos_le (p : positive) (n : Z) :
  0 <= n -> Zpos p < 2 ^ n -> Zpos (digits2_pos p) <= n.
Proof.
  intros Hn Hp. destruct (Z_le_gt_dec (Zpos (digits2_pos p)) n) as [H|H]; [exact H|].
  pose proof (digits2_pos_bounds p) as [Hlo _].
  assert (2 ^ n <= 2 ^ (Zpos (digits2_pos p) - 1)) by (apply Z.pow_le_mono_r; lia).
  lia.
Qed.

Lemma Pos_mul_iter_xO (a b : positive) (i j : positive) :
  (Pos.iter xO a i * Pos.iter xO b j)%positive = Pos.iter xO (a * b)%positive (i + j).
Proof.
  apply Pos2Z.inj. rewrite Pos2Z.inj_mul, !Zpos_iter_xO, Pos2Z.inj_mul.
  rewrite Pos2Z.inj_add, Z.pow_add_r by lia. ring.
Qed.

Lemma Pos_mul_pow2 (a : positive) (j : positive) :
  (a * Pos.iter xO 1 j)%positive = Pos.iter xO a j.
Proof.
  apply Pos2Z.inj. rewrite Pos2Z.inj_mul, !Zpos_iter_xO. ring.
Qed.

Lemma Number_of_Z_small (v : Z) (p : positive) (k : positive) :
  Z.abs v = Zpos p ->
  Zpos (digits2_pos p) + Zpos k = 53 ->
  Number.of_Z v = S754_finite (v <? 0) (Pos.iter xO p k) (- Zpos k).
Proof.
  intros Hv Hk. unfold Number.of_Z, binary_normalize.
  destruct v as [|q|q]; simpl in Hv; try discriminate; injection Hv as ->.
  - change (Zpos p <? 0) with false.
    rewrite (binary_round_align _ _ _ p k 0); [reflexivity| |].
    + unfold fexp, emin, Number.prec, Number.emax. fold_Z. lia.
    + unfold Number.prec, Number.emax. lia.
  - change (Zneg p <? 0) with true.
    rewrite (binary_round_align _ _ _ p k 0); [reflexivity| |].
    + unfold fexp, emin, Number.prec, Number.emax. fold_Z. lia.
    + unfold Number.prec, Number.emax. lia.
Qed.

Lemma Z_div_eucl_eq (a b : Z) : Z.div_eucl a b = (a / b, a mod b).
Proof. unfold Z.div, Z.modulo. destruct (Z.div_eucl a b). reflexivity. Qed.

Lemma Number_of_Z_32768 : Number.of_Z 32768 = S754_finite false 4503599627370496 (-37).
Proof. reflexivity. Qed.

Lemma Number_of_Z_32767 : Number.of_Z 32767 = S754_finite false (Pos.iter xO 32767%positive 38) (-38).
Proof. reflexivity. Qed.

Lemma Number_of_Z_1 : Number.of_Z 1 = S754_finite false 4503599627370496 (-52).
Proof. reflexivity. Qed.

Lemma Number_of_Z_m1 : Number.of_Z (-1) = S754_finite true 4503599627370496 (-52).
Proof. reflexivity. Qed.

(** Dividing a normal binary64 number by 32768 lowers its exponent by 15. *)
Lemma Number_div_32768 (s : bool) (M : positive) (e : Z) :
  Zpos (digits2_pos M) = 53 -> -1058 <= e <= 986 ->
  Number.div (S754_finite s M e) (Number.of_Z 32768) = S754_finite s M (e - 15).
Proof.
  intros HM He. rewrite Number_of_Z_32768.
  unfold Number.div, SFdiv.
  assert (Hcore : SFdiv_core_binary Number.prec Number.emax (Zpos M) e 4503599627370496 (-37)
                  = (Zpos (Pos.iter xO M 1), e - 16, loc_Exact)).
  { unfold SFdiv_core_binary. cbn [Zdigits2]. rewrite HM.
    change (Zpos (digits2_pos 4503599627370496)) with 53.
    unfold fexp, emin, Number.prec, Number.emax. fold_Z.
    replace (Z.min (Z.max (53 + e - (53 + -37) - 53) (3 - 1024 - 53)) (e - -37)) with (e - 16) by lia.
    replace (e - -37 - (e - 16)) with 53 by lia.
    rewrite Z_div_eucl_eq, Z.shiftl_mul_pow2 by lia.
    replace (Zpos M * 2 ^ 53) with (Zpos (Pos.iter xO M 1) * 4503599627370496)
      by (change (Pos.iter xO M 1) with (M~0)%positive; lia).
    rewrite Z.div_mul, Z.mod_mul by lia. reflexivity. }
  rewrite Hcore.
  rewrite binary_round_aux_shift.
  - rewrite xorb_false_r. f_equal. lia.
  - unfold fexp, emin, Number.prec, Number.emax. fold_Z. lia.
  - unfold Number.prec, Number.emax. lia.
Qed.

(** Multiplying a normal binary64 number by 32768 raises its exponent by 15. *)
Lemma Number_mul_32768 (s : bool) (M : positive) (e : Z) :
  Zpos (digits2_pos M) = 53 -> -1089 <= e <= 956 ->
  Number.mul (S754_finite s M e) (Number.of_Z 32768) = S754_finite s M (e + 15).
Proof.
  intros HM He. rewrite Number_of_Z_32768.
  unfold Number.mul, SFmul. fold_Z.
  change 4503599627370496%positive with (Pos.iter xO 1%positive 52).
  rewrite Pos_mul_pow2, binary_round_aux_shift.
  - rewrite xorb_false_r. f_equal. lia.
  - unfold fexp, emin, Number.prec, Number.emax. fold_Z. lia.
  - unfold Number.prec, Number.emax. lia.
Qed.

(** Multiplying by 32767 is exact when the product of the significant
    bits fits in 52 bits. *)
Lemma Number_mul_32767 (s : bool) (a i r j : positive) (e : Z) :
  Zpos (digits2_pos (a * 32767)%positive) + Zpos r = 53 ->
  (i + 38 = r + j)%positive ->
  -1074 <= e - 38 + Zpos j <= 971 ->
  Number.mul (S754_finite s (Pos.iter xO a i) e) (Number.of_Z 32767)
  = S754_finite s (Pos.iter xO (a * 32767)%positive r) (e - 38 + Zpos j).
Proof.
  intros HD Hij He. rewrite Number_of_Z_32767.
  unfold Number.mul, SFmul. fold_Z.
  rewrite Pos_mul_iter_xO, Hij, Pos.add_comm, Pos.iter_add.
  rewrite binary_round_aux_shift.
  - rewrite xorb_false_r. f_equal.
  - rewrite digits2_pos_iter, Pos2Z.inj_add.
    unfold fexp, emin, Number.prec, Number.emax. fold_Z. lia.
  - unfold Number.prec, Number.emax. lia.
Qed.

(** A normal binary32 number read as a binary64 number, and back. *)
Lemma Float32_to_Number_normal (s : bool) (q : positive) (e : Z) :
  Zpos (digits2_pos q) = 24 -> -149 <= e <= 104 ->
  Float32.to_Number (S754_finite s q e) = S754_finite s (Pos.iter xO q 29) (e - 29).
Proof.
  intros Hq He. unfold Float32.to_Number.
  apply binary_round_align.
  - unfold fexp, emin, Number.prec, Number.emax. fold_Z. lia.
  - unfold Number.prec, Number.emax. lia.
Qed.

Lemma Float32_fround_normal (s : bool) (q : positive) (e : Z) :
  Zpos (digits2_pos q) = 24 -> -149 <= e <= 104 ->
  Float32.fround (S754_finite s (Pos.iter xO q 29) (e - 29)) = S754_finite s q e.
Proof.
  intros Hq He. unfold Float32.fround.
  rewrite binary_round_shift.
  - f_equal. lia.
  - unfold fexp, emin, Float32.prec, Float32.emax. fold_Z. lia.
  - unfold Float32.prec, Float32.emax. lia.
Qed.

(** A number of magnitude at most one is left alone by the clamp. *)
Lemma Number_clamp_id (s : bool) (M : positive) (e : Z) :
  e <= -53 \/ (e = -52 /\ M = 4503599627370496%positive) ->
  Number.max (Number.of_Z (-1)) (Number.min (Number.of_Z 1) (S754_finite s M e))
  = S754_finite s M e.
Proof.
  intros He. rewrite Number_of_Z_1, Number_of_Z_m1.
  assert (Hmin : Number.min (S754_finite false 4503599627370496 (-52)) (S754_finite s M e)
                 = S754_finite s M e).
  { unfold Number.min, SFcompare. fold_Z. destruct s; [reflexivity|].
    destruct He as [He|[-> ->]].
    - destruct (Z.compare_spec (-52) e); try lia. reflexivity.
    - reflexivity. }
  rewrite Hmin.
  unfold Number.max, SFcompare. fold_Z. destruct s; [|reflexivity].
  destruct He as [He|[-> ->]].
  - destruct (Z.compare_spec (-52) e); try lia. reflexivity.
  - reflexivity.
Qed.

Lemma Number_ltb_zero (s : bool) (M : positive) (e : Z) :
  Number.ltb (S754_finite s M e) (Number.of_Z 0) = s.
Proof. destruct s; reflexivity. Qed.

(** ** Decoding one sample *)

Lemma normalize_nonzero (v : Z) (p k : positive) :
  Z.abs v = Zpos p ->
  Zpos (digits2_pos p) + Zpos k = 24 ->
  normalize v = S754_finite (v <? 0) (Pos.iter xO p k) (-15 - Zpos k).
Proof.
  intros Hv Hk. unfold normalize.
  rewrite (Number_of_Z_small v p (29 + k)) by (try exact Hv; lia).
  rewrite Pos.iter_add.
  assert (Hd : Zpos (digits2_pos (Pos.iter xO p k)) = 24)
    by (rewrite digits2_pos_iter; lia).
  rewrite Number_div_32768.
  - replace (- Zpos (29 + k) - 15) with (-15 - Zpos k - 29) by lia.
    apply Float32_fround_normal; [exact Hd | lia].
  - rewrite digits2_pos_iter. lia.
  - lia.
Qed.

Lemma int16_digits (v : Z) (p : positive) :
  -32768 <= v <= 32767 -> Z.abs v = Zpos p ->
  exists k : positive, Zpos (digits2_pos p) + Zpos k = 24 /\ 8 <= Zpos k.
Proof.
  intros Hv Hp.
  assert (Zpos (digits2_pos p) <= 16) by (apply digits2_pos_le; lia).
  exists (Z.to_pos (24 - Zpos (digits2_pos p))). lia.
Qed.

(** The rational a decoded sample denotes. *)
Lemma normalize_to_Q (v : Z) :
  -32768 <= v <= 32767 ->
  exists q, Number.to_Q (normalize v) = Some q /\ (q == v # 32768)%Q.
Proof.
  intros Hv. destruct (Z.eq_dec v 0) as [->|Hnz].
  - exists 0%Q. split; reflexivity.
  - destruct (Z.abs v) as [|p|p] eqn:Hp; try lia.
    destruct (int16_digits v p Hv Hp) as (k & Hk & _).
    rewrite (normalize_nonzero v p k Hp Hk).
    replace (-15 - Zpos k) with (Zneg (15 + k)) by lia.
    eexists. split; [reflexivity|].
    assert (Hpow : Zpos (2 ^ (15 + k)) = 32768 * 2 ^ Zpos k).
    { rewrite Pos2Z.inj_pow, Pos2Z.inj_add, Z.pow_add_r by lia. reflexivity. }
    pose proof (Zpos_iter_xO k p) as Hm.
    destruct (Z.ltb_spec v 0); unfold Qeq; cbn [Qnum Qden Qopp];
      rewrite Hpow, ?Hm; nia.
Qed.

(** A decoded sample is a binary32 value: the store into the
    [Float32Array] does not round. *)
Lemma normalize_valid (v : Z) :
  -32768 <= v <= 32767 -> Float32.valid (normalize v) = true.
Proof.
  intros Hv. destruct (Z.eq_dec v 0) as [->|Hnz]; [reflexivity|].
  destruct (Z.abs v) as [|p|p] eqn:Hp; try lia.
  destruct (int16_digits v p Hv Hp) as (k & Hk & _).
  rewrite (normalize_nonzero v p k Hp Hk).
  unfold Float32.valid, valid_binary, bounded, canonical_mantissa.
  rewrite digits2_pos_iter.
  unfold fexp, emin, Float32.prec, Float32.emax. fold_Z.
  apply andb_true_intro. split; [apply Z.eqb_eq | apply Z.leb_le]; lia.
Qed.

(** ** Encoding a decoded sample *)

Lemma Number_truncate_shift (s : bool) (a r : positive) (n : Z) :
  0 <= n ->
  Number.truncate (S754_finite s (Pos.iter xO a r) (- n - Zpos r))
  = if s then - (Zpos a / 2 ^ n) else Zpos a / 2 ^ n.
Proof.
  intros Hn. unfold Number.truncate.
  assert (E : Z.shiftr (Zpos (Pos.iter xO a r)) (n + Zpos r) = Zpos a / 2 ^ n).
  { rewrite Z.shiftr_div_pow2, Zpos_iter_xO, Z.pow_add_r by lia.
    rewrite Z.div_mul_cancel_r by lia. reflexivity. }
  destruct (- n - Zpos r) as [|z|z] eqn:Hz; try lia.
  replace (Zpos z) with (n + Zpos r) by lia.
  rewrite E. reflexivity.
Qed.

Lemma wrap_signed_small (w n : Z) :
  0 < w -> - 2 ^ (w - 1) <= n < 2 ^ (w - 1) -> wrap_signed w n = n.
Proof.
  intros Hw Hn. unfold wrap_signed.
  replace (2 ^ w) with (2 * 2 ^ (w - 1))
    by (rewrite <- Z.pow_succ_r by lia; f_equal; lia).
  rewrite Z.mod_small by lia. lia.
Qed.

Lemma scale_sample_normalize (v : Z) :
  -32768 <= v <= 32767 ->
  scale_sample (Float32.to_Number (normalize v)) = requantize v.
Proof.
  intros Hv. unfold requantize.
  destruct (Z.eq_dec v 0) as [->|Hnz]; [reflexivity|].
  destruct (Z.abs v) as [|p|p] eqn:Hp; try lia.
  destruct (int16_digits v p Hv Hp) as (k & Hk & Hk8).
  rewrite (normalize_nonzero v p k Hp Hk).
  assert (Hd : Zpos (digits2_pos (Pos.iter xO p k)) = 24)
    by (rewrite digits2_pos_iter; lia).
  rewrite Float32_to_Number_normal by (try exact Hd; lia).
  assert (Hd' : Zpos (digits2_pos (Pos.iter xO (Pos.iter xO p k) 29)) = 53)
    by (rewrite digits2_pos_iter; lia).
  unfold scale_sample.
  rewrite Number_clamp_id, Number_ltb_zero.
  - destruct (Z.ltb_spec v 0) as [Hneg|Hpos].
    + (* negative: times 32768 *)
      rewrite Number_mul_32768 by (try exact Hd'; lia).
      rewrite <- Pos.iter_add.
      replace (-15 - Zpos k - 29 + 15) with (- 0 - Zpos (29 + k)) by lia.
      unfold Number.ToInt32.
      rewrite Number_truncate_shift by lia.
      rewrite Z.pow_0_r, Z.div_1_r.
      destruct (Z.leb_spec v 0); try lia.
      rewrite wrap_signed_small; lia.
    + (* positive: times 32767 *)
      rewrite <- Pos.iter_add.
      assert (HP : Zpos (digits2_pos (p * 32767)) <= 30)
        by (apply digits2_pos_le; lia).
      set (r := Z.to_pos (53 - Zpos (digits2_pos (p * 32767)))).
      set (j := Z.to_pos (Zpos k + 67 - Zpos r)).
      rewrite (Number_mul_32767 false p (29 + k) r j) by (unfold j, r; lia).
      replace (-15 - Zpos k - 29 - 38 + Zpos j) with (Z.opp 15 - Zpos r) by (unfold j, r; lia).
      unfold Number.ToInt32.
      rewrite Number_truncate_shift by lia.
      destruct (Z.leb_spec v 0); try lia.
      rewrite Pos2Z.inj_mul.
      replace (Zpos p) with v by lia.
      change (2 ^ 15) with 32768.
      assert (Hq : (v * 32767) / 32768 = v - 1)
        by (symmetry; apply (Z.div_unique_pos _ _ _ (32768 - v)); lia).
      rewrite Hq.
      rewrite wrap_signed_small; [|lia|change (2 ^ (32 - 1)) with 2147483648]; lia.
  - (* the clamp leaves the sample alone *)
    destruct (Z.eq_dec (Zpos k) 8) as [Hk8'|Hk8']; [right|left; lia].
    split; [lia|].
    assert (Hp16 : Zpos (digits2_pos p) = 16) by lia.
    pose proof (digits2_pos_bounds p) as Hb. rewrite Hp16 in Hb.
    change (2 ^ (16 - 1)) with 32768 in Hb.
    assert (p = 32768%positive) by lia. subst p.
    assert (k = 8%positive) by lia. subst k. reflexivity.
Qed.

(** ** decodeRawPCM *)

Lemma wrap_signed_range (w n : Z) :
  0 < w -> - 2 ^ (w - 1) <= wrap_signed w n < 2 ^ (w - 1).
Proof.
  intros Hw. unfold wrap_signed.
  assert (E : 2 ^ w = 2 * 2 ^ (w - 1))
    by (rewrite <- Z.pow_succ_r by lia; f_equal; lia).
  pose proof (Z.mod_pos_bound (n + 2 ^ (w - 1)) (2 ^ w)) as Hb.
  assert (0 < 2 ^ (w - 1)) by (apply Z.pow_pos_nonneg; lia).
  lia.
Qed.

Lemma int16_le_range (lo hi : byte) : -32768 <= int16_le lo hi <= 32767.
Proof.
  unfold int16_le.
  pose proof (wrap_signed_range 16 (byte_to_Z lo + 256 * byte_to_Z hi) eq_refl) as H.
  change (2 ^ (16 - 1)) with 32768 in H. lia.
Qed.

(** Induction two elements at a time, as the [Int16Array] view reads. *)
Lemma list_pair_ind {A} (P : list A -> Prop) :
  P [] -> (forall a, P [a]) -> (forall a b l, P l -> P (a :: b :: l)) ->
  forall l, P l.
Proof.
  intros H0 H1 H2. fix IH 1.
  intros [|a [|b l]]; [exact H0 | apply H1 | apply H2, IH].
Qed.

Lemma int16_elements_range (bytes : list byte) :
  Forall (fun v => -32768 <= v <= 32767) (int16_elements bytes).
Proof.
  induction bytes as [|lo|lo hi rest IH] using list_pair_ind; simpl;
    constructor; [apply int16_le_range | exact IH].
Qed.

Lemma int16_elements_length (bytes : list byte) :
  length (int16_elements bytes) = Nat.div2 (length bytes).
Proof.
  induction bytes as [|lo|lo hi rest IH] using list_pair_ind; simpl;
    [reflexivity | reflexivity | f_equal; exact IH].
Qed.

(** The loop that fills an array element by element. *)
Lemma fill_loop_map {A B} (f : A -> B) (l : list A) (cd : list B) :
  length cd = length l ->
  foldl (fun (cd : list B) i =>
           match l !! i with
           | Some v => <[i := f v]> cd
           | None => cd
           end) cd (seq 0 (length l)) = map f l.
Proof.
  intros Hlen.
  assert (G : forall k, (k <= length l)%nat ->
    foldl (fun (cd : list B) i =>
             match l !! i with
             | Some v => <[i := f v]> cd
             | None => cd
             end) cd (seq 0 k) = map f (take k l) ++ drop k cd).
  { induction k as [|k IH]; intros Hk.
    - reflexivity.
    - rewrite seq_S, foldl_app, IH by lia. simpl.
      destruct (lookup_lt_is_Some_2 l k ltac:(lia)) as [v Hv].
      rewrite Hv, (take_S_r _ _ _ Hv), map_app. simpl.
      destruct (lookup_lt_is_Some_2 cd k ltac:(lia)) as [c Hc].
      rewrite (drop_S _ _ _ Hc).
      rewrite insert_app_r_alt by (rewrite length_map, length_take; lia).
      rewrite length_map, length_take.
      replace (k - k `min` length l)%nat with 0%nat by lia.
      simpl. rewrite <- app_assoc. reflexivity. }
  rewrite G by lia.
  rewrite firstn_all, drop_ge, app_nil_r by lia. reflexivity.
Qed.

Lemma decodeRawPCM_unfold (base64Data : string) (ctx : AudioContext.t) (sampleRate : Z) :
  decodeRawPCM base64Data ctx sampleRate =
  (bytes ← decodeBase64 base64Data;
   int16Data ← Int16Array bytes;
   _ ← AudioContext.createBuffer ctx 1 (length int16Data) sampleRate;
   mret (decoded int16Data sampleRate)).
Proof.
  unfold decodeRawPCM.
  destruct (decodeBase64 base64Data) as [bytes|e]; [|reflexivity].
  cbn [mbind result_bind].
  destruct (Int16Array bytes) as [int16Data|e]; [|reflexivity].
  cbn [mbind result_bind].
  unfold AudioContext.createBuffer.
  destruct (_ || _); [reflexivity|].
  cbn [mbind result_bind AudioBuffer.getChannelData AudioBuffer.channelData
       AudioBuffer.length AudioBuffer.sampleRate replicate lookup list_lookup].
  rewrite fill_loop_map by apply length_replicate.
  reflexivity.
Qed.

(** ** bufferToWave *)

Lemma setInt16_app (pre rest : list byte) (b0 b1 : byte) (w : Z) :
  DataView.setInt16 (pre ++ b0 :: b1 :: rest) (length pre) w
  = Ok (pre ++ le16 (wrap_signed 16 w) ++ rest).
Proof.
  unfold DataView.setInt16, DataView.setUint16.
  rewrite length_app. cbn [length].
  destruct (Nat.leb_spec (length pre + 2) (length pre + S (S (length rest)))); [|lia].
  rewrite (insert_app_r_alt pre _ (length pre)) by lia.
  rewrite Nat.sub_diag. cbn [insert list_insert].
  rewrite (insert_app_r_alt pre _ (length pre + 1)) by lia.
  replace (length pre + 1 - length pre)%nat with 1%nat by lia.
  reflexivity.
Qed.

Lemma write_sample_app (channels : list (list spec_float)) (pos i : nat)
    (channel : list spec_float) (pre rest : list byte) (b0 b1 : byte) :
  channels !! i = Some channel ->
  write_sample channels pos (pre ++ b0 :: b1 :: rest, length pre) i
  = Ok (pre ++ sample_bytes (element channel pos) ++ rest, (length pre + 2)%nat).
Proof.
  intros Hi. unfold write_sample, channel_sample, sample_bytes, element.
  rewrite Hi.
  destruct (channel !! pos); cbn [mbind result_bind];
    rewrite setInt16_app; reflexivity.
Qed.

Lemma inner_loop_bytes (channels : list (list spec_float)) (pos : nat)
    (todo done : list (list spec_float)) (pre rest : list byte) :
  channels = done ++ todo ->
  foldM (write_sample channels pos) (seq (length done) (length todo))
        (pre ++ replicate (length todo * 2) x00 ++ rest, length pre)
  = Ok (pre ++ frame_bytes todo pos ++ rest, (length pre + length todo * 2)%nat).
Proof.
  revert done pre. induction todo as [|channel todo IH]; intros done pre Hch.
  - simpl. rewrite Nat.add_0_r. reflexivity.
  - cbn [length seq foldM Nat.mul Nat.add replicate app].
    rewrite (write_sample_app _ _ _ channel)
      by (rewrite Hch; apply list_lookup_middle; reflexivity).
    cbn [mbind result_bind].
    specialize (IH (done ++ [channel]) (pre ++ sample_bytes (element channel pos))).
    rewrite !length_app in IH. cbn [length sample_bytes le16] in IH.
    rewrite Nat.add_1_r, <- !app_assoc in IH.
    rewrite IH by exact Hch.
    unfold frame_bytes. cbn [flat_map]. rewrite <- !app_assoc.
    do 2 f_equal. lia.
Qed.

Lemma frame_bytes_length (channels : list (list spec_float)) (pos : nat) :
  length (frame_bytes channels pos) = (length channels * 2)%nat.
Proof.
  unfold frame_bytes. induction channels as [|c cs IH]; [reflexivity|].
  cbn [flat_map length]. rewrite length_app, IH. reflexivity.
Qed.

Lemma outer_loop_bytes (channels : list (list spec_float)) (len start : nat)
    (pre rest : list byte) :
  foldM (fun st pos => foldM (write_sample channels pos) (seq 0 (length channels)) st)
        (seq start len)
        (pre ++ replicate (len * (length channels * 2)) x00 ++ rest, length pre)
  = Ok (pre ++ flat_map (frame_bytes channels) (seq start len) ++ rest,
        (length pre + len * (length channels * 2))%nat).
Proof.
  revert pre start. induction len as [|len IH]; intros pre start.
  - simpl. rewrite Nat.add_0_r. reflexivity.
  - cbn [seq foldM Nat.mul flat_map].
    rewrite replicate_add, <- app_assoc.
    pose proof (inner_loop_bytes channels start channels [] pre
                  (replicate (len * (length channels * 2)) x00 ++ rest) eq_refl) as Hin.
    cbn [length] in Hin. rewrite Hin. clear Hin.
    cbn [mbind result_bind].
    specialize (IH (pre ++ frame_bytes channels start) (S start)).
    rewrite <- !app_assoc in IH.
    rewrite length_app, frame_bytes_length in IH. rewrite IH.
    rewrite <- !app_assoc. do 2 f_equal. lia.
Qed.

Lemma interleave_bytes (channels : list (list spec_float)) (len : nat)
    (pre rest : list byte) :
  interleave channels (length channels) len
    (pre ++ replicate (len * (length channels * 2)) x00 ++ rest) (length pre)
  = Ok (pre ++ wav_data channels len ++ rest,
        (length pre + len * (length channels * 2))%nat).
Proof. apply outer_loop_bytes. Qed.

(** The whole output: the 44 header bytes, then the samples. *)
Lemma bufferToWave_bytes (abuffer : AudioBuffer.t) (len : nat) :
  bufferToWave abuffer len
  = Ok (wav_header (AudioBuffer.numberOfChannels abuffer) (AudioBuffer.sampleRate abuffer)
          (len * AudioBuffer.numberOfChannels abuffer * 2 + 44)
        ++ wav_data (AudioBuffer.channelData abuffer) len).
Proof.
  unfold bufferToWave.
  set (numOfChan := AudioBuffer.numberOfChannels abuffer).
  set (total := (len * numOfChan * 2 + 44)%nat).
  set (sampleRate := AudioBuffer.sampleRate abuffer).
  set (channels := AudioBuffer.channelData abuffer).
  replace (replicate total x00)
    with (replicate 44 x00 ++ replicate (len * (numOfChan * 2)) x00 ++ [])
    by (rewrite app_nil_r, <- replicate_add; f_equal; lia).
  clearbody total sampleRate.
  cbn -[byte_of_Z Z.of_nat Z.sub Z.mul Z.div interleave].
  lazymatch goal with
  | |- context [interleave ?c ?n ?l ?v ?o] =>
      change (interleave c n l v o)
        with (interleave channels (length channels) len
                (wav_header numOfChan sampleRate total
                 ++ replicate (len * (length channels * 2)) x00 ++ [])
                (length (wav_header numOfChan sampleRate total)))
  end.
  rewrite interleave_bytes. cbn [mbind result_bind mret result_ret].
  rewrite app_nil_r. reflexivity.
Qed.

Lemma wav_header_length (numOfChan : nat) (sampleRate : Z) (total : nat) :
  length (wav_header numOfChan sampleRate total) = 44%nat.
Proof. reflexivity. Qed.

Lemma wav_data_length (channels : list (list spec_float)) (len : nat) :
  length (wav_data channels len) = (len * (length channels * 2))%nat.
Proof.
  unfold wav_data.
  assert (G : forall l : list nat,
             length (flat_map (frame_bytes channels) l)
             = (length l * (length channels * 2))%nat).
  { induction l as [|pos l IH]; [reflexivity|].
    cbn [flat_map length]. rewrite length_app, frame_bytes_length, IH. reflexivity. }
  rewrite G, length_seq. reflexivity.
Qed.

(** ** Little-endian fields read back *)

Lemma int16_le_le16 (w : Z) :
  int16_le (byte_of_Z w) (byte_of_Z (w / 256)) = wrap_signed 16 w.
Proof.
  unfold int16_le, wrap_signed. rewrite !byte_to_of_Z.
  change (2 ^ 16) with 65536. change (2 ^ (16 - 1)) with 32768.
  f_equal.
  rewrite <- Z.add_mod_idemp_l by lia.
  rewrite <- (Z.add_mod_idemp_l w) by lia.
  f_equal. f_equal.
  change 65536 with (256 * 256).
  rewrite (Z.rem_mul_r w 256 256) by lia.
  pose proof (Z.mod_pos_bound w 256 eq_refl).
  pose proof (Z.mod_pos_bound (w / 256) 256 eq_refl).
  rewrite Z.mod_small by lia. reflexivity.
Qed.

Lemma le16_value (v : Z) :
  0 <= v < 65536 ->
  byte_to_Z (byte_of_Z v) + 256 * byte_to_Z (byte_of_Z (v / 256)) = v.
Proof.
  intros Hv. rewrite !byte_to_of_Z.
  assert (0 <= v / 256 < 256) by (split; [apply Z.div_pos | apply Z.div_lt_upper_bound]; lia).
  rewrite (Z.mod_small (v / 256)) by lia.
  pose proof (Z.div_mod v 256 ltac:(lia)). lia.
Qed.

Lemma le32_value (v : Z) :
  0 <= v < 4294967296 ->
  byte_to_Z (byte_of_Z v) + 256 * byte_to_Z (byte_of_Z (v / 256))
  + 65536 * byte_to_Z (byte_of_Z (v / 65536))
  + 16777216 * byte_to_Z (byte_of_Z (v / 16777216)) = v.
Proof.
  intros Hv. rewrite !byte_to_of_Z.
  change 65536 with (256 * 256). change 16777216 with (256 * 256 * 256).
  rewrite <- !Z.div_div by lia.
  set (a := v / 256). set (b := a / 256). set (c := b / 256).
  pose proof (Z.div_mod v 256 ltac:(lia)). fold a in H.
  pose proof (Z.div_mod a 256 ltac:(lia)). fold b in H0.
  pose proof (Z.div_mod b 256 ltac:(lia)). fold c in H1.
  assert (0 <= c < 256).
  { unfold c, b, a. rewrite !Z.div_div by lia.
    split; [apply Z.div_pos | apply Z.div_lt_upper_bound]; lia. }
  rewrite (Z.mod_small c) by lia. lia.
Qed.

(** Reading the data section back as 16-bit integers. *)
Lemma int16_elements_le16 {A} (f : A -> Z) (l : list A) :
  int16_elements (flat_map (fun a => le16 (wrap_signed 16 (f a))) l)
  = map (fun a => wrap_signed 16 (f a)) l.
Proof.
  induction l as [|a l IH]; [reflexivity|].
  cbn [flat_map le16 app int16_elements map].
  rewrite int16_le_le16, IH. f_equal.
  apply wrap_signed_small; [lia|]. apply wrap_signed_range. lia.
Qed.

Lemma flat_map_le16_length {A} (f : A -> Z) (l : list A) :
  length (flat_map (fun a => le16 (f a)) l) = (length l * 2)%nat.
Proof.
  induction l as [|a l IH]; [reflexivity|].
  cbn [flat_map le16 app length]. rewrite IH. reflexivity.
Qed.

(** The data section of a mono file, sample by sample. *)
Lemma wav_data_mono (channel : list spec_float) :
  wav_data [channel] (length channel)
  = flat_map (fun x => le16 (wrap_signed 16 (scale_sample (Float32.to_Number x)))) channel.
Proof.
  unfold wav_data, frame_bytes. cbn [flat_map].
  assert (G : forall pre l,
             flat_map (fun pos => sample_bytes (element (pre ++ l) pos) ++ [])
                      (seq (length pre) (length l))
             = flat_map (fun x => le16 (wrap_signed 16 (scale_sample (Float32.to_Number x)))) l).
  { intros pre l. revert pre. induction l as [|x l IH]; intros pre; [reflexivity|].
    cbn [length seq flat_map]. unfold element at 1.
    rewrite list_lookup_middle by reflexivity.
    rewrite app_nil_r. unfold sample_bytes at 1. f_equal.
    specialize (IH (pre ++ [x])). rewrite <- app_assoc, length_app in IH.
    cbn [length app] in IH. rewrite Nat.add_1_r in IH. exact IH. }
  exact (G [] channel).
Qed.

(** * The claims about the PCM codec *)

Lemma decodeRawPCM_Ok (base64Data : string) (ctx : AudioContext.t) (sampleRate : Z)
    (buffer : AudioBuffer.t) :
  decodeRawPCM base64Data ctx sampleRate = Ok buffer ->
  exists bytes,
    decodeBase64 base64Data = Ok bytes /\
    Nat.even (length bytes) = true /\
    AudioContext.createBuffer ctx 1 (length (int16_elements bytes)) sampleRate
    = Ok (AudioBuffer.mk (length (int16_elements bytes)) sampleRate
            [replicate (length (int16_elements bytes)) (S754_zero false)]) /\
    buffer = decoded (int16_elements bytes) sampleRate.
Proof.
  rewrite decodeRawPCM_unfold. intros H.
  destruct (decodeBase64 base64Data) as [bytes|e]; [|discriminate].
  exists bytes. split; [reflexivity|].
  cbn [mbind result_bind] in H. unfold Int16Array in H.
  destruct (Nat.even (length bytes)); [|discriminate].
  split; [reflexivity|].
  cbn [mbind result_bind] in H. unfold AudioContext.createBuffer in *.
  destruct (_ || _); [discriminate|].
  cbn [mbind result_bind] in H.
  split; [reflexivity|]. injection H as <-. reflexivity.
Qed.

(** C4: every 16-bit integer [v] of the payload is decoded to the
    binary32 sample of value [v / 32768], and the payload
    [00 80 FF 7F] (base64 [AID/fw==]) is decoded to the samples [-1.0]
    and [0.999969482421875]. *)
Theorem decode_sample_value :
  (forall base64Data ctx sampleRate buffer,
      decodeRawPCM base64Data ctx sampleRate = Ok buffer ->
      exists bytes channel,
        decodeBase64 base64Data = Ok bytes /\
        AudioBuffer.getChannelData buffer 0 = Some channel /\
        Forall2 (fun v x => -32768 <= v <= 32767 /\ Float32.valid x = true
                            /\ denotes x (v # 32768))
                (int16_elements bytes) channel) /\
  decodeBase64 "AID/fw==" = Ok [x00; x80; xff; x7f] /\
  int16_elements [x00; x80; xff; x7f] = [-32768; 32767] /\
  (exists x y,
      decodeRawPCM "AID/fw==" AudioContext.standard 24000
      = Ok (AudioBuffer.mk 2 24000 [[x; y]]) /\
      denotes x (-1) /\ denotes y (999969482421875 # 1000000000000000)).
Proof.
  split; [|split; [reflexivity|split; [reflexivity|]]].
  - intros base64Data ctx sampleRate buffer H.
    destruct (decodeRawPCM_Ok _ _ _ _ H) as (bytes & Hb & _ & _ & ->).
    exists bytes, (map normalize (int16_elements bytes)).
    split; [exact Hb|]. split; [reflexivity|].
    pose proof (int16_elements_range bytes) as Hr. clear H Hb.
    induction Hr as [|v l Hv Hl IH]; cbn [map]; constructor; [|exact IH].
    split; [exact Hv|]. split; [apply normalize_valid, Hv|].
    apply normalize_to_Q, Hv.
  - eexists _, _. split; [reflexivity|].
    split; eexists; (split; [reflexivity|reflexivity]).
Qed.

Lemma decode_sample_value_witness :
  exists bytes channel,
    decodeBase64 "AQACAA==" = Ok bytes /\
    AudioBuffer.getChannelData (decoded [1; 2] 24000) 0 = Some channel /\
    Forall2 (fun v x => -32768 <= v <= 32767 /\ Float32.valid x = true
                        /\ denotes x (v # 32768))
            (int16_elements bytes) channel.
Proof.
  apply (proj1 decode_sample_value "AQACAA=="%string AudioContext.standard 24000).
  reflexivity.
Defined.

(** C2 as stated fails: an odd-length payload makes the decoder throw
    the RangeError of the [Int16Array] constructor, not
    [MalformedAudioData]. *)
Lemma decode_odd_not_MalformedAudioData :
  ~ (forall base64Data ctx sampleRate bytes,
        decodeBase64 base64Data = Ok bytes ->
        Nat.odd (length bytes) = true ->
        decodeRawPCM base64Data ctx sampleRate = Throw MalformedAudioData).
Proof.
  intros H.
  specialize (H "AA=="%string AudioContext.standard 24000 [x00] eq_refl eq_refl).
  discriminate H.
Qed.

(** C2, amended: for every input whose decoded byte length is odd,
    [decodeRawPCM] returns no buffer: it throws RangeError. *)
Theorem decode_odd_RangeError (base64Data : string) (ctx : AudioContext.t)
    (sampleRate : Z) (bytes : list byte) :
  decodeBase64 base64Data = Ok bytes ->
  Nat.odd (length bytes) = true ->
  decodeRawPCM base64Data ctx sampleRate = Throw RangeError.
Proof.
  intros Hb Hodd. unfold decodeRawPCM. rewrite Hb.
  cbn [mbind result_bind]. unfold Int16Array.
  rewrite <- Nat.negb_odd, Hodd. reflexivity.
Qed.

Lemma decode_odd_RangeError_witness :
  decodeBase64 "AA==" = Ok [x00] /\
  decodeRawPCM "AA==" AudioContext.standard 24000 = Throw RangeError.
Proof.
  split; [reflexivity|].
  apply (decode_odd_RangeError "AA=="%string AudioContext.standard 24000 [x00]);
    reflexivity.
Defined.

(** C3 as stated fails: for the empty payload the decoder returns no
    buffer at all. *)
Lemma decode_empty_no_buffer :
  ~ (exists buffer,
        decodeRawPCM "" AudioContext.standard 24000 = Ok buffer /\
        AudioBuffer.length buffer = 0%nat /\
        (AudioBuffer.duration buffer == 0)%Q).
Proof.
  intros (buffer & H & _). discriminate H.
Qed.

(** C3, amended: for an empty payload [decodeRawPCM] asks
    [createBuffer] for zero frames, which every context refuses with
    NotSupportedError. *)
Theorem decode_empty_NotSupportedError (base64Data : string) (ctx : AudioContext.t)
    (sampleRate : Z) :
  decodeBase64 base64Data = Ok [] ->
  decodeRawPCM base64Data ctx sampleRate = Throw NotSupportedError.
Proof.
  intros Hb. unfold decodeRawPCM. rewrite Hb.
  cbn [mbind result_bind Int16Array length Nat.even int16_elements].
  unfold AudioContext.createBuffer. cbn [length Nat.eqb].
  rewrite orb_true_r. reflexivity.
Qed.

Lemma decode_empty_NotSupportedError_witness :
  decodeRawPCM "" AudioContext.standard 24000 = Throw NotSupportedError.
Proof.
  apply (decode_empty_NotSupportedError ""%string AudioContext.standard 24000).
  reflexivity.
Defined.

Lemma requantize_range (v : Z) :
  -32768 <= v <= 32767 -> -32768 <= requantize v <= 32767.
Proof. unfold requantize. destruct (Z.leb_spec v 0); lia. Qed.

Lemma close_requantize (v : Z) :
  -32768 <= v <= 32767 -> close (normalize v) (normalize (requantize v)).
Proof.
  intros Hv.
  destruct (normalize_to_Q v Hv) as (q & Hq & Eq).
  destruct (normalize_to_Q (requantize v) (requantize_range v Hv)) as (r & Hr & Er).
  exists q, r. split; [exact Hq|]. split; [exact Hr|].
  rewrite Eq, Er. apply Qabs_Qle_condition.
  unfold requantize. destruct (Z.leb_spec v 0);
    unfold Qle, Qminus, Qplus, Qopp; cbn [Qnum Qden]; lia.
Qed.

Lemma flat_map_map {A B C} (f : A -> B) (g : B -> list C) (l : list A) :
  flat_map g (map f l) = flat_map (fun a => g (f a)) l.
Proof.
  induction l as [|a l IH]; [reflexivity|]. cbn [map flat_map]. rewrite IH. reflexivity.
Qed.

(** The data section the encoder writes for a decoded buffer holds the
    requantized integers. *)
Lemma wav_data_decoded (int16Data : list Z) :
  Forall (fun v => -32768 <= v <= 32767) int16Data ->
  wav_data [map normalize int16Data] (length int16Data)
  = flat_map (fun v => le16 (wrap_signed 16 (requantize v))) int16Data.
Proof.
  intros Hr. rewrite <- (length_map normalize int16Data), wav_data_mono, flat_map_map.
  induction Hr as [|v l Hv Hl IH]; [reflexivity|].
  cbn [flat_map]. rewrite IH, scale_sample_normalize by exact Hv. reflexivity.
Qed.

(** C1: decoding a payload, encoding the buffer and decoding the data
    section of the file again gives, sample by sample, a value within
    [1/32768] of the first decoding; the bound is on each sample by
    itself, with nothing carried from one sample to the next. *)
Theorem decode_encode_decode (base64Data : string) (ctx : AudioContext.t)
    (sampleRate : Z) (buffer : AudioBuffer.t) :
  decodeRawPCM base64Data ctx sampleRate = Ok buffer ->
  exists wav,
    bufferToWave buffer (AudioBuffer.length buffer) = Ok wav /\
    forall base64Data',
      decodeBase64 base64Data' = Ok (drop 44 wav) ->
      exists buffer' channel channel',
        decodeRawPCM base64Data' ctx sampleRate = Ok buffer' /\
        AudioBuffer.getChannelData buffer 0 = Some channel /\
        AudioBuffer.getChannelData buffer' 0 = Some channel' /\
        Forall2 close channel channel'.
Proof.
  intros H.
  destruct (decodeRawPCM_Ok _ _ _ _ H) as (bytes & Hb & Heven & Hcreate & ->).
  pose proof (int16_elements_range bytes) as Hr.
  set (int16Data := int16_elements bytes) in *. clearbody int16Data.
  eexists. split; [apply bufferToWave_bytes|].
  intros base64Data' Hb'.
  rewrite drop_app_length' in Hb' by reflexivity.
  cbn [decoded AudioBuffer.length AudioBuffer.channelData] in Hb'.
  rewrite wav_data_decoded in Hb' by exact Hr.
  exists (decoded (map requantize int16Data) sampleRate),
         (map normalize int16Data), (map normalize (map requantize int16Data)).
  split; [|split; [reflexivity|split; [reflexivity|]]].
  - rewrite decodeRawPCM_unfold, Hb'. cbn [mbind result_bind]. unfold Int16Array.
    rewrite flat_map_le16_length, Nat.even_mul, orb_true_r.
    cbn [mbind result_bind]. rewrite int16_elements_le16.
    assert (E : map (fun a => wrap_signed 16 (requantize a)) int16Data
                = map requantize int16Data).
    { clear -Hr. induction Hr as [|v l Hv Hl IH]; [reflexivity|].
      cbn [map]. rewrite IH. f_equal.
      apply wrap_signed_small; [lia|].
      pose proof (requantize_range v Hv). change (2 ^ (16 - 1)) with 32768. lia. }
    rewrite E, length_map, Hcreate. reflexivity.
  - clear -Hr. induction Hr as [|v l Hv Hl IH]; cbn [map]; constructor;
      [apply close_requantize, Hv | exact IH].
Qed.

Lemma decode_encode_decode_witness :
  exists wav,
    bufferToWave (decoded [-32768; 32767] 24000) 2 = Ok wav /\
    forall base64Data',
      decodeBase64 base64Data' = Ok (drop 44 wav) ->
      exists buffer' channel channel',
        decodeRawPCM base64Data' AudioContext.standard 24000 = Ok buffer' /\
        AudioBuffer.getChannelData (decoded [-32768; 32767] 24000) 0 = Some channel /\
        AudioBuffer.getChannelData buffer' 0 = Some channel' /\
        Forall2 close channel channel'.
Proof.
  apply (decode_encode_decode "AID/fw=="%string AudioContext.standard 24000).
  reflexivity.
Defined.

(** The second decoding of that payload, computed: [32767] comes back
    as [32766], one step below. *)
Example decode_encode_decode_vector :
  bufferToWave (decoded [-32768; 32767] 24000) 2
  = Ok (wav_header 1 24000 48 ++ [x00; x80; xfe; x7f]) /\
  decodeBase64 "AID+fw==" = Ok [x00; x80; xfe; x7f] /\
  decodeRawPCM "AID+fw==" AudioContext.standard 24000 = Ok (decoded [-32768; 32766] 24000).
Proof. repeat split; reflexivity. Qed.

(** C5: the file written for a mono buffer has [44 + sampleCount * 2]
    bytes, and its header declares byte rate [sampleRate * 2], block
    align [2], data chunk size [sampleCount * 2] and total size
    [dataChunkSize + 36].  The sizes are taken to fit the 32-bit header
    fields that hold them. *)
Theorem wave_header_fields (abuffer : AudioBuffer.t) :
  AudioBuffer.numberOfChannels abuffer = 1%nat ->
  0 <= AudioBuffer.sampleRate abuffer * 2 < 2 ^ 32 ->
  Z.of_nat (AudioBuffer.length abuffer) * 2 + 36 < 2 ^ 32 ->
  exists wav,
    bufferToWave abuffer (AudioBuffer.length abuffer) = Ok wav /\
    length wav = (44 + AudioBuffer.length abuffer * 2)%nat /\
    DataView.getUint32 wav 28 = Some (AudioBuffer.sampleRate abuffer * 2) /\
    DataView.getUint16 wav 32 = Some 2 /\
    DataView.getUint32 wav 40 = Some (Z.of_nat (AudioBuffer.length abuffer) * 2) /\
    DataView.getUint32 wav 4 = Some (Z.of_nat (AudioBuffer.length abuffer) * 2 + 36).
Proof.
  intros Hmono Hrate Hsize. change (2 ^ 32) with 4294967296 in *.
  eexists. split; [apply bufferToWave_bytes|].
  rewrite Hmono.
  split.
  { rewrite length_app, wav_header_length, wav_data_length.
    fold (AudioBuffer.numberOfChannels abuffer). rewrite Hmono. lia. }
  set (data := wav_data _ _). clearbody data.
  set (sampleRate := AudioBuffer.sampleRate abuffer) in *. clearbody sampleRate.
  set (len := AudioBuffer.length abuffer) in *. clearbody len.
  unfold DataView.getUint32, DataView.getUint16.
  cbn -[byte_of_Z byte_to_Z Z.of_nat Z.mul Z.div Z.sub Z.add].
  repeat split; f_equal.
  - replace (sampleRate * 2 * Z.of_nat 1) with (sampleRate * 2) by lia.
    apply le32_value. lia.
  - replace (Z.of_nat (len * 1 * 2 + 44) - 0 - 44) with (Z.of_nat len * 2) by lia.
    apply le32_value. lia.
  - replace (Z.of_nat (len * 1 * 2 + 44) - 8) with (Z.of_nat len * 2 + 36) by lia.
    apply le32_value. lia.
Qed.

Lemma wave_header_fields_witness :
  exists wav,
    bufferToWave (decoded [-32768; 32767] 24000) 2 = Ok wav /\
    length wav = 48%nat /\
    DataView.getUint32 wav 28 = Some 48000 /\
    DataView.getUint16 wav 32 = Some 2 /\
    DataView.getUint32 wav 40 = Some 4 /\
    DataView.getUint32 wav 4 = Some 40.
Proof.
  apply (wave_header_fields (decoded [-32768; 32767] 24000)).
  - reflexivity.
  - cbn. lia.
  - cbn. lia.
Defined.

(** ** Samples outside the range of the decoder *)

Lemma scale_sample_above (x : Number.t) :
  Number.ltb (Number.of_Z 1) x = true -> scale_sample x = 32767.
Proof.
  unfold Number.ltb, SFltb. intros H.
  destruct (SFcompare (Number.of_Z 1) x) as [[]|] eqn:E; try discriminate.
  unfold scale_sample, Number.min. rewrite E. reflexivity.
Qed.

Lemma scale_sample_below (x : Number.t) :
  Number.ltb x (Number.of_Z (-1)) = true -> scale_sample x = -32768.
Proof.
  unfold Number.ltb, SFltb. rewrite Number_of_Z_m1. intros H.
  assert (Hmin : Number.min (Number.of_Z 1) x = x
                 /\ SFcompare (Number.of_Z (-1)) x = Some Gt).
  { rewrite Number_of_Z_1, Number_of_Z_m1. unfold Number.min.
    destruct x as [s|s| |s m e]; try destruct s; try discriminate;
      try (split; reflexivity).
    split; [reflexivity|].
    unfold SFcompare in *. fold_Z.
    rewrite (Z.compare_antisym e (-52)).
    destruct (e ?= -52); cbn [CompOpp] in *; try discriminate; try reflexivity.
    rewrite (Pos.compare_cont_antisym _ _ Eq). cbn [CompOpp].
    destruct (Pos.compare_cont Eq m 4503599627370496); cbn [CompOpp] in *;
      try discriminate; reflexivity. }
  destruct Hmin as [Hmin Hmax].
  unfold scale_sample. rewrite Hmin. unfold Number.max. rewrite Hmax. reflexivity.
Qed.

(** The integer part of a number with a negative exponent. *)
Lemma Number_truncate_neg (s : bool) (M : positive) (n : positive) :
  Number.truncate (S754_finite s M (Zneg n))
  = if s then - (Zpos M / 2 ^ Zpos n) else Zpos M / 2 ^ Zpos n.
Proof.
  unfold Number.truncate. rewrite Z.shiftr_div_pow2 by lia. reflexivity.
Qed.

(** A binary32 value read as a number: finite values are aligned to 53
    bits. *)
Lemma Float32_to_Number_finite (s : bool) (m : positive) (e : Z) :
  Float32.valid (S754_finite s m e) = true ->
  exists k : positive,
    Zpos (digits2_pos m) + Zpos k = 53 /\
    29 <= Zpos k /\
    -149 <= e <= 104 /\
    Float32.to_Number (S754_finite s m e) = S754_finite s (Pos.iter xO m k) (e - Zpos k).
Proof.
  unfold Float32.valid, valid_binary, bounded, canonical_mantissa.
  unfold fexp, emin, Float32.prec, Float32.emax. fold_Z.
  intros H. apply andb_true_iff in H as [Hc He].
  apply Z.eqb_eq in Hc. apply Z.leb_le in He.
  pose proof (Pos2Z.is_pos (digits2_pos m)).
  exists (Z.to_pos (53 - Zpos (digits2_pos m))).
  split; [lia|]. split; [lia|]. split; [lia|].
  unfold Float32.to_Number. apply binary_round_align.
  - unfold fexp, emin, Number.prec, Number.emax. fold_Z. lia.
  - unfold Number.prec, Number.emax. lia.
Qed.

(** The sample of a [Float32Array] element never needs the wrap of
    [setInt16]: after the clamp and the scaling it is a 16-bit integer. *)
Lemma scale_sample_range (x : spec_float) :
  Float32.valid x = true ->
  -32768 <= scale_sample (Float32.to_Number x) <= 32767.
Proof.
  intros Hx. destruct x as [s|s| |s m e].
  - destruct s; cbv; split; discriminate.
  - destruct s; cbv; split; discriminate.
  - cbv; split; discriminate.
  - destruct (Float32_to_Number_finite s m e Hx) as (k & Hk & Hk29 & He & ->).
    remember (Pos.iter xO m k) as M eqn:HMdef.
    remember (e - Zpos k) as E eqn:HEdef.
    assert (HM : Zpos (digits2_pos M) = 53) by (subst M; rewrite digits2_pos_iter; lia).
    pose proof (digits2_pos_bounds M) as HMb. rewrite HM in HMb.
    change (2 ^ (53 - 1)) with 4503599627370496 in HMb.
    change (2 ^ 53) with 9007199254740992 in HMb.
    destruct (Z_le_gt_dec E (-53)) as [Hsmall|Hbig];
      [|destruct (Z.eq_dec E (-52)) as [E52|E52];
        [destruct (Pos.eq_dec M 4503599627370496%positive) as [M52|M52]|]].
    + (* magnitude below one *)
      unfold scale_sample.
      rewrite Number_clamp_id by (left; exact Hsmall).
      rewrite Number_ltb_zero. destruct s.
      * rewrite Number_mul_32768 by (try exact HM; lia).
        unfold Number.ToInt32.
        destruct (E + 15) as [|z|z] eqn:Ez; try lia.
        rewrite Number_truncate_neg.
        assert (0 <= Zpos M / 2 ^ Zpos z < 32768).
        { split; [apply Z.div_pos; lia|].
          apply Z.div_lt_upper_bound; [lia|].
          assert (2 ^ 38 <= 2 ^ Zpos z) by (apply Z.pow_le_mono_r; lia).
          change (2 ^ 38) with 274877906944 in *. lia. }
        rewrite wrap_signed_small; [|lia|change (2 ^ (32 - 1)) with 2147483648]; lia.
      * assert (HP : Zpos (digits2_pos (m * 32767)%positive) <= Zpos (digits2_pos m) + 15).
        { apply digits2_pos_le; [lia|].
          pose proof (digits2_pos_bounds m) as [_ Hm].
          rewrite Z.pow_add_r by lia. change (2 ^ 15) with 32768. lia. }
        assert (HP15 : 15 <= Zpos (digits2_pos (m * 32767)%positive)).
        { pose proof (digits2_pos_bounds (m * 32767)%positive) as [_ Hp].
          destruct (Z_le_gt_dec 15 (Zpos (digits2_pos (m * 32767)%positive))) as [?|Hlt]; [lia|].
          assert (2 ^ Zpos (digits2_pos (m * 32767)%positive) <= 2 ^ 14)
            by (apply Z.pow_le_mono_r; lia).
          change (2 ^ 14) with 16384 in *. lia. }
        set (D := Zpos (digits2_pos (m * 32767)%positive)) in *.
        set (r := Z.to_pos (53 - D)).
        set (j := Z.to_pos (Zpos k + 38 - Zpos r)).
        rewrite HMdef.
        rewrite (Number_mul_32767 false m k r j) by (unfold j, r in *; lia).
        unfold Number.ToInt32.
        assert (Hexp : E - 38 + Zpos j = Zneg (Z.to_pos (- e) + r)).
        { unfold j, r in *. lia. }
        rewrite Hexp, Number_truncate_neg.
        rewrite Zpos_iter_xO, Pos2Z.inj_add, Z.pow_add_r by lia.
        rewrite Z.div_mul_cancel_r by lia.
        assert (Hm : Zpos m < 2 ^ Zpos (Z.to_pos (- e))).
        { pose proof (digits2_pos_bounds m) as [_ Hm].
          eapply Z.lt_le_trans; [exact Hm|].
          apply Z.pow_le_mono_r; lia. }
        assert (0 <= Zpos (m * 32767)%positive / 2 ^ Zpos (Z.to_pos (- e)) <= 32767).
        { split; [apply Z.div_pos; lia|].
          apply Z.lt_succ_r, Z.div_lt_upper_bound; [lia|].
          rewrite Pos2Z.inj_mul. nia. }
        rewrite wrap_signed_small; [|lia|change (2 ^ (32 - 1)) with 2147483648]; lia.
    + (* magnitude one *)
      rewrite E52, M52. destruct s; cbv; split; discriminate.
    + (* magnitude above one, exponent -52 *)
      assert (HltM : (4503599627370496 < M)%positive) by lia.
      destruct s.
      * rewrite scale_sample_below; [lia|].
        unfold Number.ltb, SFltb. rewrite Number_of_Z_m1, E52.
        unfold SFcompare. fold_Z. rewrite Z.compare_refl.
        rewrite Pos.compare_cont_spec.
        rewrite (proj2 (Pos.compare_gt_iff _ _)) by exact HltM. reflexivity.
      * rewrite scale_sample_above; [lia|].
        unfold Number.ltb, SFltb. rewrite Number_of_Z_1, E52.
        unfold SFcompare. fold_Z. rewrite Z.compare_refl.
        rewrite Pos.compare_cont_spec.
        rewrite (proj2 (Pos.compare_lt_iff _ _)) by exact HltM. reflexivity.
    + (* magnitude above one, larger exponent *)
      assert (Hgt : -52 < E) by lia.
      destruct s.
      * rewrite scale_sample_below; [lia|].
        unfold Number.ltb, SFltb. rewrite Number_of_Z_m1.
        unfold SFcompare. fold_Z.
        rewrite (proj2 (Z.compare_gt_iff _ _)) by exact Hgt. reflexivity.
      * rewrite scale_sample_above; [lia|].
        unfold Number.ltb, SFltb. rewrite Number_of_Z_1.
        unfold SFcompare. fold_Z.
        rewrite (proj2 (Z.compare_lt_iff _ _)) by exact Hgt. reflexivity.
Qed.

(** C10: [bufferToWave] returns a file for every buffer and length,
    whatever the samples are.  The integer stored for a sample is always
    within [-32768, 32767]; for an element of a [Float32Array] (any
    binary32 value, NaN and the infinities included) it is the clamped
    and scaled sample itself, which the 16-bit store does not wrap.  It
    is [32767] for a sample above [1], [-32768] for a sample below [-1],
    and [0] for NaN. *)
Theorem encode_total_bounded :
  (forall abuffer len,
      bufferToWave abuffer len
      = Ok (wav_header (AudioBuffer.numberOfChannels abuffer)
              (AudioBuffer.sampleRate abuffer)
              (len * AudioBuffer.numberOfChannels abuffer * 2 + 44)
            ++ wav_data (AudioBuffer.channelData abuffer) len)) /\
  (forall x : Number.t,
      exists lo hi,
        sample_bytes x = [lo; hi] /\
        int16_le lo hi = wrap_signed 16 (scale_sample x) /\
        -32768 <= int16_le lo hi <= 32767) /\
  (forall x : spec_float,
      Float32.valid x = true ->
      -32768 <= scale_sample (Float32.to_Number x) <= 32767 /\
      wrap_signed 16 (scale_sample (Float32.to_Number x))
      = scale_sample (Float32.to_Number x)) /\
  (forall x : Number.t, Number.ltb (Number.of_Z 1) x = true -> scale_sample x = 32767) /\
  (forall x : Number.t, Number.ltb x (Number.of_Z (-1)) = true -> scale_sample x = -32768) /\
  scale_sample Number.NaN = 0 /\
  sample_bytes Number.NaN = [x00; x00].
Proof.
  split; [exact bufferToWave_bytes|].
  split.
  { intros x. eexists _, _. split; [reflexivity|].
    rewrite int16_le_le16.
    split; [apply wrap_signed_small; [lia|apply wrap_signed_range; lia]|].
    rewrite wrap_signed_small by (try apply wrap_signed_range; lia).
    pose proof (wrap_signed_range 16 (scale_sample x) eq_refl) as H.
    change (2 ^ (16 - 1)) with 32768 in H. lia. }
  split.
  { intros x Hx. pose proof (scale_sample_range x Hx) as H.
    split; [exact H|].
    apply wrap_signed_small; [lia|]. change (2 ^ (16 - 1)) with 32768. lia. }
  split; [exact scale_sample_above|].
  split; [exact scale_sample_below|].
  split; reflexivity.
Qed.

Lemma encode_total_bounded_witness :
  scale_sample (Number.of_Z 7) = 32767 /\
  scale_sample (S754_infinity true) = -32768 /\
  -32768 <= scale_sample (Float32.to_Number (normalize 12345)) <= 32767.
Proof.
  split; [|split].
  - apply (proj1 (proj2 (proj2 (proj2 encode_total_bounded))) (Number.of_Z 7)).
    reflexivity.
  - apply (proj1 (proj2 (proj2 (proj2 (proj2 encode_total_bounded))))
             (S754_infinity true)).
    reflexivity.
  - apply (proj1 (proj2 (proj2 encode_total_bounded)) (normalize 12345)).
    reflexivity.
Defined.

(** * Further properties of the PCM codec *)

Lemma createBuffer_Ok_iff (ctx : AudioContext.t) (n : nat) (sampleRate : Z) :
  (exists b, AudioContext.createBuffer ctx 1 n sampleRate = Ok b) <->
  ((1 <= n)%nat /\ (1 <= AudioContext.maxChannels ctx)%nat /\
   AudioContext.minSampleRate ctx <= sampleRate <= AudioContext.maxSampleRate ctx).
Proof.
  unfold AudioContext.createBuffer.
  destruct (Nat.ltb_spec (AudioContext.maxChannels ctx) 1);
  destruct (Nat.eqb_spec n 0);
  destruct (Z.ltb_spec sampleRate (AudioContext.minSampleRate ctx));
  destruct (Z.ltb_spec (AudioContext.maxSampleRate ctx) sampleRate);
  cbn; split; try (intros [b Hb]; discriminate); try (intros; lia);
  try (intros _; eexists; reflexivity).
Qed.

Lemma int16_elements_length_even (bytes : list byte) :
  Nat.even (length bytes) = true ->
  (length (int16_elements bytes) * 2 = length bytes)%nat.
Proof.
  induction bytes as [| a | a b l IH] using list_pair_ind; cbn [int16_elements length].
  - reflexivity.
  - discriminate.
  - intros H. change (Nat.even (S (S (length l)))) with (Nat.even (length l)) in H.
    specialize (IH H). lia.
Qed.



(** X2: for a payload that is valid base64, [decodeRawPCM] returns a
    buffer exactly when the payload decodes to an even number of bytes,
    at least two, and the context supports one channel at the sample
    rate; in every other case it throws. *)
Theorem decode_succeeds_iff (base64Data : string) (ctx : AudioContext.t)
    (sampleRate : Z) (bytes : list byte) :
  decodeBase64 base64Data = Ok bytes ->
  ((exists buffer, decodeRawPCM base64Data ctx sampleRate = Ok buffer) <->
   (Nat.even (length bytes) = true /\ (2 <= length bytes)%nat /\
    (1 <= AudioContext.maxChannels ctx)%nat /\
    AudioContext.minSampleRate ctx <= sampleRate <= AudioContext.maxSampleRate ctx)).
Proof.
  intros Hb. rewrite decodeRawPCM_unfold, Hb. cbn [mbind result_bind].
  unfold Int16Array.
  destruct (Nat.even (length bytes)) eqn:Heven; cbn [mbind result_bind].
  - pose proof (int16_elements_length_even bytes Heven) as Hlen.
    pose proof (createBuffer_Ok_iff ctx (length (int16_elements bytes)) sampleRate) as Hc.
    split.
    + intros [buffer H].
      destruct (AudioContext.createBuffer ctx 1 (length (int16_elements bytes)) sampleRate)
        as [b|e] eqn:E; [|discriminate].
      destruct (proj1 Hc (ex_intro _ b eq_refl)) as (? & ? & ?).
      repeat split; try assumption; lia.
    + intros (_ & H2 & Hch & Hr).
      destruct (proj2 Hc) as [b ->]; [repeat split; try assumption; lia|].
      eexists. reflexivity.
  - split; [intros [b H]; discriminate | intros (H & _); discriminate].
Qed.

Lemma decode_succeeds_iff_witness :
  (exists buffer, decodeRawPCM "AID/fw==" AudioContext.standard 24000 = Ok buffer) <->
  (Nat.even (length [x00; x80; xff; x7f]) = true /\ (2 <= length [x00; x80; xff; x7f])%nat /\
   (1 <= AudioContext.maxChannels AudioContext.standard)%nat /\
   AudioContext.minSampleRate AudioContext.standard <= 24000
   <= AudioContext.maxSampleRate AudioContext.standard).
Proof.
  apply (decode_succeeds_iff "AID/fw==" AudioContext.standard 24000 [x00; x80; xff; x7f]).
  vm_compute. reflexivity.
Defined.

(** X3: every sample of a decoded buffer is a binary32 value between
    -1 and 32767/32768: the decoder never produces +1 or anything
    outside the nominal range. *)
Theorem decode_samples_in_range (base64Data : string) (ctx : AudioContext.t)
    (sampleRate : Z) (buffer : AudioBuffer.t) :
  decodeRawPCM base64Data ctx sampleRate = Ok buffer ->
  exists channel,
    AudioBuffer.getChannelData buffer 0 = Some channel /\
    Forall (fun x => Float32.valid x = true /\
                     exists q, Number.to_Q x = Some q
                               /\ (-1 <= q)%Q /\ (q <= 32767 # 32768)%Q) channel.
Proof.
  intros Hd.
  destruct (decodeRawPCM_Ok _ _ _ _ Hd) as (bytes & Hb & Heven & Hcreate & ->).
  exists (map normalize (int16_elements bytes)). split; [reflexivity|].
  apply Forall_map.
  eapply Forall_impl; [apply int16_elements_range|].
  intros v Hv. cbn beta. split; [apply normalize_valid; exact Hv|].
  destruct (normalize_to_Q v Hv) as (q & Hq & Heq).
  exists q. split; [exact Hq|].
  cbn beta in Hv. split; rewrite Heq; unfold Qle; cbn; lia.
Qed.

Lemma decode_samples_in_range_witness :
  exists channel,
    AudioBuffer.getChannelData (decoded [-32768; 32767] 24000) 0 = Some channel /\
    Forall (fun x => Float32.valid x = true /\
                     exists q, Number.to_Q x = Some q
                               /\ (-1 <= q)%Q /\ (q <= 32767 # 32768)%Q) channel.
Proof.
  apply (decode_samples_in_range "AID/fw==" AudioContext.standard 24000).
  vm_compute. reflexivity.
Defined.

Lemma strip_padding_In (c : ascii) (l : list ascii) :
  In c l -> Base64.is_pad c = false -> In c (Base64.strip_padding l).
Proof.
  intros Hin Hpad. unfold Base64.strip_padding.
  destruct (Z.of_nat (length l) mod 4 =? 0); [|exact Hin].
  apply in_rev in Hin.
  destruct (rev l) as [|a [|b r]] eqn:E; try (apply in_rev; rewrite E; exact Hin).
  destruct (Base64.is_pad a) eqn:Ha.
  - destruct Hin as [->|Hin]; [congruence|].
    destruct (Base64.is_pad b) eqn:Hb.
    + destruct Hin as [->|Hin]; [congruence|]. apply in_rev in Hin. exact Hin.
    + apply in_rev in Hin. exact Hin.
  - apply in_rev. rewrite E. exact Hin.
Qed.

Lemma sextets_None (c : ascii) (l : list ascii) :
  In c l -> Base64.sextet c = None -> Base64.sextets l = None.
Proof.
  induction l as [|a l IH]; intros Hin Hc; [destruct Hin|].
  cbn [Base64.sextets]. destruct Hin as [->|Hin].
  - rewrite Hc. reflexivity.
  - rewrite (IH Hin Hc). destruct (Base64.sextet a); reflexivity.
Qed.

(** X4: a payload with a character that is neither of the base64
    alphabet, nor [=], nor ASCII whitespace (the URL-safe [-] and [_]
    for instance) makes [decodeBase64], and so [decodeRawPCM], throw
    InvalidCharacterError, whatever the context and the rate are. *)
Theorem decode_foreign_character (base64Data : string) (ctx : AudioContext.t)
    (sampleRate : Z) (c : ascii) :
  In c (list_ascii_of_string base64Data) ->
  Base64.sextet c = None ->
  Base64.is_pad c = false ->
  Base64.is_ascii_whitespace c = false ->
  decodeBase64 base64Data = Throw InvalidCharacterError /\
  decodeRawPCM base64Data ctx sampleRate = Throw InvalidCharacterError.
Proof.
  intros Hin Hs Hp Hw.
  assert (Ha : Base64.atob base64Data = Throw InvalidCharacterError).
  { unfold Base64.atob.
    set (l := Base64.strip_padding _).
    assert (Hl : In c l).
    { apply strip_padding_In; [|exact Hp].
      apply list_elem_of_In, list_elem_of_filter.
      split; [rewrite Hw; exact I | apply list_elem_of_In; exact Hin]. }
    destruct (Z.of_nat (length l) mod 4 =? 1); [reflexivity|].
    rewrite (sextets_None c l Hl Hs). reflexivity. }
  assert (Hd : decodeBase64 base64Data = Throw InvalidCharacterError).
  { unfold decodeBase64. rewrite Ha. reflexivity. }
  split; [exact Hd|].
  unfold decodeRawPCM. rewrite Hd. reflexivity.
Qed.

Lemma decode_foreign_character_witness :
  decodeBase64 "AID_fw==" = Throw InvalidCharacterError /\
  decodeRawPCM "AID_fw==" AudioContext.standard 24000 = Throw InvalidCharacterError.
Proof.
  apply (decode_foreign_character "AID_fw==" AudioContext.standard 24000 "_"%char).
  - cbn. auto.
  - reflexivity.
  - reflexivity.
  - reflexivity.
Defined.

Lemma get_append_at (pre : string) (c : ascii) (r : string) :
  String.get (String.length pre) (pre ++ String c r)%string = Some c.
Proof.
  induction pre as [|a pre IH]; [reflexivity|]. cbn. exact IH.
Qed.

Lemma charCodeAt_append_at (pre : string) (c : ascii) (r : string) :
  charCodeAt (pre ++ String c r)%string (String.length pre) = Some (Base64.code c).
Proof.
  unfold charCodeAt. rewrite get_append_at. reflexivity.
Qed.

Lemma append_cons_assoc (pre : string) (c : ascii) (r : string) :
  (pre ++ String c r = (pre ++ String c EmptyString) ++ r)%string.
Proof.
  induction pre as [|a pre IH]; [reflexivity|]. cbn. rewrite IH. reflexivity.
Qed.

Lemma length_append_one (pre : string) (c : ascii) :
  String.length (pre ++ String c EmptyString) = S (String.length pre).
Proof.
  induction pre as [|a pre IH]; [reflexivity|]. cbn. rewrite IH. reflexivity.
Qed.

Lemma writeString_loop (offset : nat) (suf : string) :
  forall (pre : string) (view : DataView.t),
    foldM (fun view i =>
             match charCodeAt (pre ++ suf) i with
             | Some c => DataView.setUint8 view (offset + i) c
             | None => Ok view
             end) (seq (String.length pre) (String.length suf)) view
    = if (String.length suf =? 0)%nat
         || (offset + String.length pre + String.length suf <=? length view)%nat
      then Ok (take (offset + String.length pre) view ++ string_bytes suf
               ++ drop (offset + String.length pre + String.length suf) view)
      else Throw RangeError.
Proof.
  induction suf as [|c suf IH]; intros pre view.
  - cbn [String.length seq foldM Nat.eqb orb string_bytes list_ascii_of_string map app].
    rewrite Nat.add_0_r, take_drop. reflexivity.
  - cbn [String.length seq foldM Nat.eqb orb].
    rewrite charCodeAt_append_at.
    unfold DataView.setUint8.
    destruct (Nat.leb_spec (offset + String.length pre + 1) (length view)) as [Hle|Hgt].
    + cbn [mbind result_bind].
      rewrite append_cons_assoc.
      pose proof (IH (pre ++ String c EmptyString)%string
                    (<[(offset + String.length pre)%nat := byte_of_Z (Base64.code c)]> view)) as H.
      rewrite length_append_one in H. unfold DataView.setUint8 in H. rewrite H. clear H.
      unfold DataView.t in *. rewrite length_insert.
      replace (offset + S (String.length pre) + String.length suf)%nat
        with (offset + String.length pre + S (String.length suf))%nat by lia.
      assert (Hview : <[(offset + String.length pre)%nat := byte_of_Z (Base64.code c)]> view
                      = take (offset + String.length pre) view
                        ++ byte_of_Z (Base64.code c) :: drop (S (offset + String.length pre)) view).
      { rewrite <- (take_drop (offset + String.length pre) view) at 1.
        rewrite insert_app_r_alt by (rewrite length_take; lia).
        rewrite length_take, Nat.min_l by lia.
        rewrite Nat.sub_diag.
        destruct (drop (offset + String.length pre) view) as [|b rest] eqn:E.
        - apply (f_equal length) in E. rewrite length_drop in E. cbn in E. lia.
        - cbn [insert list_insert]. f_equal. f_equal.
          rewrite <- (Nat.add_1_r (offset + String.length pre)), <- drop_drop, E.
          reflexivity. }
      destruct (Nat.leb_spec (offset + String.length pre + S (String.length suf)) (length view))
        as [Hle2|Hgt2].
      * rewrite orb_true_r. f_equal.
        rewrite Hview.
        replace (offset + S (String.length pre))%nat with (S (offset + String.length pre)) by lia.
        rewrite take_app_ge by (rewrite length_take; lia).
        rewrite length_take, Nat.min_l by lia.
        replace (S (offset + String.length pre) - (offset + String.length pre))%nat with 1%nat by lia.
        cbn [take].
        rewrite drop_app_ge by (rewrite length_take; lia).
        rewrite length_take, Nat.min_l by lia.
        replace (offset + String.length pre + S (String.length suf) - (offset + String.length pre))%nat
          with (S (String.length suf)) by lia.
        cbn [drop]. rewrite drop_drop.
        replace (S (offset + String.length pre) + String.length suf)%nat
          with (offset + String.length pre + S (String.length suf))%nat by lia.
        rewrite take_0. cbn [string_bytes list_ascii_of_string map app].
        rewrite <- app_assoc. reflexivity.
      * rewrite orb_false_r.
        destruct (String.length suf) as [|n] eqn:En; [lia|]. reflexivity.
    + cbn [mbind result_bind].
      destruct (Nat.leb_spec (offset + String.length pre + S (String.length suf)) (length view));
        [lia | reflexivity].
Qed.

(** X5: [writeString] overwrites the bytes from [offset] on with the
    character codes of the string and leaves all other bytes as they
    were; it throws RangeError exactly when the string is not empty and
    does not fit into the view from [offset]. *)
Theorem writeString_bytes (view : DataView.t) (offset : nat) (s : string) :
  writeString view offset s
  = if (String.length s =? 0)%nat || (offset + String.length s <=? length view)%nat
    then Ok (take offset view ++ string_bytes s ++ drop (offset + String.length s) view)
    else Throw RangeError.
Proof.
  unfold writeString.
  pose proof (writeString_loop offset s EmptyString view) as H.
  cbn [String.length append] in H. rewrite Nat.add_0_r in H. exact H.
Qed.

Lemma flat_map_chunk {A B} (f : A -> list B) (k : nat) (l : list A) :
  (forall a, length (f a) = k) ->
  forall i x, l !! i = Some x ->
    exists rest, drop (i * k) (flat_map f l) = f x ++ rest.
Proof.
  intros Hk. induction l as [|a l IH]; intros i x Hi; [discriminate|].
  destruct i as [|i]; cbn [flat_map].
  - injection Hi as ->. eexists. reflexivity.
  - cbn in Hi. destruct (IH i x Hi) as [rest Hrest].
    exists rest. rewrite drop_app_ge by (rewrite Hk; lia).
    rewrite Hk. replace (S i * k - k)%nat with (i * k)%nat by lia. exact Hrest.
Qed.

Lemma sample_bytes_length (x : Number.t) : length (sample_bytes x) = 2%nat.
Proof. reflexivity. Qed.

Lemma wav_data_sample (channels : list (list spec_float)) (len pos i : nat)
    (channel : list spec_float) :
  (pos < len)%nat -> channels !! i = Some channel ->
  exists rest,
    drop ((pos * length channels + i) * 2) (wav_data channels len)
    = sample_bytes (element channel pos) ++ rest.
Proof.
  intros Hpos Hi. unfold wav_data.
  destruct (flat_map_chunk (frame_bytes channels) (length channels * 2) (seq 0 len)
              (frame_bytes_length channels) pos pos) as [rest1 H1].
  { rewrite lookup_seq. split; [reflexivity | exact Hpos]. }
  destruct (flat_map_chunk (fun channel => sample_bytes (element channel pos)) 2 channels
              (fun c => sample_bytes_length _) i channel Hi) as [rest2 H2].
  fold (frame_bytes channels pos) in H2.
  exists (rest2 ++ rest1).
  replace ((pos * length channels + i) * 2)%nat
    with (pos * (length channels * 2) + i * 2)%nat by lia.
  rewrite <- drop_drop, H1.
  pose proof (lookup_lt_Some _ _ _ Hi) as Hlt.
  rewrite drop_app_le by (rewrite frame_bytes_length; lia).
  rewrite H2, <- app_assoc. reflexivity.
Qed.

(** X6: for every buffer, with any number of channels, and every
    [len], [bufferToWave] returns 44 + 2 * len * channels bytes, and the
    sample of channel [i] at frame [pos] is the little-endian 16-bit
    word at byte 44 + 2 * (pos * channels + i); a frame past the end of
    the channel data is written as silence (two zero bytes). *)
Theorem wave_samples_interleaved (abuffer : AudioBuffer.t) (len : nat) :
  exists wav,
    bufferToWave abuffer len = Ok wav /\
    length wav = (44 + len * AudioBuffer.numberOfChannels abuffer * 2)%nat /\
    forall (pos i : nat) (channel : list spec_float),
      (pos < len)%nat ->
      AudioBuffer.getChannelData abuffer i = Some channel ->
      exists lo hi,
        wav !! (44 + (pos * AudioBuffer.numberOfChannels abuffer + i) * 2)%nat = Some lo /\
        wav !! (44 + (pos * AudioBuffer.numberOfChannels abuffer + i) * 2 + 1)%nat = Some hi /\
        int16_le lo hi = wrap_signed 16 (scale_sample (element channel pos)) /\
        ((length channel <= pos)%nat -> lo = x00 /\ hi = x00).
Proof.
  eexists. split; [apply bufferToWave_bytes|].
  split.
  { rewrite length_app, wav_header_length, wav_data_length.
    unfold AudioBuffer.numberOfChannels. lia. }
  intros pos i channel Hpos Hi.
  unfold AudioBuffer.getChannelData in Hi. unfold AudioBuffer.numberOfChannels.
  destruct (wav_data_sample _ len pos i channel Hpos Hi) as [rest Hrest].
  set (off := ((pos * length (AudioBuffer.channelData abuffer) + i) * 2)%nat) in *.
  exists (byte_of_Z (wrap_signed 16 (scale_sample (element channel pos)))),
         (byte_of_Z (wrap_signed 16 (scale_sample (element channel pos)) / 256)).
  assert (Hlo : forall k b, (sample_bytes (element channel pos) ++ rest) !! k = Some b ->
                (wav_header (length (AudioBuffer.channelData abuffer))
                   (AudioBuffer.sampleRate abuffer)
                   (len * length (AudioBuffer.channelData abuffer) * 2 + 44)
                 ++ wav_data (AudioBuffer.channelData abuffer) len) !! (44 + off + k)%nat
                = Some b).
  { intros k b Hk. rewrite lookup_app_r by (rewrite wav_header_length; lia).
    rewrite wav_header_length.
    replace (44 + off + k - 44)%nat with (off + k)%nat by lia.
    rewrite <- lookup_drop, Hrest. exact Hk. }
  split; [rewrite <- (Nat.add_0_r (44 + off)); apply Hlo; reflexivity|].
  split; [apply Hlo; reflexivity|].
  split.
  - rewrite int16_le_le16. apply wrap_signed_small; [lia|].
    apply (wrap_signed_range 16). lia.
  - intros Hlen. unfold element. rewrite (lookup_ge_None_2 _ _ Hlen).
    split; reflexivity.
Qed.

(** X7: the first 44 bytes [bufferToWave] writes are a canonical
    PCM WAVE header for any channel count: the tags RIFF, WAVE, fmt and
    data, chunk size 16, format 1, the channel count, the sample rate,
    the byte rate (rate * 2 * channels), the block size (2 * channels),
    16 bits per sample, and the two sizes, provided these values fit
    their fields. *)
Theorem wave_header_layout (abuffer : AudioBuffer.t) (len : nat) :
  (1 <= AudioBuffer.numberOfChannels abuffer)%nat ->
  Z.of_nat (AudioBuffer.numberOfChannels abuffer) * 2 < 2 ^ 16 ->
  0 <= AudioBuffer.sampleRate abuffer ->
  AudioBuffer.sampleRate abuffer * 2 * Z.of_nat (AudioBuffer.numberOfChannels abuffer) < 2 ^ 32 ->
  Z.of_nat (len * AudioBuffer.numberOfChannels abuffer * 2) + 36 < 2 ^ 32 ->
  exists wav,
    bufferToWave abuffer len = Ok wav /\
    take 4 wav = string_bytes "RIFF" /\
    DataView.getUint32 wav 4
    = Some (Z.of_nat (len * AudioBuffer.numberOfChannels abuffer * 2) + 36) /\
    take 8 (drop 8 wav) = string_bytes "WAVEfmt " /\
    DataView.getUint32 wav 16 = Some 16 /\
    DataView.getUint16 wav 20 = Some 1 /\
    DataView.getUint16 wav 22 = Some (Z.of_nat (AudioBuffer.numberOfChannels abuffer)) /\
    DataView.getUint32 wav 24 = Some (AudioBuffer.sampleRate abuffer) /\
    DataView.getUint32 wav 28
    = Some (AudioBuffer.sampleRate abuffer * 2 * Z.of_nat (AudioBuffer.numberOfChannels abuffer)) /\
    DataView.getUint16 wav 32 = Some (Z.of_nat (AudioBuffer.numberOfChannels abuffer) * 2) /\
    DataView.getUint16 wav 34 = Some 16 /\
    take 4 (drop 36 wav) = string_bytes "data" /\
    DataView.getUint32 wav 40 = Some (Z.of_nat (len * AudioBuffer.numberOfChannels abuffer * 2)).
Proof.
  intros Hone Hchan Hrate Hbyte Hsize.
  change (2 ^ 32) with 4294967296 in *. change (2 ^ 16) with 65536 in *.
  eexists. split; [apply bufferToWave_bytes|].
  set (data := wav_data _ _). clearbody data.
  set (sampleRate := AudioBuffer.sampleRate abuffer) in *. clearbody sampleRate.
  set (numOfChan := AudioBuffer.numberOfChannels abuffer) in *. clearbody numOfChan.
  set (payload := (len * numOfChan * 2)%nat) in *.
  assert (Htotal : exists total, (payload + 44)%nat = total
                                 /\ Z.of_nat total = Z.of_nat payload + 44)
    by (eexists; split; [reflexivity | lia]).
  destruct Htotal as (total & -> & Htotal). clearbody payload.
  unfold DataView.getUint32, DataView.getUint16.
  cbn -[byte_of_Z byte_to_Z Z.of_nat Z.mul Z.div Z.sub Z.add].
  replace (Z.of_nat total - 8) with (Z.of_nat payload + 36) by lia.
  replace (Z.of_nat total - 0 - 44) with (Z.of_nat payload) by lia.
  repeat split; try reflexivity; f_equal;
    first [ apply le32_value; nia | apply le16_value; lia ].
Qed.

Lemma wave_header_layout_witness :
  exists wav,
    bufferToWave stereo 2 = Ok wav /\
    take 4 wav = string_bytes "RIFF" /\
    DataView.getUint32 wav 4 = Some (Z.of_nat (2 * AudioBuffer.numberOfChannels stereo * 2) + 36) /\
    take 8 (drop 8 wav) = string_bytes "WAVEfmt " /\
    DataView.getUint32 wav 16 = Some 16 /\
    DataView.getUint16 wav 20 = Some 1 /\
    DataView.getUint16 wav 22 = Some (Z.of_nat (AudioBuffer.numberOfChannels stereo)) /\
    DataView.getUint32 wav 24 = Some (AudioBuffer.sampleRate stereo) /\
    DataView.getUint32 wav 28
    = Some (AudioBuffer.sampleRate stereo * 2 * Z.of_nat (AudioBuffer.numberOfChannels stereo)) /\
    DataView.getUint16 wav 32 = Some (Z.of_nat (AudioBuffer.numberOfChannels stereo) * 2) /\
    DataView.getUint16 wav 34 = Some 16 /\
    take 4 (drop 36 wav) = string_bytes "data" /\
    DataView.getUint32 wav 40 = Some (Z.of_nat (2 * AudioBuffer.numberOfChannels stereo * 2)).
Proof.
  apply (wave_header_layout stereo 2); cbn; lia.
Defined.

Lemma byte_of_Z_mod (z z' : Z) : z mod 256 = z' mod 256 -> byte_of_Z z = byte_of_Z z'.
Proof. intros H. unfold byte_of_Z. rewrite H. reflexivity. Qed.

Lemma le16_int16_le (lo hi : byte) : le16 (int16_le lo hi) = [lo; hi].
Proof.
  unfold le16, int16_le, wrap_signed.
  pose proof (byte_to_Z_range lo) as Hlo. pose proof (byte_to_Z_range hi) as Hhi.
  change (2 ^ (16 - 1)) with 32768. change (2 ^ 16) with 65536.
  set (n := byte_to_Z lo + 256 * byte_to_Z hi).
  assert (Hn : (n + 32768) mod 65536 - 32768 = n \/ (n + 32768) mod 65536 - 32768 = n - 65536).
  { destruct (Z_lt_le_dec n 32768).
    - left. rewrite Z.mod_small by lia. lia.
    - right. replace (n + 32768) with (n - 32768 + 1 * 65536) by lia.
      rewrite Z.mod_add by lia. rewrite Z.mod_small by lia. lia. }
  transitivity [byte_of_Z (byte_to_Z lo); byte_of_Z (byte_to_Z hi)];
    [| rewrite !byte_of_to_Z; reflexivity].
  destruct Hn as [-> | ->]; f_equal; [| f_equal | | f_equal]; apply byte_of_Z_mod.
  - unfold n. rewrite Z.add_comm, Z.mul_comm.
    replace (byte_to_Z hi * 256) with (byte_to_Z hi * 4 * 64 ) by lia.
    subst n. clear. 
    rewrite <- (Z.mod_add (byte_to_Z lo) (byte_to_Z hi) 256) by lia.
    f_equal. lia.
  - f_equal. unfold n. symmetry. apply (Z.div_unique _ _ _ (byte_to_Z lo)); lia.
  - unfold n. rewrite <- (Z.mod_add (byte_to_Z lo) (byte_to_Z hi - 256) 256) by lia.
    f_equal. lia.
  - unfold n. rewrite <- (Z.mod_add (byte_to_Z hi) (-1) 256) by lia.
    f_equal. symmetry. apply (Z.div_unique _ _ _ (byte_to_Z lo)); lia.
Qed.

Lemma int16_elements_bytes (bytes : list byte) :
  Nat.even (length bytes) = true ->
  flat_map le16 (int16_elements bytes) = bytes.
Proof.
  induction bytes as [| a | a b l IH] using list_pair_ind; cbn [int16_elements flat_map length].
  - reflexivity.
  - discriminate.
  - intros H. change (Nat.even (S (S (length l)))) with (Nat.even (length l)) in H.
    rewrite le16_int16_le, (IH H). reflexivity.
Qed.

Lemma int16_elements_flat_le16 (l : list Z) :
  Forall (fun v => -32768 <= v <= 32767) l ->
  int16_elements (flat_map le16 l) = l.
Proof.
  induction 1 as [|v l Hv _ IH]; [reflexivity|].
  cbn [flat_map le16 app int16_elements]. rewrite IH, int16_le_le16.
  rewrite wrap_signed_small; [reflexivity | lia |].
  change (2 ^ (16 - 1)) with 32768. lia.
Qed.

Lemma requantize_fixed (v : Z) : requantize v = v <-> v <= 0.
Proof. unfold requantize. destruct (Z.leb_spec v 0); lia. Qed.

(** X8: exporting decoded audio is not bit-exact.  The payload of the
    WAVE file has the length of the PCM input, a sample [v <= 0] is
    written back as [v] and a sample [v > 0] as [v - 1]; the payload
    equals the input exactly when no sample is positive. *)
Theorem export_requantizes (base64Data : string) (ctx : AudioContext.t)
    (sampleRate : Z) (bytes : list byte) (buffer : AudioBuffer.t) :
  decodeBase64 base64Data = Ok bytes ->
  decodeRawPCM base64Data ctx sampleRate = Ok buffer ->
  exists wav,
    bufferToWave buffer (AudioBuffer.length buffer) = Ok wav /\
    length (drop 44 wav) = length bytes /\
    int16_elements (drop 44 wav)
    = map (fun v => if v <=? 0 then v else v - 1) (int16_elements bytes) /\
    (drop 44 wav = bytes <-> Forall (fun v => v <= 0) (int16_elements bytes)).
Proof.
  intros Hb Hd.
  destruct (decodeRawPCM_Ok _ _ _ _ Hd) as (bytes' & Hb' & Heven & _ & ->).
  rewrite Hb in Hb'. injection Hb' as <-.
  pose proof (int16_elements_range bytes) as Hrange.
  pose proof (int16_elements_bytes bytes Heven) as Hbytes.
  pose proof (int16_elements_length_even bytes Heven) as Hlen.
  set (elems := int16_elements bytes) in *.
  eexists. split; [apply bufferToWave_bytes|].
  rewrite (drop_app_length' _ _ 44 (eq_sym (wav_header_length _ _ _))).
  unfold decoded. cbn [AudioBuffer.channelData AudioBuffer.length].
  rewrite (wav_data_decoded elems Hrange).
  assert (Hq : flat_map (fun v => le16 (wrap_signed 16 (requantize v))) elems
               = flat_map le16 (map requantize elems)).
  { rewrite flat_map_map. clear -Hrange.
    induction Hrange as [|v l Hv _ IH]; [reflexivity|].
    cbn [flat_map]. rewrite IH.
    rewrite wrap_signed_small; [reflexivity | lia |].
    pose proof (requantize_range v Hv). change (2 ^ (16 - 1)) with 32768. lia. }
  split; [|split].
  - rewrite flat_map_le16_length. exact Hlen.
  - rewrite (int16_elements_le16 requantize elems).
    clear -Hrange. induction Hrange as [|v l Hv _ IH]; [reflexivity|].
    cbn [map]. rewrite IH. f_equal.
    apply wrap_signed_small; [lia|]. pose proof (requantize_range v Hv).
    unfold requantize in H. change (2 ^ (16 - 1)) with 32768.
    destruct (v <=? 0); lia.
  - rewrite Hq. split.
    + intros Heq. rewrite <- Hbytes in Heq.
      assert (Hm : map requantize elems = elems).
      { apply (f_equal int16_elements) in Heq.
        rewrite !int16_elements_flat_le16 in Heq; [exact Heq | exact Hrange |].
        apply Forall_map. eapply Forall_impl; [exact Hrange|].
        intros v Hv. apply requantize_range. exact Hv. }
      clear -Hm. induction elems as [|v l IH]; [constructor|].
      cbn [map] in Hm. injection Hm as Hv Hl.
      constructor; [apply requantize_fixed; exact Hv | apply IH; exact Hl].
    + intros Hall. rewrite <- Hbytes. f_equal.
      clear -Hall. induction Hall as [|v l Hv _ IH]; [reflexivity|].
      cbn [map]. rewrite IH. f_equal. apply requantize_fixed. exact Hv.
Qed.

Lemma export_requantizes_witness :
  exists wav,
    bufferToWave (decoded [-32768; 32767] 24000) 2 = Ok wav /\
    length (drop 44 wav) = length [x00; x80; xff; x7f] /\
    int16_elements (drop 44 wav)
    = map (fun v => if v <=? 0 then v else v - 1) (int16_elements [x00; x80; xff; x7f]) /\
    (drop 44 wav = [x00; x80; xff; x7f]
     <-> Forall (fun v => v <= 0) (int16_elements [x00; x80; xff; x7f])).
Proof.
  apply (export_requantizes "AID/fw==" AudioContext.standard 24000 [x00; x80; xff; x7f]).
  - vm_compute. reflexivity.
  - vm_compute. reflexivity.
Defined.


(** X9: for audio decoded at 24 kHz, [handleDownload] offers a file
    named learnon_ai_lesson.wav of 44 bytes more than the PCM payload,
    whose header declares one channel, 24000 Hz, 48000 bytes per
    second, blocks of 2 bytes, 16 bits per sample and the payload
    length as data size. *)
Theorem download_of_decoded_audio (rawAudioData : string) (ctx : AudioContext.t)
    (bytes : list byte) (buffer : AudioBuffer.t) :
  decodeBase64 rawAudioData = Ok bytes ->
  decodeRawPCM rawAudioData ctx 24000 = Ok buffer ->
  Z.of_nat (length bytes) + 36 < 2 ^ 32 ->
  exists wav,
    handleDownload (Some buffer) = Ok (Some ("learnon_ai_lesson.wav"%string, wav)) /\
    length wav = (44 + length bytes)%nat /\
    DataView.getUint32 wav 4 = Some (Z.of_nat (length bytes) + 36) /\
    DataView.getUint16 wav 22 = Some 1 /\
    DataView.getUint32 wav 24 = Some 24000 /\
    DataView.getUint32 wav 28 = Some 48000 /\
    DataView.getUint16 wav 32 = Some 2 /\
    DataView.getUint16 wav 34 = Some 16 /\
    DataView.getUint32 wav 40 = Some (Z.of_nat (length bytes)).
Proof.
  intros Hb Hd Hsize. change (2 ^ 32) with 4294967296 in Hsize.
  destruct (decodeRawPCM_Ok _ _ _ _ Hd) as (bytes' & Hb' & Heven & _ & ->).
  rewrite Hb in Hb'. injection Hb' as <-.
  pose proof (int16_elements_length_even bytes Heven) as Hlen.
  unfold handleDownload. rewrite bufferToWave_bytes. cbn [mbind result_bind].
  eexists. split; [reflexivity|].
  split.
  { rewrite length_app, wav_header_length, wav_data_length. cbn. lia. }
  unfold decoded, AudioBuffer.numberOfChannels.
  cbn [AudioBuffer.channelData AudioBuffer.length AudioBuffer.sampleRate length].
  set (data := wav_data _ _). clearbody data.
  replace (length (int16_elements bytes) * 1 * 2 + 44)%nat
    with (length bytes + 44)%nat by lia.
  set (n := length bytes) in *. clearbody n.
  assert (Htotal : exists total, (n + 44)%nat = total /\ Z.of_nat total = Z.of_nat n + 44)
    by (eexists; split; [reflexivity | lia]).
  destruct Htotal as (total & -> & Htotal).
  unfold DataView.getUint32, DataView.getUint16.
  cbn -[byte_of_Z byte_to_Z Z.of_nat Z.mul Z.div Z.sub Z.add].
  replace (Z.of_nat total - 8) with (Z.of_nat n + 36) by lia.
  replace (Z.of_nat total - 0 - 44) with (Z.of_nat n) by lia.
  repeat split; try reflexivity; f_equal;
    first [ apply le32_value; lia | apply le16_value; lia ].
Qed.

Lemma download_of_decoded_audio_witness :
  exists wav,
    handleDownload (Some (decoded [-32768; 32767] 24000))
    = Ok (Some ("learnon_ai_lesson.wav"%string, wav)) /\
    length wav = (44 + length [x00; x80; xff; x7f])%nat /\
    DataView.getUint32 wav 4 = Some (Z.of_nat (length [x00; x80; xff; x7f]) + 36) /\
    DataView.getUint16 wav 22 = Some 1 /\
    DataView.getUint32 wav 24 = Some 24000 /\
    DataView.getUint32 wav 28 = Some 48000 /\
    DataView.getUint16 wav 32 = Some 2 /\
    DataView.getUint16 wav 34 = Some 16 /\
    DataView.getUint32 wav 40 = Some (Z.of_nat (length [x00; x80; xff; x7f])).
Proof.
  apply (download_of_decoded_audio "AID/fw==" AudioContext.standard [x00; x80; xff; x7f]).
  - vm_compute. reflexivity.
  - vm_compute. reflexivity.
  - vm_compute. reflexivity.
Defined.

(** * The claims about the playback engine *)

Module PlayerFacts.
Import Player.

Lemma lesson_duration : (AudioBuffer.duration lesson == 3)%Q.
Proof. reflexivity. Qed.

Lemma run_cons (ev : event) (evs : list event) (st st' : state) :
  step ev st = Some st' -> run (ev :: evs) st = run evs st'.
Proof. intros H. cbn [run]. rewrite H. reflexivity. Qed.

Lemma insert_last {A} (l : list A) (x y : A) :
  <[length l := y]> (l ++ [x]) = l ++ [y].
Proof.
  rewrite insert_app_r_alt by lia. rewrite Nat.sub_diag. reflexivity.
Qed.

(** What [playAudio] does when a buffer is loaded and the position to
    resume from is not negative. *)
Lemma playAudio_state (isPlaying_ : bool) (st : state) (buffer : AudioBuffer.t) :
  audioBuffer st = Some buffer ->
  Qle_bool 0 (pauseTimeRef st) = true ->
  playAudio isPlaying_ st
  = draw isPlaying_
      (mkState (audioBuffer st) true (currentTime st) (isMuted st) true
         (Some (length (sources st))) (Some 1%Q) true (animationRef st)
         (now st - pauseTimeRef st)%Q (pauseTimeRef st) (now st)
         (sources st ++ [mkSource true false false true (now st) (pauseTimeRef st)])
         (frames st) (nextFrame st) (framesDrawn st)).
Proof.
  intros Hb Hp. destruct st. cbn in Hb, Hp. subst.
  unfold playAudio, initAudio, create_source, source_start, drawVisualizer,
    andThen, update.
  cbn -[Qle_bool Qminus draw]. rewrite Hp.
  cbn -[Qle_bool Qminus draw]. rewrite insert_last. reflexivity.
Qed.

Lemma step_Advance (dt : Q) (st : state) :
  (0 <= dt)%Q -> step (Advance dt) st = Some (set_now (now st + dt)%Q st).
Proof. intros H. apply Qle_bool_iff in H. cbn [step]. rewrite H. reflexivity. Qed.

(** Playing from a state that is not playing. *)
Lemma step_play (st : state) (buffer : AudioBuffer.t) :
  isPlaying st = false ->
  audioBuffer st = Some buffer ->
  (0 <= pauseTimeRef st)%Q ->
  step TogglePlay st
  = Some (mkState (audioBuffer st) true (currentTime st) (isMuted st) true
            (Some (length (sources st))) (Some 1%Q) true (animationRef st)
            (now st - pauseTimeRef st)%Q (pauseTimeRef st) (now st)
            (sources st ++ [mkSource true false false true (now st) (pauseTimeRef st)])
            (frames st) (nextFrame st) (framesDrawn st)).
Proof.
  intros Hp Hb Ht. apply Qle_bool_iff in Ht.
  cbn [step]. rewrite Hp. cbn [togglePlay].
  rewrite (playAudio_state false st buffer Hb Ht). reflexivity.
Qed.

(** Pausing while the current source plays. *)
Lemma step_pause (st : state) (i : nat) (s : SourceNode) :
  isPlaying st = true ->
  sourceRef st = Some i ->
  sources st !! i = Some s ->
  started s = true ->
  step TogglePlay st
  = Some (fst (cancel_animation
                 (mkState (audioBuffer st) false (currentTime st) (isMuted st)
                    (audioContextRef st) (Some i) (gainNodeRef st) (analyzerRef st)
                    (animationRef st) (startTimeRef st)
                    (now st - startTimeRef st)%Q (now st)
                    (<[i := mkSource true true (ended s) (connected s)
                              (startedAt s) (offset s)]> (sources st))
                    (frames st) (nextFrame st) (framesDrawn st)))).
Proof.
  intros Hp Hr Hs Hst. destruct st. cbn in Hp, Hr, Hs. subst.
  cbn [step isPlaying togglePlay].
  unfold pauseAudio, when, source_stop, andThen, update.
  cbn -[Qminus cancel_animation]. rewrite Hs, Hst.
  cbn -[Qminus cancel_animation]. reflexivity.
Qed.

(** Seeking while not playing only records the target. *)
Lemma step_seek_paused (st : state) (time : Q) :
  isPlaying st = false ->
  step (Seek time) st = Some (set_pauseTimeRef time (setCurrentTime time st)).
Proof. intros Hp. cbn [step]. rewrite Hp. reflexivity. Qed.

(** The [ended] event of a source that has been stopped, when the
    test of [onended] fails: only the event is recorded. *)
Lemma step_ended_early (st : state) (i : nat) (s : SourceNode) (buffer : AudioBuffer.t) :
  sources st !! i = Some s ->
  started s = true -> stopped s = true -> ended s = false ->
  audioBuffer st = Some buffer ->
  (now st - startTimeRef st < AudioBuffer.duration buffer - (1 # 10))%Q ->
  step (Ended i) st
  = Some (set_sources (sourceRef st)
            (<[i := mkSource true true true (connected s) (startedAt s) (offset s)]>
               (sources st)) st).
Proof.
  intros Hs Hst Hsp He Hb Hlt. cbn [step]. rewrite Hs, Hst, Hsp, He.
  cbn [andb negb orb]. unfold onended, duration.
  cbn [now startTimeRef audioBuffer set_sources]. rewrite Hb.
  destruct (Qle_bool _ _) eqn:E; [|reflexivity].
  apply Qle_bool_iff in E. lra.
Qed.

(** C7 fails on this run: the lesson is paused at 2.95 s of its 3 s,
    the user seeks to 1 s, and the [ended] event of the paused source
    is dispatched next.  Its handler finds 2.95 s played, takes the
    pause for the natural end of the buffer and resets [pauseTimeRef]:
    the second play starts at 0, not at 1. *)
Theorem seek_target_lost :
  exists st,
    run [TogglePlay; Advance (295 # 100); TogglePlay; Seek 1; Ended 0; TogglePlay]
        (initial (Some lesson)) = Some st /\
    isPlaying st = true /\
    ~ (currentPosition st == 1)%Q /\
    (currentPosition st == 0)%Q /\
    map offset (aliveSources st) = [0%Q].
Proof.
  eexists. split; [vm_compute; reflexivity|].
  split; [reflexivity|]. split; [intro H; discriminate H|].
  split; reflexivity.
Qed.

(** Without such an event the engine does resume at the target: after
    play, pause, seek to [t] and play again, with any time passing in
    between, the engine is playing at position [t], at the displayed
    time [t], with one source alive that was started at offset [t];
    provided that the [ended] event of the paused source, if it is
    dispatched between the seek and the second play, arrives while the
    time since the first play is at least [clearance] below
    [duration - 0.1].  Dispatched before the seek, or not before the
    second play, the event does not matter. *)
Theorem resume_at_seek_target (buffer : AudioBuffer.t) (d1 d2 d3 d4 d5 t : Q)
    (w : dispatch) :
  (0 <= d1)%Q -> (0 <= d2)%Q -> (0 <= d3)%Q -> (0 <= d4)%Q -> (0 <= d5)%Q ->
  (0 <= t)%Q /\ (t <= AudioBuffer.duration buffer)%Q ->
  (w = AfterSeek ->
   (d1 + d2 + d3 + d4 <= AudioBuffer.duration buffer - (1 # 10) - clearance)%Q) ->
  exists st,
    run ([TogglePlay; Advance d1; TogglePlay; Advance d2]
         ++ match w with BeforeSeek => [Ended 0] | _ => [] end
         ++ [Advance d3; Seek t; Advance d4]
         ++ match w with AfterSeek => [Ended 0] | _ => [] end
         ++ [Advance d5; TogglePlay])
        (initial (Some buffer)) = Some st /\
    isPlaying st = true /\
    (currentPosition st == t)%Q /\
    (currentTime st == t)%Q /\
    map offset (aliveSources st) = [t].
Proof.
  intros H1 H2 H3 H4 H5 [Ht _] Hw.
  assert (Hplay : forall st0,
    isPlaying st0 = false -> audioBuffer st0 = Some buffer ->
    pauseTimeRef st0 = t -> currentTime st0 = t ->
    filter (fun s => alive s = true) (sources st0) = [] ->
    exists st,
      run [Advance d5; TogglePlay] st0 = Some st /\
      isPlaying st = true /\
      (currentPosition st == t)%Q /\
      (currentTime st == t)%Q /\
      map offset (aliveSources st) = [t]).
  { intros st0 Hp Hb Hpt Hct Ha.
    erewrite run_cons by (apply step_Advance, H5).
    erewrite run_cons
      by (apply (step_play _ buffer); [exact Hp|exact Hb|cbn; rewrite Hpt; exact Ht]).
    eexists. split; [reflexivity|].
    split; [reflexivity|].
    split; [cbn -[Qplus Qminus]; rewrite Hpt; ring|].
    split; [cbn; rewrite Hct; reflexivity|].
    unfold aliveSources. cbn -[Qplus Qminus].
    rewrite filter_app, Ha, Hpt. reflexivity. }
  assert (Hseek : forall st0,
    w <> AfterSeek ->
    isPlaying st0 = false -> audioBuffer st0 = Some buffer ->
    filter (fun s => alive s = true) (sources st0) = [] ->
    exists st,
      run ([Advance d3; Seek t; Advance d4]
           ++ match w with AfterSeek => [Ended 0] | _ => [] end
           ++ [Advance d5; TogglePlay]) st0 = Some st /\
      isPlaying st = true /\
      (currentPosition st == t)%Q /\
      (currentTime st == t)%Q /\
      map offset (aliveSources st) = [t]).
  { intros st0 Hne Hp Hb Ha.
    replace (match w with AfterSeek => [Ended 0] | _ => [] end) with (@nil event)
      by (destruct w; [reflexivity|contradiction|reflexivity]).
    cbn [app].
    erewrite run_cons by (apply step_Advance, H3).
    erewrite run_cons by (apply step_seek_paused; exact Hp).
    erewrite run_cons by (apply step_Advance, H4).
    apply Hplay; auto. }
  cbn [app].
  erewrite run_cons by (apply (step_play _ buffer); [reflexivity|reflexivity|apply Qle_refl]).
  erewrite run_cons by (apply step_Advance, H1).
  erewrite run_cons
    by (eapply (step_pause _ 0); [reflexivity|reflexivity|reflexivity|reflexivity]).
  erewrite run_cons by (apply step_Advance, H2).
  cbn -[Qplus Qminus].
  destruct w; cbn [app].
  - erewrite run_cons by reflexivity.
    apply (Hseek _ ltac:(discriminate)); unfold onended;
      cbn -[Qplus Qminus Qle_bool AudioBuffer.duration];
      destruct (Qle_bool _ _); reflexivity.
  - specialize (Hw eq_refl). unfold clearance in Hw.
    erewrite run_cons by (apply step_Advance, H3).
    erewrite run_cons by (apply step_seek_paused; reflexivity).
    erewrite run_cons by (apply step_Advance, H4).
    erewrite run_cons
      by (eapply (step_ended_early _ 0 _ buffer);
          [reflexivity|reflexivity|reflexivity|reflexivity|reflexivity|
           cbn -[Qplus Qminus AudioBuffer.duration]; lra]).
    apply Hplay; reflexivity.
  - apply (Hseek _ ltac:(discriminate)); reflexivity.
Qed.

Lemma resume_at_seek_target_witness :
  exists st,
    run [TogglePlay; Advance 1; TogglePlay; Advance 0; Advance (1 # 2); Seek 2;
         Advance (1 # 2); Ended 0; Advance 0; TogglePlay] (initial (Some lesson))
    = Some st /\
    isPlaying st = true /\
    (currentPosition st == 2)%Q /\
    (currentTime st == 2)%Q /\
    map offset (aliveSources st) = [2%Q].
Proof.
  apply (resume_at_seek_target lesson 1 0 (1 # 2) (1 # 2) 0 2 AfterSeek);
    first [split; intro H; discriminate H
          |intros _ H; discriminate H
          |intro H; discriminate H].
Defined.

(** ** Seeking *)

Lemma playAudio_pauseTimeRef (isPlaying_ : bool) (st : state) :
  pauseTimeRef (fst (playAudio isPlaying_ st)) = pauseTimeRef st.
Proof.
  destruct st. unfold playAudio, initAudio, create_source, source_start,
    drawVisualizer, draw, andThen, update.
  cbn -[Qle_bool Qminus].
  destruct audioBuffer0; [|reflexivity].
  cbn -[Qle_bool Qminus].
  destruct (Qle_bool 0 pauseTimeRef0); [|reflexivity].
  cbn -[Qle_bool Qminus].
  destruct isPlaying_; reflexivity.
Qed.

Lemma source_stop_pauseTimeRef (st : state) :
  pauseTimeRef (fst (source_stop st)) = pauseTimeRef st.
Proof.
  unfold source_stop. destruct (sourceRef st) as [i|]; [|reflexivity].
  destruct (sources st !! i) as [s|]; [|reflexivity].
  destruct (started s); reflexivity.
Qed.

(** C6 as stated fails: a target of [-5] is stored as [-5], not as
    [0], and a target of [duration + 100] as it is, not as
    [duration]. *)
Lemma seek_not_clamped :
  exists low zero high top,
    step (Seek (-5)) (initial (Some lesson)) = Some low /\
    step (Seek 0) (initial (Some lesson)) = Some zero /\
    ~ (pauseTimeRef low == pauseTimeRef zero)%Q /\
    step (Seek (3 + 100)) (initial (Some lesson)) = Some high /\
    step (Seek 3) (initial (Some lesson)) = Some top /\
    ~ (pauseTimeRef high == pauseTimeRef top)%Q.
Proof.
  eexists _, _, _, _.
  repeat split; try reflexivity; intro H; discriminate H.
Qed.

(** C6, amended: [handleSeek] stores the target it is given as the
    position to resume from, whatever the target is; for a target
    within [0, duration], the only kind the range input delivers, that
    is the value a clamping seek would store. *)
Theorem seek_stores_target (st : state) (time : Q) :
  exists st',
    step (Seek time) st = Some st' /\
    pauseTimeRef st' = time /\
    ((0 <= time)%Q /\ (time <= duration st)%Q ->
     (pauseTimeRef st' == clamp 0 (duration st) time)%Q).
Proof.
  assert (E : pauseTimeRef (fst (handleSeek time (isPlaying st) st)) = time).
  { unfold handleSeek, andThen, update, when, skip.
    cbn -[playAudio source_stop].
    destruct (isPlaying st); [|reflexivity].
    destruct (isSome _).
    - destruct (source_stop _) as [st1 [e|]] eqn:Es.
      + cbn [fst]. change st1 with (fst (st1, Some e)). rewrite <- Es.
        apply source_stop_pauseTimeRef.
      + rewrite playAudio_pauseTimeRef.
        change st1 with (fst (st1, @None exn)). rewrite <- Es.
        apply source_stop_pauseTimeRef.
    - apply playAudio_pauseTimeRef. }
  exists (fst (handleSeek time (isPlaying st) st)).
  split; [reflexivity|]. rewrite E. split; [reflexivity|].
  intros [Hlo Hhi]. unfold clamp.
  destruct (Qle_bool time 0) eqn:E0.
  - apply Qle_bool_iff in E0. apply Qle_antisym; assumption.
  - destruct (Qle_bool (duration st) time) eqn:E1; [|reflexivity].
    apply Qle_bool_iff in E1. apply Qle_antisym; assumption.
Qed.

Lemma seek_stores_target_witness :
  exists st',
    step (Seek 2) (initial (Some lesson)) = Some st' /\
    pauseTimeRef st' = 2%Q /\
    (pauseTimeRef st' == clamp 0 (duration (initial (Some lesson))) 2)%Q.
Proof.
  destruct (seek_stores_target (initial (Some lesson)) 2) as (st' & Hs & Hp & Hc).
  exists st'. split; [exact Hs|]. split; [exact Hp|].
  apply Hc. split; intro H; discriminate H.
Defined.

(** ** Overlapping sources *)

(** C8 fails on this run.  While the lesson plays, the user seeks to
    2.9 s of its 3 s: [handleSeek] stops the first source and starts a
    second one.  The [ended] event of the first source is dispatched
    next; by then [startTimeRef] belongs to the second source, the
    test of [onended] takes the event for the natural end, and
    [isPlaying] becomes false while the second source still plays.
    The play control then starts a third source: two sources are
    audible at once. *)
Theorem stale_ended_overlap :
  exists st,
    run [TogglePlay; Advance 1; Seek (29 # 10); Advance (1 # 100); Ended 0; TogglePlay]
        (initial (Some lesson)) = Some st /\
    length (aliveSources st) = 2%nat /\
    length (filter (fun s => audible (duration st) (now st) s = true) (sources st))
    = 2%nat.
Proof. eexists. split; [vm_compute; reflexivity|]. split; reflexivity. Qed.

Lemma noneAlive_oneAlive (st : state) : noneAlive st -> oneAlive st.
Proof. intros H i s Hs Ha. rewrite (H i s Hs) in Ha. discriminate. Qed.

Lemma oneAlive_currentOnly (st : state) : oneAlive st -> currentOnly st.
Proof. intros H i s Hs Ha. apply (H i s Hs Ha). Qed.

Lemma oneAlive_stopped (st : state) :
  oneAlive st -> isPlaying st = false -> noneAlive st.
Proof.
  intros H Hp i s Hs. destruct (alive s) eqn:Ha; [|reflexivity].
  destruct (H i s Hs Ha) as [_ Hp']. congruence.
Qed.

Lemma andThen_fst (a b : action) (st : state) :
  fst ((a ;> b) st)
  = match snd (a st) with
    | None => fst (b (fst (a st)))
    | Some _ => fst (a st)
    end.
Proof. unfold andThen. destruct (a st) as [st' [e|]]; reflexivity. Qed.

Lemma source_stop_noneAlive (st : state) :
  currentOnly st -> noneAlive (fst (source_stop st)).
Proof.
  intros H. unfold source_stop.
  assert (Hnone : forall j, sourceRef st = Some j ->
                    (forall s, sources st !! j = Some s -> alive s = false) ->
                    noneAlive st).
  { intros j Hj Hs i s Hi. destruct (alive s) eqn:Ha; [|reflexivity].
    pose proof (H i s Hi Ha) as Hr. rewrite Hj in Hr. injection Hr as ->.
    rewrite (Hs s Hi) in Ha. discriminate. }
  destruct (sourceRef st) as [j|] eqn:Hj.
  - destruct (sources st !! j) as [s|] eqn:Hs.
    + destruct (started s) eqn:Hst.
      * intros i s' Hi. cbn [fst] in Hi. cbn in Hi.
        destruct (decide (j = i)) as [->|Hne].
        -- rewrite list_lookup_insert_eq in Hi by (eapply lookup_lt_Some; eauto).
           injection Hi as <-. reflexivity.
        -- rewrite list_lookup_insert_ne in Hi by exact Hne.
           destruct (alive s') eqn:Ha; [|reflexivity].
           pose proof (H i s' Hi Ha) as Hr. congruence.
      * apply (Hnone j eq_refl). intros s' Hs'. rewrite Hs in Hs'. injection Hs' as <-.
        unfold alive. rewrite Hst. reflexivity.
    + apply (Hnone j eq_refl). intros s' Hs'. rewrite Hs in Hs'. discriminate.
  - intros i s Hi. destruct (alive s) eqn:Ha; [|reflexivity].
    pose proof (H i s Hi Ha) as Hr. congruence.
Qed.

Lemma source_stop_keeps (st : state) :
  isPlaying (fst (source_stop st)) = isPlaying st
  /\ audioBuffer (fst (source_stop st)) = audioBuffer st.
Proof.
  unfold source_stop. destruct (sourceRef st) as [i|]; [|split; reflexivity].
  destruct (sources st !! i) as [s|]; [|split; reflexivity].
  destruct (started s); split; reflexivity.
Qed.

Lemma playAudio_oneAlive (isPlaying_ : bool) (st : state) :
  noneAlive st -> oneAlive (fst (playAudio isPlaying_ st)).
Proof.
  intros H. destruct st. unfold noneAlive in H. cbn in H.
  unfold playAudio, initAudio, create_source, source_start, drawVisualizer, draw,
    andThen, update.
  cbn -[Qle_bool Qminus].
  destruct audioBuffer0; [|apply noneAlive_oneAlive; exact H].
  cbn -[Qle_bool Qminus].
  destruct (Qle_bool 0 pauseTimeRef0).
  - cbn -[Qle_bool Qminus]. rewrite insert_last.
    assert (G : forall i s,
               (sources0 ++ [mkSource true false false true now0 pauseTimeRef0]) !! i
               = Some s ->
               alive s = true -> Some (length sources0) = Some i).
    { intros i s Hi Ha.
      destruct (Nat.lt_ge_cases i (length sources0)) as [Hlt|Hge].
      - rewrite lookup_app_l in Hi by exact Hlt.
        rewrite (H i s Hi) in Ha. discriminate.
      - rewrite lookup_app_r in Hi by exact Hge.
        destruct (i - length sources0)%nat as [|k] eqn:Hk; [|discriminate Hi].
        f_equal. lia. }
    destruct isPlaying_; cbn -[Qle_bool Qminus]; intros i s Hi Ha; cbn in *;
      (split; [eapply G; eassumption | reflexivity]).
  - cbn -[Qle_bool Qminus]. apply noneAlive_oneAlive. intros i s Hi. cbn in Hi.
    destruct (Nat.lt_ge_cases i (length sources0)) as [Hlt|Hge].
    + rewrite lookup_app_l in Hi by exact Hlt. apply (H i s Hi).
    + rewrite lookup_app_r in Hi by exact Hge.
      destruct (i - length sources0)%nat as [|k]; [|discriminate Hi].
      injection Hi as <-. reflexivity.
Qed.

Lemma noneAlive_ext (st st' : state) :
  sources st' = sources st -> noneAlive st -> noneAlive st'.
Proof. intros E H i s Hi. rewrite E in Hi. apply (H i s Hi). Qed.

Lemma oneAlive_ext (st st' : state) :
  sources st' = sources st -> sourceRef st' = sourceRef st ->
  isPlaying st' = isPlaying st -> oneAlive st -> oneAlive st'.
Proof.
  intros Es Er Ep H i s Hi Ha. rewrite Es in Hi. rewrite Er, Ep. apply (H i s Hi Ha).
Qed.

Lemma keeps_andThen (a b : action) :
  keepsNoneAlive a -> keepsNoneAlive b -> keepsNoneAlive (a ;> b).
Proof.
  intros Ha Hb st H. rewrite andThen_fst.
  destruct (snd (a st)); [apply Ha, H | apply Hb, Ha, H].
Qed.

Lemma keeps_update (f : state -> state) :
  (forall st, sources (f st) = sources st) -> keepsNoneAlive (update f).
Proof. intros E st H. apply (noneAlive_ext st); [apply E | exact H]. Qed.

Lemma keeps_cancel_animation : keepsNoneAlive cancel_animation.
Proof.
  apply keeps_update. intros st. destruct (animationRef st); reflexivity.
Qed.

Lemma keeps_source_disconnect : keepsNoneAlive source_disconnect.
Proof.
  intros st H. unfold source_disconnect.
  destruct (sourceRef st) as [j|]; [|exact H].
  destruct (sources st !! j) as [s|] eqn:Hs; [|exact H].
  intros i s' Hi. cbn in Hi.
  destruct (decide (j = i)) as [->|Hne].
  - rewrite list_lookup_insert_eq in Hi by (eapply lookup_lt_Some; eauto).
    injection Hi as <-. exact (H i s Hs).
  - rewrite list_lookup_insert_ne in Hi by exact Hne. apply (H i s' Hi).
Qed.

Lemma stopsAll_andThen (a b : action) :
  stopsAll a -> keepsNoneAlive b -> stopsAll (a ;> b).
Proof.
  intros Ha Hb st H. rewrite andThen_fst.
  destruct (snd (a st)); [apply Ha, H | apply Hb, Ha, H].
Qed.

Lemma stopsAll_when_source (a : action) :
  stopsAll a -> stopsAll (when (fun st => isSome (sourceRef st)) a).
Proof.
  intros Ha st H. unfold when. destruct (sourceRef st) as [j|] eqn:Hj; cbn [isSome].
  - apply Ha, H.
  - intros i s Hi. destruct (alive s) eqn:Hal; [|reflexivity].
    pose proof (H i s Hi Hal). congruence.
Qed.

Lemma stopsAll_stopAudio : stopsAll stopAudio.
Proof.
  unfold stopAudio.
  apply stopsAll_andThen.
  - apply stopsAll_when_source, stopsAll_andThen;
      [exact source_stop_noneAlive | exact keeps_source_disconnect].
  - repeat apply keeps_andThen; try apply keeps_cancel_animation;
      apply keeps_update; reflexivity.
Qed.

Lemma togglePlay_oneAlive (st : state) :
  oneAlive st -> oneAlive (fst (togglePlay (isPlaying st) st)).
Proof.
  intros H. destruct (isPlaying st) eqn:Hp; cbn [togglePlay].
  - unfold pauseAudio, when. rewrite andb_true_r.
    destruct (sourceRef st) as [j|] eqn:Hj; cbn [isSome]; [|exact H].
    apply noneAlive_oneAlive.
    apply stopsAll_andThen; [exact source_stop_noneAlive| |apply oneAlive_currentOnly, H].
    repeat apply keeps_andThen; try apply keeps_cancel_animation;
      apply keeps_update; reflexivity.
  - apply playAudio_oneAlive, oneAlive_stopped; assumption.
Qed.

Lemma restart_oneAlive (st : state) :
  oneAlive st -> oneAlive (fst (restart (isPlaying st) st)).
Proof.
  intros H. unfold restart. rewrite andThen_fst.
  pose proof (stopsAll_stopAudio st (oneAlive_currentOnly st H)) as Hn.
  destruct (snd (stopAudio st)).
  - apply noneAlive_oneAlive, Hn.
  - apply playAudio_oneAlive, Hn.
Qed.

Lemma handleSeek_oneAlive (st : state) (time : Q) :
  oneAlive st -> oneAlive (fst (handleSeek time (isPlaying st) st)).
Proof.
  intros H. unfold handleSeek. rewrite !andThen_fst. cbn [update snd fst].
  set (st2 := set_pauseTimeRef time (setCurrentTime time st)).
  assert (H2 : oneAlive st2) by (apply (oneAlive_ext st); auto).
  destruct (isPlaying st); [|exact H2].
  rewrite andThen_fst.
  pose proof (stopsAll_when_source _ source_stop_noneAlive st2
                (oneAlive_currentOnly st2 H2)) as Hn.
  destruct (snd _).
  - apply noneAlive_oneAlive, Hn.
  - apply playAudio_oneAlive, Hn.
Qed.

Lemma draw_keeps (isPlaying_ : bool) (st : state) :
  sources (fst (draw isPlaying_ st)) = sources st
  /\ sourceRef (fst (draw isPlaying_ st)) = sourceRef st
  /\ isPlaying (fst (draw isPlaying_ st)) = isPlaying st.
Proof.
  unfold draw. destruct isPlaying_; cbn [negb]; [|repeat split].
  destruct (audioContextRef st); repeat split.
Qed.

Lemma step_oneAlive (ev : event) (st st' : state) :
  oneAlive st -> superseded st ev = false -> step ev st = Some st' -> oneAlive st'.
Proof.
  intros H Hev Hstep. destruct ev as [| |time| |dt|id|i]; cbn [step] in Hstep.
  - injection Hstep as <-. apply togglePlay_oneAlive, H.
  - injection Hstep as <-. apply restart_oneAlive, H.
  - injection Hstep as <-. apply handleSeek_oneAlive, H.
  - injection Hstep as <-. unfold toggleMute.
    destruct (gainNodeRef st); [|exact H]. apply (oneAlive_ext st); auto.
  - destruct (Qle_bool 0 dt); [|discriminate]. injection Hstep as <-.
    apply (oneAlive_ext st); auto.
  - destruct (find _ _) as [[? isPlaying_]|]; [|discriminate].
    injection Hstep as <-.
    match goal with
    | |- oneAlive (fst (draw _ ?s)) =>
        destruct (draw_keeps isPlaying_ s) as (Es & Er & Ep);
        apply (oneAlive_ext st); [rewrite Es|rewrite Er|rewrite Ep| exact H]; reflexivity
    end.
  - cbn [superseded] in Hev.
    destruct (sourceRef st) as [j|] eqn:Hj; [|discriminate].
    apply negb_false_iff, Nat.eqb_eq in Hev. subst j.
    destruct (sources st !! i) as [s|] eqn:Hs; [|discriminate].
    destruct (_ && _); [|discriminate]. injection Hstep as <-.
    apply noneAlive_oneAlive.
    assert (Hn : forall k s', <[i := mkSource (started s) (stopped s) true (connected s)
                                       (startedAt s) (offset s)]> (sources st) !! k = Some s'
                              -> alive s' = false).
    { intros k s' Hk. destruct (decide (i = k)) as [->|Hne].
      - rewrite list_lookup_insert_eq in Hk by (eapply lookup_lt_Some; eauto).
        injection Hk as <-. unfold alive. cbn. apply andb_false_r.
      - rewrite list_lookup_insert_ne in Hk by exact Hne.
        destruct (alive s') eqn:Ha; [|reflexivity].
        destruct (H k s' Hk Ha) as [Hr _]. congruence. }
    unfold onended. destruct (Qle_bool _ _); intros k s' Hk; apply (Hn k s' Hk).
Qed.

Lemma initial_oneAlive (audioBuffer : option AudioBuffer.t) :
  oneAlive (initial audioBuffer).
Proof. intros i s Hi. destruct i; discriminate Hi. Qed.

Lemma runCurrent_oneAlive (evs : list event) :
  forall st st', oneAlive st -> runCurrent evs st = Some st' -> oneAlive st'.
Proof.
  induction evs as [|ev evs IH]; intros st st' H Hrun; cbn [runCurrent] in Hrun.
  - injection Hrun as <-. exact H.
  - destruct (superseded st ev) eqn:Hev; [discriminate|].
    destruct (step ev st) as [st1|] eqn:Hstep; [|discriminate].
    cbn [mbind option_bind] in Hrun.
    apply (IH st1 st'); [|exact Hrun].
    apply (step_oneAlive ev st st1); assumption.
Qed.

Lemma oneAlive_count (l : list SourceNode) :
  (forall i j s s', l !! i = Some s -> l !! j = Some s' ->
                    alive s = true -> alive s' = true -> i = j) ->
  (length (filter (fun s => alive s = true) l) <= 1)%nat.
Proof.
  induction l as [|a l IH]; intros H; [cbn; lia|].
  rewrite filter_cons. destruct (decide (alive a = true)) as [Ha|Ha].
  - assert (E : filter (fun s => alive s = true) l = []).
    { assert (G : forall k s, l !! k = Some s -> alive s <> true).
      { intros k s Hk Hs.
        pose proof (H 0%nat (S k) a s eq_refl Hk Ha Hs). discriminate. }
      clear -G. induction l as [|b l IHl]; [reflexivity|].
      rewrite filter_cons_False by (apply (G 0%nat b); reflexivity).
      apply IHl. intros k s Hk. apply (G (S k) s Hk). }
    rewrite E. cbn. lia.
  - apply IH. intros i j s s' Hi Hj Hs Hs'.
    pose proof (H (S i) (S j) s s' Hi Hj Hs Hs'). lia.
Qed.

(** Over every run of the controls, the clock and the animation frames
    in which no [ended] event arrives for a source that has been
    replaced, at most one source is alive. *)
Lemma one_source_alive (audioBuffer : option AudioBuffer.t) (evs : list event)
    (st : state) :
  runCurrent evs (initial audioBuffer) = Some st ->
  (length (aliveSources st) <= 1)%nat.
Proof.
  intros Hrun.
  pose proof (runCurrent_oneAlive evs _ _ (initial_oneAlive audioBuffer) Hrun) as H.
  apply oneAlive_count. intros i j s s' Hi Hj Hs Hs'.
  destruct (H i s Hi Hs) as [Er _]. destruct (H j s' Hj Hs') as [Er' _].
  congruence.
Qed.

(** ** The visualizer *)

Lemma runFrames_leak (n : nat) :
  forall (st : state) (id : nat),
    frames st = [(id, true)] ->
    isPlaying st = false ->
    exists st' id',
      runFrames n st = Some st' /\
      isPlaying st' = false /\
      framesDrawn st' = (framesDrawn st + n)%nat /\
      frames st' = [(id', true)].
Proof.
  induction n as [|n IH]; intros st id Hf Hp.
  - exists st, id. rewrite Nat.add_0_r. repeat split; assumption.
  - cbn [runFrames]. rewrite Hf. cbn [step]. rewrite Hf.
    cbn [find fst]. rewrite Nat.eqb_refl.
    cbn [mbind option_bind].
    match goal with
    | |- context [runFrames n ?s] =>
        destruct (IH s (nextFrame st)) as (st' & id' & Hr & Hp' & Hd & Hf')
    end.
    + destruct st. cbn in Hf. subst. cbn. rewrite Nat.eqb_refl.
      destruct audioContextRef0; reflexivity.
    + destruct st. cbn in Hf, Hp. subst. cbn. rewrite Nat.eqb_refl.
      destruct audioContextRef0; reflexivity.
    + exists st', id'. split; [exact Hr|]. split; [exact Hp'|]. split; [|exact Hf'].
      rewrite Hd. destruct st. cbn in Hf. subst. cbn. rewrite Nat.eqb_refl.
      destruct audioContextRef0; cbn; lia.
Qed.

(** C9 fails on this run: play, two seeks while playing, pause.  Each
    seek starts a chain of [draw] callbacks whose [isPlaying] is the
    one of the render that ran [handleSeek], true for good; the pause
    cancels the request [animationRef] holds, which is the second
    chain's, and the first chain goes on: after the pause every
    animation frame draws and schedules the next one. *)
Theorem frames_after_pause :
  exists st,
    run [TogglePlay; Seek 1; Seek 2; TogglePlay] (initial (Some lesson)) = Some st /\
    isPlaying st = false /\
    forall n, exists st',
      runFrames n st = Some st' /\
      isPlaying st' = false /\
      framesDrawn st' = (framesDrawn st + n)%nat /\
      frames st' <> [].
Proof.
  eexists. split; [vm_compute; reflexivity|]. split; [reflexivity|].
  intros n.
  match goal with
  | |- context [runFrames n ?s] =>
      destruct (runFrames_leak n s 1%nat eq_refl eq_refl)
        as (st' & id' & Hr & Hp & Hd & Hf)
  end.
  exists st'. split; [exact Hr|]. split; [exact Hp|]. split; [exact Hd|].
  rewrite Hf. discriminate.
Qed.

(** With a single chain the pause does end the drawing. *)
Example one_chain_cancelled :
  exists st,
    run [TogglePlay; Seek 1; AnimationFrame 1; TogglePlay] (initial (Some lesson))
    = Some st /\
    isPlaying st = false /\ frames st = [].
Proof. eexists. split; [vm_compute; reflexivity|]. split; reflexivity. Qed.
End PlayerFacts.

(** * The clock of the player *)














(** * Further properties of the playback engine *)

Module TransportFacts.
Import Player PlayerFacts Transport.

Lemma draw_snd (p : bool) (st : state) : snd (draw p st) = None.
Proof. unfold draw. destruct (negb p); reflexivity. Qed.

Lemma draw_fields (p : bool) (st : state) :
  pauseTimeRef (fst (draw p st)) = pauseTimeRef st /\
  startTimeRef (fst (draw p st)) = startTimeRef st /\
  now (fst (draw p st)) = now st /\
  sourceRef (fst (draw p st)) = sourceRef st /\
  sources (fst (draw p st)) = sources st /\
  isPlaying (fst (draw p st)) = isPlaying st /\
  audioBuffer (fst (draw p st)) = audioBuffer st /\
  gainNodeRef (fst (draw p st)) = gainNodeRef st /\
  isMuted (fst (draw p st)) = isMuted st.
Proof.
  unfold draw. destruct (negb p); [repeat split; reflexivity|].
  destruct (audioContextRef st); repeat split; reflexivity.
Qed.

Lemma wellTimed_draw (p : bool) (st : state) :
  wellTimed st -> wellTimed (fst (draw p st)).
Proof.
  destruct (draw_fields p st) as (E1 & E2 & E3 & E4 & E5 & _).
  unfold wellTimed. rewrite E1, E2, E3, E4, E5. auto.
Qed.

Lemma source_stop_started (st : state) :
  wellTimed st ->
  snd (source_stop st) = None /\ wellTimed (fst (source_stop st)) /\
  audioBuffer (fst (source_stop st)) = audioBuffer st /\
  isPlaying (fst (source_stop st)) = isPlaying st.
Proof.
  intros H. pose proof H as (Hp & Ht & Hs). unfold source_stop.
  destruct (sourceRef st) as [i|] eqn:Hi; [|cbn; auto].
  destruct (Hs i eq_refl) as (s & Hl & Hst). rewrite Hl, Hst.
  cbn. repeat split; auto.
  intros j Hj. injection Hj as <-.
  eexists. split; [apply list_lookup_insert_eq; eapply lookup_lt_Some; eauto|reflexivity].
Qed.

Lemma safe_source_stop : safe source_stop.
Proof. intros st H. destruct (source_stop_started st H) as (? & ? & _). auto. Qed.

Lemma safe_andThen (a b : action) : safe a -> safe b -> safe (a ;> b).
Proof.
  intros Ha Hb st H. unfold andThen. destruct (Ha st H) as [Hs Hw].
  destruct (a st) as [st' [e|]]; [discriminate|]. apply Hb, Hw.
Qed.

Lemma safe_when (c : state -> bool) (a : action) : safe a -> safe (when c a).
Proof. intros Ha st H. unfold when. destruct (c st); [apply Ha, H | auto]. Qed.

Lemma safe_skip : safe skip.
Proof. intros st H. auto. Qed.

Lemma safe_update (f : state -> state) :
  (forall st, wellTimed st -> wellTimed (f st)) -> safe (update f).
Proof. intros Hf st H. split; [reflexivity | apply Hf, H]. Qed.

Lemma safe_draw (p : bool) : safe (draw p).
Proof. intros st H. split; [apply draw_snd | apply wellTimed_draw, H]. Qed.

Lemma safe_cancel_animation : safe cancel_animation.
Proof.
  apply safe_update. intros st H. destruct (animationRef st); exact H.
Qed.

Lemma safe_source_disconnect : safe source_disconnect.
Proof.
  intros st H. pose proof H as (Hp & Ht & Hs). unfold source_disconnect.
  destruct (sourceRef st) as [i|] eqn:Hi; [|auto].
  destruct (Hs i eq_refl) as (s & Hl & Hst). rewrite Hl.
  cbn. repeat split; auto.
  intros j Hj. injection Hj as <-.
  eexists. split; [apply list_lookup_insert_eq; eapply lookup_lt_Some; eauto|exact Hst].
Qed.

Lemma safe_playAudio (p : bool) : safe (playAudio p).
Proof.
  intros st H. pose proof H as (Hp & Ht & Hs).
  destruct (audioBuffer st) as [b|] eqn:Hb.
  - rewrite (playAudio_state p st b Hb) by (apply Qle_bool_iff; exact Hp).
    apply safe_draw. repeat split; cbn [pauseTimeRef startTimeRef now sourceRef sources].
    + exact Hp.
    + lra.
    + intros i Hi. injection Hi as <-. eexists.
      split; [apply list_lookup_middle; reflexivity | reflexivity].
  - unfold playAudio. rewrite Hb. auto.
Qed.

Lemma safe_pauseAudio (p : bool) : safe (pauseAudio p).
Proof.
  apply safe_when. repeat apply safe_andThen.
  - apply safe_source_stop.
  - apply safe_update. intros st (Hp & Ht & Hs). repeat split; cbn; auto. lra.
  - apply safe_update. intros st H. exact H.
  - apply safe_cancel_animation.
Qed.

Lemma safe_stopAudio : safe stopAudio.
Proof.
  unfold stopAudio. repeat apply safe_andThen.
  - apply safe_when, safe_andThen; [apply safe_source_stop | apply safe_source_disconnect].
  - apply safe_update. intros st H. exact H.
  - apply safe_update. intros st (Hp & Ht & Hs). repeat split; cbn; auto. lra.
  - apply safe_update. intros st H. exact H.
  - apply safe_cancel_animation.
Qed.

Lemma safe_handleSeek (time : Q) (p : bool) : (0 <= time)%Q -> safe (handleSeek time p).
Proof.
  intros Htime. unfold handleSeek. repeat apply safe_andThen.
  - apply safe_update. intros st H. exact H.
  - apply safe_update. intros st (Hp & Ht & Hs). repeat split; cbn; auto.
  - destruct p; [|apply safe_skip].
    apply safe_andThen; [apply safe_when, safe_source_stop | apply safe_playAudio].
Qed.

Lemma safe_handler (ev : event) (st st' : state) :
  wellTimed st -> fromSlider ev = true -> step ev st = Some st' ->
  raises ev st = None /\ wellTimed st'.
Proof.
  intros H Hev Hstep. destruct ev as [| |time| |dt|id|i]; cbn [step raises] in *.
  - injection Hstep as <-. unfold togglePlay.
    destruct (isPlaying st); [apply safe_pauseAudio | apply safe_playAudio]; exact H.
  - injection Hstep as <-.
    apply (safe_andThen _ _ safe_stopAudio (safe_playAudio _)), H.
  - injection Hstep as <-. apply safe_handleSeek; [|exact H].
    apply Qle_bool_iff. exact Hev.
  - injection Hstep as <-. unfold toggleMute.
    destruct (gainNodeRef st); auto.
  - destruct (Qle_bool 0 dt) eqn:Hdt; [|discriminate]. injection Hstep as <-.
    apply Qle_bool_iff in Hdt. destruct H as (Hp & Ht & Hs).
    repeat split; cbn; auto. lra.
  - destruct (find _ _) as [[? p]|]; [|discriminate]. injection Hstep as <-.
    split; [apply draw_snd|]. apply wellTimed_draw. exact H.
  - destruct (sources st !! i) as [s|] eqn:Hs; [|discriminate].
    destruct (_ && _); [|discriminate]. injection Hstep as <-.
    destruct H as (Hp & Ht & Hsrc).
    assert (Hw : wellTimed (set_sources (sourceRef st)
                   (<[i := mkSource (started s) (stopped s) true (connected s)
                             (startedAt s) (offset s)]> (sources st)) st)).
    { repeat split; cbn; auto. intros j Hj.
      destruct (Hsrc j Hj) as (s' & Hl & Hst).
      destruct (decide (i = j)) as [->|Hne].
      - rewrite Hs in Hl. injection Hl as <-. eexists.
        split; [apply list_lookup_insert_eq; eapply lookup_lt_Some; eauto | exact Hst].
      - exists s'. split; [rewrite list_lookup_insert_ne by exact Hne; exact Hl | exact Hst]. }
    unfold onended.
    split; [destruct (Qle_bool _ _); reflexivity|].
    destruct (Qle_bool _ _); [|exact Hw].
    destruct Hw as (Hp' & Ht' & Hs'). repeat split; cbn; auto. lra.
Qed.

Lemma wellTimed_initial (audioBuffer : option AudioBuffer.t) :
  wellTimed (initial audioBuffer).
Proof. repeat split; cbn; try lra. intros i Hi. discriminate. Qed.

Lemma run_wellTimed (evs : list event) :
  forall st st', wellTimed st -> forallb fromSlider evs = true ->
                 run evs st = Some st' -> wellTimed st'.
Proof.
  induction evs as [|ev evs IH]; intros st st' H Hevs Hrun; cbn [run] in Hrun.
  - injection Hrun as <-. exact H.
  - cbn [forallb] in Hevs. apply andb_true_iff in Hevs. destruct Hevs as [Hev Hevs].
    destruct (step ev st) as [st1|] eqn:Hstep; [|discriminate].
    cbn [mbind option_bind] in Hrun.
    apply (IH st1 st'); [|exact Hevs|exact Hrun].
    apply (safe_handler ev st st1 H Hev Hstep).
Qed.

(** X10: in every state reached from the initial one by events whose
    seek targets are not negative, no handler of such an event throws,
    the position to resume from is not negative and the start time
    does not lie in the future. *)
Theorem controls_never_throw (audioBuffer : option AudioBuffer.t)
    (evs : list event) (st : state) (ev : event) :
  forallb fromSlider evs = true ->
  run evs (initial audioBuffer) = Some st ->
  fromSlider ev = true ->
  raises ev st = None /\
  (0 <= pauseTimeRef st)%Q /\ (startTimeRef st <= now st)%Q.
Proof.
  intros Hevs Hrun Hev.
  pose proof (run_wellTimed evs _ _ (wellTimed_initial audioBuffer) Hevs Hrun) as H.
  split; [|destruct H as (? & ? & _); auto].
  destruct (step ev st) as [st'|] eqn:Hstep.
  - apply (safe_handler ev st st' H Hev Hstep).
  - destruct ev; try discriminate Hstep; cbn [step raises] in *.
    + reflexivity.
    + destruct (find _ _) as [[? p]|]; [discriminate | reflexivity].
    + unfold onended. destruct (Qle_bool _ _); reflexivity.
Qed.

Lemma inv_andThen (P : state -> Prop) (a b : action) :
  invariant P a -> invariant P b -> invariant P (a ;> b).
Proof.
  intros Ha Hb st H. unfold andThen. specialize (Ha st H).
  destruct (a st) as [st1 [e|]]; [exact Ha|]. apply Hb, Ha.
Qed.

Lemma inv_when (P : state -> Prop) (c : state -> bool) (a : action) :
  invariant P a -> invariant P (when c a).
Proof. intros Ha st H. unfold when. destruct (c st); [apply Ha, H | exact H]. Qed.

Lemma inv_update (P : state -> Prop) (g : state -> state) :
  (forall st, P st -> P (g st)) -> invariant P (update g).
Proof. intros Hg st H. apply Hg, H. Qed.

Lemma inv_skip (P : state -> Prop) : invariant P skip.
Proof. intros st H. exact H. Qed.

Lemma inv_source_stop (P : state -> Prop) :
  (forall r l st, P st -> P (set_sources r l st)) -> invariant P source_stop.
Proof.
  intros HP st H. unfold source_stop.
  destruct (sourceRef st); [|exact H].
  destruct (_ !! _) as [s|]; [|exact H].
  destruct (started s); [apply HP, H | exact H].
Qed.

Lemma inv_source_disconnect (P : state -> Prop) :
  (forall r l st, P st -> P (set_sources r l st)) -> invariant P source_disconnect.
Proof.
  intros HP st H. unfold source_disconnect.
  destruct (sourceRef st); [|exact H].
  destruct (_ !! _) as [s|]; [apply HP, H | exact H].
Qed.

Lemma inv_source_start (P : state -> Prop) (off : Q) :
  (forall r l st, P st -> P (set_sources r l st)) -> invariant P (source_start off).
Proof.
  intros HP st H. unfold source_start.
  destruct (Qle_bool 0 off); [|exact H].
  destruct (sourceRef st); [apply HP, H | exact H].
Qed.

Lemma inv_cancel_animation (P : state -> Prop) :
  (forall id st, P st ->
     P (set_frames (animationRef st)
          (filter (fun f : Frame => negb (fst f =? id)%nat) (frames st))
          (nextFrame st) (framesDrawn st) st)) ->
  invariant P cancel_animation.
Proof.
  intros HP st H. unfold cancel_animation, update. cbn [fst].
  destruct (animationRef st) as [id|] eqn:E; [|exact H].
  rewrite <- E. apply HP, H.
Qed.

Lemma inv_draw_false (P : state -> Prop) : invariant P (draw false).
Proof. intros st H. exact H. Qed.

Lemma inv_draw (P : state -> Prop) (p : bool) :
  (forall r l n d st, P st -> P (set_frames r l n d st)) ->
  (forall t st, P st -> P (setCurrentTime t st)) ->
  invariant P (draw p).
Proof.
  intros H1 H2 st H. unfold draw. destruct (negb p); [exact H|].
  cbn [fst]. apply H1. destruct (audioContextRef st); [apply H2, H | exact H].
Qed.

Lemma inv_playAudio (P : state -> Prop) (p : bool) :
  (forall c g a st, P st -> P (set_nodes c g a st)) ->
  (forall r l st, P st -> P (set_sources r l st)) ->
  (forall t st, P st -> P (set_startTimeRef t st)) ->
  (forall b st, P st -> P (setIsPlaying b st)) ->
  invariant P (draw p) ->
  invariant P (playAudio p).
Proof.
  intros H1 H2 H3 H4 H5 st. unfold playAudio. destruct (audioBuffer st) eqn:Hb; [|auto].
  revert st Hb.
  assert (K : invariant P
                (initAudio ;> create_source ;>
                 (fun st => (source_start (pauseTimeRef st) ;>
                             update (fun st0 => set_startTimeRef (now st0 - pauseTimeRef st)%Q st0)) st) ;>
                 update (setIsPlaying true) ;> drawVisualizer p)).
  { repeat apply inv_andThen.
    - intros st H. unfold initAudio. destruct (audioBuffer st); [apply H1, H | exact H].
    - apply inv_update. intros st. apply H2.
    - intros st. apply (inv_andThen P).
      + apply inv_source_start. exact H2.
      + apply inv_update. intros st0. apply H3.
    - apply inv_update. intros st. apply H4.
    - intros st H. unfold drawVisualizer. destruct (negb (analyzerRef st)); [exact H|].
      apply H5, H. }
  intros st _. apply K.
Qed.

Lemma inv_pauseAudio (P : state -> Prop) (p : bool) :
  (forall r l st, P st -> P (set_sources r l st)) ->
  (forall t st, P st -> P (set_pauseTimeRef t st)) ->
  (forall b st, P st -> P (setIsPlaying b st)) ->
  invariant P cancel_animation ->
  invariant P (pauseAudio p).
Proof.
  intros H1 H2 H3 H4. apply inv_when. repeat apply inv_andThen.
  - apply inv_source_stop. exact H1.
  - apply inv_update. intros st. apply H2.
  - apply inv_update. intros st. apply H3.
  - exact H4.
Qed.

Lemma inv_stopAudio (P : state -> Prop) :
  (forall r l st, P st -> P (set_sources r l st)) ->
  (forall t st, P st -> P (set_pauseTimeRef t st)) ->
  (forall b st, P st -> P (setIsPlaying b st)) ->
  (forall t st, P st -> P (setCurrentTime t st)) ->
  invariant P cancel_animation ->
  invariant P stopAudio.
Proof.
  intros H1 H2 H3 H4 H5. unfold stopAudio. repeat apply inv_andThen.
  - apply inv_when, inv_andThen; [apply inv_source_stop | apply inv_source_disconnect]; exact H1.
  - apply inv_update. intros st. apply H3.
  - apply inv_update. intros st. apply H2.
  - apply inv_update. intros st. apply H4.
  - exact H5.
Qed.

Lemma inv_handleSeek (P : state -> Prop) (time : Q) (p : bool) :
  (forall r l st, P st -> P (set_sources r l st)) ->
  (forall t st, P st -> P (set_pauseTimeRef t st)) ->
  (forall t st, P st -> P (setCurrentTime t st)) ->
  invariant P (playAudio p) ->
  invariant P (handleSeek time p).
Proof.
  intros H1 H2 H3 H4. unfold handleSeek. repeat apply inv_andThen.
  - apply inv_update. intros st. apply H3.
  - apply inv_update. intros st. apply H2.
  - destruct p; [|apply inv_skip].
    apply inv_andThen; [apply inv_when, inv_source_stop; exact H1 | exact H4].
Qed.

Lemma audioBuffer_playAudio (b : option AudioBuffer.t) (p : bool) :
  invariant (fun st => audioBuffer st = b) (playAudio p).
Proof. apply inv_playAudio; try (intros; assumption). apply inv_draw; intros; assumption. Qed.

Lemma step_audioBuffer (ev : event) (st st' : state) :
  step ev st = Some st' -> audioBuffer st' = audioBuffer st.
Proof.
  intros Hstep.
  set (P := fun s : state => audioBuffer s = audioBuffer st).
  assert (Hc : invariant P cancel_animation)
    by (apply inv_cancel_animation; intros; assumption).
  change (P st'). assert (H : P st) by reflexivity.
  destruct ev as [| |time| |dt|id|i]; cbn [step] in Hstep.
  - injection Hstep as <-. unfold togglePlay.
    destruct (isPlaying st);
      [apply inv_pauseAudio | apply audioBuffer_playAudio]; auto.
  - injection Hstep as <-.
    apply (inv_andThen P); [apply inv_stopAudio | apply audioBuffer_playAudio | ]; auto.
  - injection Hstep as <-.
    apply inv_handleSeek; auto. apply audioBuffer_playAudio.
  - injection Hstep as <-. unfold toggleMute. destruct (gainNodeRef st); exact H.
  - destruct (Qle_bool 0 dt); [|discriminate]. injection Hstep as <-. exact H.
  - destruct (find _ _) as [[? p]|]; [|discriminate]. injection Hstep as <-.
    apply inv_draw; auto.
  - destruct (_ !! i) as [s|]; [|discriminate].
    destruct (_ && _); [|discriminate]. injection Hstep as <-.
    unfold onended. destruct (Qle_bool _ _); exact H.
Qed.

Lemma run_audioBuffer (evs : list event) :
  forall st st', run evs st = Some st' -> audioBuffer st' = audioBuffer st.
Proof.
  induction evs as [|ev evs IH]; intros st st' Hrun; cbn [run] in Hrun.
  - injection Hrun as <-. reflexivity.
  - destruct (step ev st) as [st1|] eqn:Hstep; [|discriminate].
    cbn [mbind option_bind] in Hrun.
    rewrite (IH st1 st' Hrun). apply (step_audioBuffer ev st st1 Hstep).
Qed.

Lemma jammed_stop (st : state) :
  jammed st -> source_stop st = (st, Some InvalidStateError).
Proof.
  intros (_ & i & s & Hi & Hs & Hst). unfold source_stop. rewrite Hi, Hs, Hst. reflexivity.
Qed.

Lemma jammed_step (ev : event) (st st' : state) :
  jammed st -> control ev = true -> step ev st = Some st' -> jammed st'.
Proof.
  intros H Hev Hstep. pose proof H as (Hp & i & s & Hi & Hs & Hst).
  destruct ev as [| |time| |dt|id|j]; cbn [step] in Hstep; try discriminate Hev.
  - injection Hstep as <-. rewrite Hp. unfold togglePlay, pauseAudio, when, andThen.
    rewrite Hi. cbn [isSome andb]. rewrite (jammed_stop st H). exact H.
  - injection Hstep as <-. unfold restart, stopAudio, when, andThen.
    rewrite Hi. cbn [isSome]. rewrite (jammed_stop st H). exact H.
  - injection Hstep as <-. rewrite Hp. unfold handleSeek, when, andThen, update.
    cbn [sourceRef set_pauseTimeRef setCurrentTime isSome].
    rewrite Hi. cbn [isSome].
    assert (J : jammed (set_pauseTimeRef time (setCurrentTime time st))).
    { split; [exact Hp|]. exists i, s. auto. }
    rewrite (jammed_stop _ J). exact J.
  - injection Hstep as <-. unfold toggleMute.
    destruct (gainNodeRef st); [|exact H]. split; [exact Hp|]. exists i, s. auto.
  - destruct (Qle_bool 0 dt); [|discriminate]. injection Hstep as <-.
    split; [exact Hp|]. exists i, s. auto.
  - destruct (find _ _) as [[? p]|]; [|discriminate]. injection Hstep as <-.
    match goal with
    | |- jammed (fst (draw _ ?s0)) =>
        destruct (draw_fields p s0) as (_ & _ & _ & E4 & E5 & E6 & _)
    end.
    split; [rewrite E6; exact Hp|]. exists i, s. rewrite E4, E5. auto.
Qed.

Lemma jammed_raises (st : state) :
  jammed st ->
  raises TogglePlay st = Some InvalidStateError /\
  raises Restart st = Some InvalidStateError /\
  forall time, raises (Seek time) st = Some InvalidStateError.
Proof.
  intros H. pose proof H as (Hp & i & s & Hi & Hs & Hst). cbn [raises]. rewrite Hp.
  repeat split.
  - unfold togglePlay, pauseAudio, when, andThen.
    rewrite Hi. cbn [isSome andb]. rewrite (jammed_stop st H). reflexivity.
  - unfold restart, stopAudio, when, andThen.
    rewrite Hi. cbn [isSome]. rewrite (jammed_stop st H). reflexivity.
  - intros time. unfold handleSeek, when, andThen, update.
    cbn [sourceRef set_pauseTimeRef setCurrentTime isSome].
    rewrite Hi. cbn [isSome].
    assert (J : jammed (set_pauseTimeRef time (setCurrentTime time st))).
    { split; [exact Hp|]. exists i, s. auto. }
    rewrite (jammed_stop _ J). reflexivity.
Qed.

Lemma jammed_run (evs : list event) :
  forall st st', jammed st -> forallb control evs = true -> run evs st = Some st' ->
                 jammed st'.
Proof.
  induction evs as [|ev evs IH]; intros st st' H Hevs Hrun; cbn [run] in Hrun.
  - injection Hrun as <-. exact H.
  - cbn [forallb] in Hevs. apply andb_true_iff in Hevs. destruct Hevs as [Hev Hevs].
    destruct (step ev st) as [st1|] eqn:Hstep; [|discriminate].
    cbn [mbind option_bind] in Hrun.
    apply (IH st1 st'); [|exact Hevs|exact Hrun].
    apply (jammed_step ev st st1 H Hev Hstep).
Qed.

Lemma andThen_update (f : state -> state) (b : action) (st : state) :
  (update f ;> b) st = b (f st).
Proof. reflexivity. Qed.

Lemma playAudio_negative (p : bool) (st : state) (buffer : AudioBuffer.t) :
  audioBuffer st = Some buffer ->
  Qle_bool 0 (pauseTimeRef st) = false ->
  playAudio p st
  = (mkState (audioBuffer st) (isPlaying st) (currentTime st) (isMuted st) true
       (Some (length (sources st))) (Some 1%Q) true (animationRef st)
       (startTimeRef st) (pauseTimeRef st) (now st)
       (sources st ++ [mkSource false false false true 0%Q 0%Q])
       (frames st) (nextFrame st) (framesDrawn st), Some RangeError).
Proof.
  intros Hb Hp. destruct st. cbn in Hb, Hp. subst.
  unfold playAudio, initAudio, create_source, source_start, drawVisualizer,
    andThen, update.
  cbn -[Qle_bool Qminus draw]. rewrite Hp. reflexivity.
Qed.

Lemma negative_seek_state (st : state) (buffer : AudioBuffer.t) (time : Q) :
  wellTimed st -> audioBuffer st = Some buffer -> isPlaying st = true -> (time < 0)%Q ->
  snd (handleSeek time true st) = Some RangeError /\ jammed (fst (handleSeek time true st)).
Proof.
  intros (_ & _ & Hs) Hb Hp Htime.
  assert (Hneg : Qle_bool 0 time = false).
  { destruct (Qle_bool 0 time) eqn:E; [|reflexivity]. apply Qle_bool_iff in E. lra. }
  unfold handleSeek. rewrite !andThen_update.
  set (st1 := set_pauseTimeRef time (setCurrentTime time st)).
  assert (Hstop : exists st2, (when (fun st => isSome (sourceRef st)) source_stop) st1 = (st2, None)
                              /\ audioBuffer st2 = Some buffer /\ isPlaying st2 = true
                              /\ pauseTimeRef st2 = time).
  { unfold when, source_stop. subst st1. cbn [sourceRef set_pauseTimeRef setCurrentTime sources].
    destruct (sourceRef st) as [i|] eqn:Hi; cbn [isSome].
    - destruct (Hs i eq_refl) as (s & Hl & Hst). rewrite Hl, Hst.
      eexists. split; [reflexivity|]. cbn. auto.
    - eexists. split; [reflexivity|]. cbn. auto. }
  destruct Hstop as (st2 & E & Hb2 & Hp2 & Ht2).
  unfold andThen. rewrite E.
  rewrite (playAudio_negative true st2 buffer Hb2) by (rewrite Ht2; exact Hneg).
  cbn [fst snd]. split; [reflexivity|].
  split; [exact Hp2|].
  eexists _, _. cbn [sourceRef sources].
  split; [reflexivity|]. split; [apply list_lookup_middle; reflexivity | reflexivity].
Qed.

(** X11: a seek to a negative time while playing throws RangeError
    out of [start()], and leaves the player jammed: through any further
    controls, clock ticks and animation frames it still counts as
    playing, and play/pause, restart and every seek throw
    InvalidStateError, since [sourceRef] holds a node that was never
    started. *)
Theorem negative_seek_jams (buffer : AudioBuffer.t) (evs : list event) (st : state)
    (time : Q) :
  forallb fromSlider evs = true ->
  run evs (initial (Some buffer)) = Some st ->
  isPlaying st = true ->
  (time < 0)%Q ->
  raises (Seek time) st = Some RangeError /\
  exists st',
    step (Seek time) st = Some st' /\
    forall evs' st'',
      forallb control evs' = true ->
      run evs' st' = Some st'' ->
      isPlaying st'' = true /\
      raises TogglePlay st'' = Some InvalidStateError /\
      raises Restart st'' = Some InvalidStateError /\
      forall time', raises (Seek time') st'' = Some InvalidStateError.
Proof.
  intros Hevs Hrun Hp Htime.
  pose proof (run_wellTimed evs _ _ (wellTimed_initial (Some buffer)) Hevs Hrun) as Hw.
  pose proof (run_audioBuffer evs _ _ Hrun) as Hb. cbn in Hb.
  destruct (negative_seek_state st buffer time Hw Hb Hp Htime) as [Hr Hj].
  cbn [raises step]. rewrite Hp. split; [exact Hr|].
  eexists. split; [reflexivity|].
  intros evs' st'' Hevs' Hrun'.
  pose proof (jammed_run evs' _ _ Hj Hevs' Hrun') as Hj'.
  split; [apply Hj'|]. apply jammed_raises, Hj'.
Qed.

Lemma inert_step (ev : event) (st st' : state) :
  inert st -> step ev st = Some st' -> inert st'.
Proof.
  intros (Hb & Hs & Hf & Hp & Hr & Hg & Hm & Hd & Hc) Hstep.
  destruct st. cbn in Hb, Hs, Hf, Hp, Hr, Hg, Hm, Hd, Hc. subst.
  destruct ev as [| |time| |dt|id|i]; cbn -[Qle_bool] in Hstep.
  - injection Hstep as <-. repeat split.
  - injection Hstep as <-. unfold restart, stopAudio, playAudio, when, andThen, update,
      cancel_animation. cbn. destruct animationRef0; repeat split.
  - injection Hstep as <-. repeat split.
  - injection Hstep as <-. repeat split.
  - destruct (Qle_bool 0 dt); [|discriminate]. injection Hstep as <-. repeat split.
  - discriminate.
  - destruct i; discriminate.
Qed.

(** X12: a player that was given no buffer does nothing: whatever
    the events, it never plays, creates no audio context, no source
    node and no animation frame, the mute control has no effect, and no
    handler throws. *)
Theorem no_buffer_no_playback (evs : list event) (st : state) :
  run evs (initial None) = Some st ->
  isPlaying st = false /\ sources st = [] /\ frames st = [] /\
  framesDrawn st = 0%nat /\ isMuted st = false /\ audioContextRef st = false /\
  forall ev, raises ev st = None.
Proof.
  intros Hrun.
  assert (H : inert st).
  { assert (G : forall evs st0, inert st0 -> run evs st0 = Some st -> inert st).
    { clear. induction evs as [|ev evs IH]; intros st0 H0 Hrun; cbn [run] in Hrun.
      - injection Hrun as <-. exact H0.
      - destruct (step ev st0) as [st1|] eqn:Hstep; [|discriminate].
        apply (IH st1); [apply (inert_step ev st0 st1 H0 Hstep) | exact Hrun]. }
    apply (G evs (initial None)); [repeat split | exact Hrun]. }
  destruct H as (Hb & Hs & Hf & Hp & Hr & Hg & Hm & Hd & Hc).
  repeat split; try assumption.
  intros ev. destruct st. cbn in Hb, Hs, Hf, Hp, Hr, Hg, Hm, Hd, Hc. subst.
  destruct ev; cbn -[Qle_bool]; try reflexivity.
  - unfold restart, stopAudio, playAudio, when, andThen, update, cancel_animation.
    cbn. destruct animationRef0; reflexivity.
  - unfold onended. destruct (Qle_bool _ _); reflexivity.
Qed.

Lemma undrawn_cancel_animation : invariant undrawn cancel_animation.
Proof.
  apply inv_cancel_animation. intros id st (Hf & Hd & Hc & Ha).
  unfold undrawn. cbn. rewrite Hf. auto.
Qed.

Lemma undrawn_step (ev : event) (st st' : state) :
  undrawn st -> plain ev = true -> step ev st = Some st' -> undrawn st'.
Proof.
  intros H Hev Hstep.
  destruct ev as [| |time| |dt|id|i]; cbn [step] in Hstep; try discriminate Hev.
  - injection Hstep as <-. unfold togglePlay. destruct (isPlaying st).
    + apply inv_pauseAudio; auto. apply undrawn_cancel_animation.
    + apply inv_playAudio; auto. apply inv_draw_false.
  - injection Hstep as <-. unfold toggleMute. destruct (gainNodeRef st); exact H.
  - destruct (Qle_bool 0 dt); [|discriminate]. injection Hstep as <-. exact H.
  - destruct H as (Hf & _). rewrite Hf in Hstep. discriminate.
  - destruct (_ !! i) as [s|]; [|discriminate].
    destruct (_ && _); [|discriminate]. injection Hstep as <-.
    unfold onended. destruct (Qle_bool _ _); [|exact H].
    destruct H as (Hf & Hd & Hc & Ha). repeat split; assumption.
Qed.

(** X13: as long as the user neither seeks nor presses restart,
    nothing is ever drawn and the displayed time stays at 0, however
    long the audio plays: the [draw] callback that play creates holds
    the [isPlaying] of the render before, which is false. *)
Theorem plain_play_draws_nothing (audioBuffer : option AudioBuffer.t)
    (evs : list event) (st : state) :
  forallb plain evs = true ->
  run evs (initial audioBuffer) = Some st ->
  framesDrawn st = 0%nat /\ frames st = [] /\ currentTime st = 0%Q.
Proof.
  intros Hevs Hrun.
  assert (G : forall evs st0, undrawn st0 -> forallb plain evs = true ->
                              run evs st0 = Some st -> undrawn st).
  { clear. induction evs as [|ev evs IH]; intros st0 H0 Hevs Hrun; cbn [run] in Hrun.
    - injection Hrun as <-. exact H0.
    - cbn [forallb] in Hevs. apply andb_true_iff in Hevs. destruct Hevs as [Hev Hevs].
      destruct (step ev st0) as [st1|] eqn:Hstep; [|discriminate].
      apply (IH st1); [apply (undrawn_step ev st0 st1 H0 Hev Hstep) | exact Hevs | exact Hrun]. }
  destruct (G evs (initial audioBuffer)) as (Hf & Hd & Hc & _); auto.
  repeat split.
Qed.

Lemma playAudio_started (p : bool) (st : state) (buffer : AudioBuffer.t) :
  wellTimed st -> audioBuffer st = Some buffer ->
  isPlaying (fst (playAudio p st)) = true /\
  startTimeRef (fst (playAudio p st)) = (now st - pauseTimeRef st)%Q /\
  now (fst (playAudio p st)) = now st /\
  sourceRef (fst (playAudio p st)) = Some (length (sources st)) /\
  sources (fst (playAudio p st))
  = sources st ++ [mkSource true false false true (now st) (pauseTimeRef st)] /\
  gainNodeRef (fst (playAudio p st)) = Some 1%Q /\
  isMuted (fst (playAudio p st)) = isMuted st.
Proof.
  intros (Hp & _) Hb.
  rewrite (playAudio_state p st buffer Hb) by (apply Qle_bool_iff; exact Hp).
  match goal with
  | |- context [draw p ?s0] =>
      destruct (draw_fields p s0) as (_ & E2 & E3 & E4 & E5 & E6 & _ & E8 & E9)
  end.
  rewrite E2, E3, E4, E5, E6, E8, E9. repeat split.
Qed.

Lemma stop_current (st : state) :
  wellTimed st ->
  exists st1,
    when (fun st => isSome (sourceRef st)) source_stop st = (st1, None) /\
    wellTimed st1 /\ audioBuffer st1 = audioBuffer st /\ isMuted st1 = isMuted st /\
    now st1 = now st /\ pauseTimeRef st1 = pauseTimeRef st /\
    length (sources st1) = length (sources st) /\
    isPlaying st1 = isPlaying st /\ sourceRef st1 = sourceRef st /\
    (forall j s, sourceRef st = Some j -> sources st1 !! j = Some s -> stopped s = true).
Proof.
  intros H. pose proof H as (Hp & Ht & Hs). unfold when, source_stop.
  destruct (sourceRef st) as [i|] eqn:Hi; cbn [isSome].
  - destruct (Hs i eq_refl) as (s & Hl & Hst). rewrite Hl, Hst.
    eexists. split; [reflexivity|].
    cbn [audioBuffer isMuted now pauseTimeRef sources set_sources isPlaying sourceRef].
    repeat split; auto.
    + intros j Hj. cbn in Hj. injection Hj as <-.
      eexists. split; [apply list_lookup_insert_eq; eapply lookup_lt_Some; eauto|reflexivity].
    + apply length_insert.
    + intros j s0 Hj Hl0. injection Hj as <-.
      rewrite list_lookup_insert_eq in Hl0 by (eapply lookup_lt_Some; eauto).
      injection Hl0 as <-. reflexivity.
  - exists st. repeat split; auto.
    + intros i Hi'. congruence.
    + intros j s0 Hj. discriminate.
Qed.

Lemma cancel_animation_fields (st : state) :
  cancel_animation st
  = (set_frames (animationRef st) (frames (fst (cancel_animation st)))
       (nextFrame st) (framesDrawn st) st, None).
Proof.
  unfold cancel_animation, update. destruct (animationRef st) eqn:E; cbn [fst frames set_frames].
  - reflexivity.
  - destruct st. cbn in E. subst. reflexivity.
Qed.

Lemma stopAudio_result (st : state) :
  wellTimed st ->
  exists st1,
    stopAudio st = (st1, None) /\
    wellTimed st1 /\ audioBuffer st1 = audioBuffer st /\ isMuted st1 = isMuted st /\
    now st1 = now st /\ pauseTimeRef st1 = 0%Q /\
    length (sources st1) = length (sources st) /\
    (forall j s, sourceRef st = Some j -> sources st1 !! j = Some s -> stopped s = true).
Proof.
  intros H. pose proof H as (Hp & Ht & Hs).
  unfold stopAudio. unfold andThen at 1.
  assert (E : exists st0,
             when (fun st => isSome (sourceRef st)) (source_stop ;> source_disconnect) st
             = (st0, None) /\
             startTimeRef st0 = startTimeRef st /\ audioBuffer st0 = audioBuffer st /\
             isMuted st0 = isMuted st /\ now st0 = now st /\
             length (sources st0) = length (sources st) /\
             sourceRef st0 = sourceRef st /\
             (forall j, sourceRef st = Some j ->
                exists s, sources st0 !! j = Some s /\ started s = true /\ stopped s = true)).
  { unfold when, andThen, source_stop, source_disconnect.
    destruct (sourceRef st) as [i|] eqn:Hi; cbn [isSome].
    - destruct (Hs i eq_refl) as (s & Hl & Hst). rewrite Hl, Hst.
      cbn [sourceRef sources set_sources].
      rewrite list_lookup_insert_eq by (eapply lookup_lt_Some; eauto).
      eexists. split; [reflexivity|].
      cbn [startTimeRef audioBuffer isMuted now sources sourceRef set_sources
           started stopped ended connected startedAt offset].
      repeat split.
      + rewrite !length_insert. reflexivity.
      + intros j Hj. injection Hj as <-. eexists.
        split; [apply list_lookup_insert_eq; rewrite length_insert; eapply lookup_lt_Some; eauto|].
        split; reflexivity.
    - exists st. repeat split; [exact Hi | intros j Hj; discriminate]. }
  destruct E as (st0 & -> & E1 & E2 & E3 & E4 & E5 & E6 & E7).
  rewrite !andThen_update. rewrite cancel_animation_fields.
  eexists. split; [reflexivity|].
  cbn [audioBuffer isMuted now pauseTimeRef sources set_frames setCurrentTime
       set_pauseTimeRef setIsPlaying].
  repeat split; auto.
  - cbn. lra.
  - cbn. rewrite E1, E4. exact Ht.
  - cbn. intros j Hj. rewrite E6 in Hj. destruct (E7 j Hj) as (s & Hl & Hst & _). eauto.
  - intros j s Hj Hl. destruct (E7 j Hj) as (s' & Hl' & _ & Hstop). congruence.
Qed.

Lemma starting_state (buffer : AudioBuffer.t) (st : state) (ev : event) (t : Q) :
  wellTimed st -> audioBuffer st = Some buffer ->
  fromSlider ev = true -> startsAt ev st = Some t ->
  exists st',
    step ev st = Some st' /\
    isPlaying st' = true /\
    startTimeRef st' = (now st - t)%Q /\ now st' = now st /\
    sourceRef st' = Some (length (sources st)) /\
    sources st' !! length (sources st) = Some (mkSource true false false true (now st) t) /\
    gainNodeRef st' = Some 1%Q /\ isMuted st' = isMuted st /\
    (forall j s, ev <> TogglePlay -> sourceRef st = Some j ->
                 sources st' !! j = Some s -> stopped s = true).
Proof.
  intros Hw Hb Hev Hat.
  destruct ev as [| |time| |dt|id|i]; cbn [startsAt] in Hat; try discriminate Hat;
    cbn [step]; eexists; (split; [reflexivity|]).
  - destruct (isPlaying st) eqn:Hp; [discriminate|]. injection Hat as <-.
    unfold togglePlay.
    destruct (playAudio_started false st buffer Hw Hb) as (E1 & E2 & E3 & E4 & E5 & E6 & E7).
    rewrite E1, E2, E3, E4, E5, E6, E7. repeat split.
    + apply list_lookup_middle. reflexivity.
    + intros j s Hne. congruence.
  - injection Hat as <-. unfold restart, andThen.
    destruct (stopAudio_result st Hw) as (st1 & -> & Hw1 & F1 & F2 & F3 & F4 & F5 & F6).
    rewrite <- F1 in Hb.
    destruct (playAudio_started (isPlaying st) st1 buffer Hw1 Hb)
      as (E1 & E2 & E3 & E4 & E5 & E6 & E7).
    rewrite E1, E2, E3, E4, E5, E6, E7, F2, F3, F4, F5. repeat split.
    + apply list_lookup_middle. symmetry. exact F5.
    + intros j s _ Hj Hl.
      pose proof (lookup_lt_Some _ _ _ Hl) as Hlt.
      destruct (decide (j < length (sources st1))%nat) as [Hjl|Hjl].
      * rewrite lookup_app_l in Hl by exact Hjl. eapply F6; eauto.
      * destruct Hw as (_ & _ & Hs). destruct (Hs j Hj) as (s' & Hl' & _).
        apply lookup_lt_Some in Hl'. lia.
  - destruct (isPlaying st) eqn:Hp; [|discriminate]. injection Hat as <-.
    cbn [fromSlider] in Hev. apply Qle_bool_iff in Hev.
    unfold handleSeek. rewrite !andThen_update.
    set (st0 := set_pauseTimeRef time (setCurrentTime time st)).
    assert (Hw0 : wellTimed st0).
    { destruct Hw as (Hp0 & Ht0 & Hs0). repeat split; auto. }
    unfold andThen.
    destruct (stop_current st0 Hw0)
      as (st1 & -> & Hw1 & F1 & F2 & F3 & F4 & F5 & _ & _ & F6).
    assert (Hb1 : audioBuffer st1 = Some buffer) by (rewrite F1; exact Hb).
    destruct (playAudio_started true st1 buffer Hw1 Hb1)
      as (E1 & E2 & E3 & E4 & E5 & E6 & E7).
    rewrite E1, E2, E3, E4, E5, E6, E7, F2, F3, F4, F5. repeat split.
    + apply list_lookup_middle. symmetry. exact F5.
    + intros j s _ Hj Hl.
      pose proof (lookup_lt_Some _ _ _ Hl) as Hlt.
      destruct (decide (j < length (sources st1))%nat) as [Hjl|Hjl].
      * rewrite lookup_app_l in Hl by exact Hjl. eapply F6; eauto.
      * destruct Hw as (_ & _ & Hs). destruct (Hs j Hj) as (s' & Hl' & _).
        apply lookup_lt_Some in Hl'. subst st0. cbn in F5. lia.
Qed.

(** The controls that start playback add one source node. *)
Lemma starting_length (buffer : AudioBuffer.t) (st st' : state) (ev : event) (t : Q) :
  wellTimed st -> audioBuffer st = Some buffer ->
  fromSlider ev = true -> startsAt ev st = Some t ->
  step ev st = Some st' ->
  length (sources st') = S (length (sources st)).
Proof.
  intros Hw Hb Hev Hat Hstep.
  assert (Hplay : forall p st1, wellTimed st1 -> audioBuffer st1 = audioBuffer st ->
            length (sources st1) = length (sources st) ->
            length (sources (fst (playAudio p st1))) = S (length (sources st))).
  { intros p st1 Hw1 Hb1 Hl. rewrite Hb in Hb1.
    destruct (playAudio_started p st1 buffer Hw1 Hb1) as (_ & _ & _ & _ & E5 & _).
    rewrite E5, length_app, Hl. cbn. lia. }
  destruct ev as [| |time| |dt|id|i]; cbn [startsAt] in Hat; try discriminate Hat;
    cbn [step] in Hstep; injection Hstep as <-.
  - destruct (isPlaying st) eqn:Hp; [discriminate|].
    unfold togglePlay. apply Hplay; auto.
  - unfold restart, andThen.
    destruct (stopAudio_result st Hw) as (st1 & -> & Hw1 & F1 & _ & _ & _ & F5 & _).
    apply Hplay; auto.
  - destruct (isPlaying st) eqn:Hp; [|discriminate].
    cbn [fromSlider] in Hev. apply Qle_bool_iff in Hev.
    unfold handleSeek. rewrite !andThen_update.
    set (st0 := set_pauseTimeRef time (setCurrentTime time st)).
    assert (Hw0 : wellTimed st0).
    { destruct Hw as (Hp0 & Ht0 & Hs0). repeat split; auto. }
    unfold andThen.
    destruct (stop_current st0 Hw0) as (st1 & -> & Hw1 & F1 & _ & _ & _ & F5 & _).
    apply Hplay; auto.
Qed.

(** X14: play from pause, a seek while playing and restart each
    create exactly one source node, make it the current one and start
    it at the context time of the event, with the paused position, the
    seek target and 0 respectively as the offset into the buffer; a
    seek and a restart stop the source that was current before. *)
Theorem playback_starts_at (buffer : AudioBuffer.t) (evs : list event) (st : state)
    (ev : event) (t : Q) :
  forallb fromSlider evs = true ->
  run evs (initial (Some buffer)) = Some st ->
  fromSlider ev = true ->
  startsAt ev st = Some t ->
  exists st',
    step ev st = Some st' /\
    isPlaying st' = true /\
    length (sources st') = S (length (sources st)) /\
    sourceRef st' = Some (length (sources st)) /\
    sources st' !! length (sources st) = Some (mkSource true false false true (now st) t) /\
    (forall j s, ev <> TogglePlay -> sourceRef st = Some j ->
                 sources st' !! j = Some s -> stopped s = true).
Proof.
  intros Hevs Hrun Hev Hat.
  pose proof (run_wellTimed evs _ _ (wellTimed_initial (Some buffer)) Hevs Hrun) as Hw.
  pose proof (run_audioBuffer evs _ _ Hrun) as Hb. cbn in Hb.
  destruct (starting_state buffer st ev t Hw Hb Hev Hat)
    as (st' & Hstep & E1 & _ & _ & E4 & E5 & _ & _ & E8).
  exists st'. split; [exact Hstep|]. split; [exact E1|].
  split; [apply (starting_length buffer st st' ev t Hw Hb Hev Hat Hstep)|].
  split; [exact E4|]. split; [exact E5|exact E8].
Qed.

(** X15: mute does not survive a new start of playback: after play
    from pause, a seek while playing or restart, [isMuted] is still
    true but the gain node in use is a new one with gain 1. *)
Theorem mute_lost_when_playback_starts (buffer : AudioBuffer.t) (evs : list event)
    (st : state) (ev : event) (t : Q) :
  forallb fromSlider evs = true ->
  run evs (initial (Some buffer)) = Some st ->
  fromSlider ev = true ->
  startsAt ev st = Some t ->
  isMuted st = true ->
  exists st',
    step ev st = Some st' /\
    isPlaying st' = true /\ isMuted st' = true /\ gainNodeRef st' = Some 1%Q.
Proof.
  intros Hevs Hrun Hev Hat Hm.
  pose proof (run_wellTimed evs _ _ (wellTimed_initial (Some buffer)) Hevs Hrun) as Hw.
  pose proof (run_audioBuffer evs _ _ Hrun) as Hb. cbn in Hb.
  destruct (starting_state buffer st ev t Hw Hb Hev Hat)
    as (st' & Hstep & E1 & _ & _ & _ & _ & E6 & E7 & _).
  exists st'. repeat split; auto. congruence.
Qed.




(** X17: after play from the start and a pause at position [p]
    whose [ended] event is delivered [d] seconds later, the player
    resumes from [p] if [p + d] is at least [clearance] below
    [duration - 0.1], and from the beginning, with the displayed time
    at 0, if [p + d] is at least [clearance] above it: pausing within
    the last 100 ms rewinds.  The clock of a new context starts at 0,
    so the position the pause stores is the clock reading [p]
    itself. *)
Theorem pause_near_end_rewinds (buffer : AudioBuffer.t) (p d : Q) :
  (0 <= p)%Q -> (0 <= d)%Q ->
  exists st,
    run [TogglePlay; Advance p; TogglePlay; Advance d; Ended 0] (initial (Some buffer))
    = Some st /\
    isPlaying st = false /\
    aliveSources st = [] /\
    ((p + d <= AudioBuffer.duration buffer - (1 # 10) - clearance)%Q ->
     (currentPosition st == p)%Q) /\
    ((AudioBuffer.duration buffer - (1 # 10) + clearance <= p + d)%Q ->
     (currentPosition st == 0)%Q /\ (currentTime st == 0)%Q).
Proof.
  intros Hp Hd. unfold clearance.
  erewrite run_cons by (apply (step_play _ buffer); [reflexivity|reflexivity|apply Qle_refl]).
  erewrite run_cons by (apply step_Advance, Hp).
  erewrite run_cons
    by (eapply (step_pause _ 0); [reflexivity|reflexivity|reflexivity|reflexivity]).
  erewrite run_cons by (apply step_Advance, Hd).
  cbn -[Qplus Qminus Qle_bool AudioBuffer.duration].
  unfold onended. cbn -[Qplus Qminus Qle_bool AudioBuffer.duration].
  destruct (Qle_bool (AudioBuffer.duration buffer - (1 # 10)) (0 + p + d - (0 - 0))) eqn:E.
  - apply Qle_bool_iff in E.
    eexists. split; [reflexivity|]. split; [reflexivity|]. split; [reflexivity|].
    split; [intros H; lra | intros _; split; reflexivity].
  - assert (E' : ~ (AudioBuffer.duration buffer - (1 # 10) <= 0 + p + d - (0 - 0))%Q).
    { intros H. apply Qle_bool_iff in H. congruence. }
    eexists. split; [reflexivity|]. split; [reflexivity|]. split; [reflexivity|].
    split; [intros _; cbn -[Qplus Qminus]; ring | intros H; lra].
Qed.

(** X18: when the buffer has played to its end and the [ended] event
    arrives, the player stops, no source is alive, the position and
    the displayed time are 0, and the next play starts from 0. *)
Theorem natural_end_rewinds (buffer : AudioBuffer.t) (d : Q) :
  (0 <= d)%Q ->
  (AudioBuffer.duration buffer <= d)%Q ->
  exists st,
    run [TogglePlay; Advance d; Ended 0] (initial (Some buffer)) = Some st /\
    isPlaying st = false /\
    aliveSources st = [] /\
    pauseTimeRef st = 0%Q /\ currentTime st = 0%Q /\
    startsAt TogglePlay st = Some 0%Q.
Proof.
  intros Hd Hdur.
  erewrite run_cons by (apply (step_play _ buffer); [reflexivity|reflexivity|apply Qle_refl]).
  erewrite run_cons by (apply step_Advance, Hd).
  assert (E1 : Qle_bool (0 + (AudioBuffer.duration buffer - 0)) (0 + d) = true)
    by (apply Qle_bool_iff; lra).
  assert (E2 : Qle_bool (AudioBuffer.duration buffer - (1 # 10)) (0 + d - (0 - 0)) = true)
    by (apply Qle_bool_iff; lra).
  cbn -[Qplus Qminus Qle_bool AudioBuffer.duration].
  rewrite E1. cbn -[Qplus Qminus Qle_bool AudioBuffer.duration].
  unfold onended. cbn -[Qplus Qminus Qle_bool AudioBuffer.duration].
  rewrite E2.
  eexists. split; [reflexivity|]. repeat split.
Qed.

Lemma controls_never_throw_witness :
  exists st,
    run [TogglePlay; Advance 1; Seek 2; TogglePlay] (initial (Some lesson)) = Some st /\
    raises Restart st = None /\
    (0 <= pauseTimeRef st)%Q /\ (startTimeRef st <= now st)%Q.
Proof.
  eexists. split; [vm_compute; reflexivity|].
  apply (controls_never_throw (Some lesson) [TogglePlay; Advance 1; Seek 2; TogglePlay]);
    vm_compute; reflexivity.
Defined.

Lemma negative_seek_jams_witness :
  exists st,
    run [TogglePlay; Advance 1] (initial (Some lesson)) = Some st /\
    raises (Seek (-1)) st = Some RangeError /\
    exists st',
      step (Seek (-1)) st = Some st' /\
      forall evs' st'',
        forallb control evs' = true ->
        run evs' st' = Some st'' ->
        isPlaying st'' = true /\
        raises TogglePlay st'' = Some InvalidStateError /\
        raises Restart st'' = Some InvalidStateError /\
        forall time', raises (Seek time') st'' = Some InvalidStateError.
Proof.
  eexists. split; [vm_compute; reflexivity|].
  apply (negative_seek_jams lesson [TogglePlay; Advance 1]); vm_compute; reflexivity.
Defined.

Lemma no_buffer_no_playback_witness :
  exists st,
    run [TogglePlay; Restart; Seek 1; ToggleMute] (initial None) = Some st /\
    isPlaying st = false /\ sources st = [] /\ frames st = [] /\
    framesDrawn st = 0%nat /\ isMuted st = false /\ audioContextRef st = false /\
    forall ev, raises ev st = None.
Proof.
  eexists. split; [vm_compute; reflexivity|].
  apply (no_buffer_no_playback [TogglePlay; Restart; Seek 1; ToggleMute]).
  vm_compute. reflexivity.
Defined.

Lemma plain_play_draws_nothing_witness :
  exists st,
    run [TogglePlay; Advance 1; TogglePlay; Advance 1; TogglePlay; Advance 1]
        (initial (Some lesson)) = Some st /\
    isPlaying st = true /\
    framesDrawn st = 0%nat /\ frames st = [] /\ currentTime st = 0%Q.
Proof.
  eexists. split; [vm_compute; reflexivity|]. split; [reflexivity|].
  apply (plain_play_draws_nothing (Some lesson)
           [TogglePlay; Advance 1; TogglePlay; Advance 1; TogglePlay; Advance 1]);
    vm_compute; reflexivity.
Defined.

Lemma playback_starts_at_witness :
  exists st,
    run [TogglePlay; Advance 1] (initial (Some lesson)) = Some st /\
    exists st',
      step (Seek 2) st = Some st' /\
      isPlaying st' = true /\
      length (sources st') = S (length (sources st)) /\
      sourceRef st' = Some (length (sources st)) /\
      sources st' !! length (sources st) = Some (mkSource true false false true (now st) 2) /\
      (forall j s, Seek 2 <> TogglePlay -> sourceRef st = Some j ->
                   sources st' !! j = Some s -> stopped s = true).
Proof.
  eexists. split; [vm_compute; reflexivity|].
  apply (playback_starts_at lesson [TogglePlay; Advance 1]); vm_compute; reflexivity.
Defined.

Lemma mute_lost_when_playback_starts_witness :
  exists st,
    run [TogglePlay; ToggleMute; TogglePlay] (initial (Some lesson)) = Some st /\
    gainNodeRef st = Some 0%Q /\
    exists st',
      step TogglePlay st = Some st' /\
      isPlaying st' = true /\ isMuted st' = true /\ gainNodeRef st' = Some 1%Q.
Proof.
  eexists. split; [vm_compute; reflexivity|]. split; [reflexivity|].
  apply (mute_lost_when_playback_starts lesson [TogglePlay; ToggleMute; TogglePlay] _
           TogglePlay 0); vm_compute; reflexivity.
Defined.


Lemma pause_near_end_rewinds_witness :
  exists st,
    run [TogglePlay; Advance (295 # 100); TogglePlay; Advance (1 # 100); Ended 0]
        (initial (Some lesson)) = Some st /\
    isPlaying st = false /\
    aliveSources st = [] /\
    (((295 # 100) + (1 # 100) <= AudioBuffer.duration lesson - (1 # 10) - clearance)%Q ->
     (currentPosition st == 295 # 100)%Q) /\
    ((AudioBuffer.duration lesson - (1 # 10) + clearance <= (295 # 100) + (1 # 100))%Q ->
     (currentPosition st == 0)%Q /\ (currentTime st == 0)%Q).
Proof.
  apply (pause_near_end_rewinds lesson (295 # 100) (1 # 100)); vm_compute; discriminate.
Defined.

Lemma natural_end_rewinds_witness :
  exists st,
    run [TogglePlay; Advance 3; Ended 0] (initial (Some lesson)) = Some st /\
    isPlaying st = false /\
    aliveSources st = [] /\
    pauseTimeRef st = 0%Q /\ currentTime st = 0%Q /\
    startsAt TogglePlay st = Some 0%Q.
Proof.
  apply (natural_end_rewinds lesson 3); vm_compute; discriminate.
Defined.

End TransportFacts.

(** * The service, the application and the upload *)

Lemma truthy_Some (s : option string) (t : string) :
  truthy s = Some t <-> s = Some t /\ t <> EmptyString.
Proof.
  destruct s as [[|c r]|]; cbn; split.
  - discriminate.
  - intros [H Hne]. injection H as <-. congruence.
  - intros H. injection H as <-. split; [reflexivity | discriminate].
  - intros [H _]. exact H.
  - discriminate.
  - intros [H _]. discriminate.
Qed.

Module GeminiFacts.
Import Gemini.

Lemma synthesizeAudio_Fulfilled (response : GenerateContentResponse) (audio : string) :
  synthesizeAudio (Fulfilled response) = Fulfilled audio <->
  (exists candidate rest content part rest' blob,
      candidates response = Some (candidate :: rest) /\
      Gemini.content candidate = Some content /\
      parts content = Some (part :: rest') /\
      inlineData part = Some blob /\
      data blob = Some audio) /\
  audio <> EmptyString.
Proof.
  unfold synthesizeAudio.
  destruct (truthy (audioData response)) as [a|] eqn:E.
  - apply truthy_Some in E. destruct E as [E Hne].
    unfold audioData in E.
    destruct (candidates response) as [[|candidate rest]|] eqn:E1; try discriminate E.
    cbn in E.
    destruct (Gemini.content candidate) as [content|] eqn:E2; try discriminate E.
    cbn in E.
    destruct (parts content) as [[|part rest']|] eqn:E3; try discriminate E.
    cbn in E.
    destruct (inlineData part) as [blob|] eqn:E4; try discriminate E.
    cbn in E.
    split.
    + intros H. injection H as <-. split; [|exact Hne].
      exists candidate, rest, content, part, rest', blob. auto.
    + intros [(c & r & ct & p & r' & b & H1 & H2 & H3 & H4 & H5) _].
      injection H1 as <- <-. rewrite E2 in H2. injection H2 as <-.
      rewrite E3 in H3. injection H3 as <- <-. rewrite E4 in H4. injection H4 as <-.
      congruence.
  - split; [discriminate|].
    intros [(c & r & ct & p & r' & b & H1 & H2 & H3 & H4 & H5) Hne].
    assert (Ha : audioData response = Some audio).
    { unfold audioData. rewrite H1. cbn. rewrite H2. cbn. rewrite H3. cbn.
      rewrite H4. cbn. exact H5. }
    assert (Ht : truthy (audioData response) = Some audio)
      by (apply truthy_Some; auto).
    congruence.
Qed.

(** X19: [analyzeDocument] fulfils exactly with a non-empty
    [response.text], and [synthesizeAudio] exactly with the non-empty
    inline data of the first part of the first candidate: audio in any
    other part or candidate is ignored.  Every other response is
    rejected with the function's own error, and a failed request is
    passed on as it is. *)
Theorem gemini_first_part_only :
  (forall response script,
      analyzeDocument (Fulfilled response) = Fulfilled script <->
      text response = Some script /\ script <> EmptyString) /\
  (forall response audio,
      synthesizeAudio (Fulfilled response) = Fulfilled audio <->
      (exists candidate rest content part rest' blob,
          candidates response = Some (candidate :: rest) /\
          Gemini.content candidate = Some content /\
          parts content = Some (part :: rest') /\
          inlineData part = Some blob /\
          data blob = Some audio) /\
      audio <> EmptyString) /\
  (forall response err,
      (analyzeDocument (Fulfilled response) = Rejected err ->
       err = Error "No script generated.") /\
      (synthesizeAudio (Fulfilled response) = Rejected err ->
       err = Error "No audio data received from Gemini.")) /\
  (forall err,
      analyzeDocument (Rejected err) = Rejected err /\
      synthesizeAudio (Rejected err) = Rejected err).
Proof.
  split; [|split; [|split]].
  - intros response script. unfold analyzeDocument.
    destruct (truthy (text response)) as [t|] eqn:E.
    + apply truthy_Some in E. destruct E as [E Hne]. split.
      * intros H. injection H as <-. auto.
      * intros [H _]. congruence.
    + split; [discriminate|]. intros H. apply truthy_Some in H. congruence.
  - apply synthesizeAudio_Fulfilled.
  - intros response err. unfold analyzeDocument, synthesizeAudio.
    destruct (truthy (text response)), (truthy (audioData response));
      split; intros H; try discriminate H; injection H as <-; reflexivity.
  - intros err. split; reflexivity.
Qed.

End GeminiFacts.

Module AppFacts.
Import App.

Section Facts.
Variable messageOf : exn -> string.

Lemma consistent_catch (id : nat) (err : thrown) (st : state) :
  consistent st -> consistent (catch messageOf id err st).
Proof.
  intros (H1 & H2 & H3 & H4 & H5). unfold catch.
  repeat split; cbn [audioBuffer appState errorMsg generatedScript]; try discriminate.
  - exact H1.
  - intros _. destruct (message messageOf err); cbn; discriminate.
Qed.

Lemma consistent_step (ev : event) (st st' : state) :
  consistent st -> step messageOf ev st = Some st' -> consistent st'.
Proof.
  intros H Hstep. pose proof H as (H1 & H2 & H3 & H4 & H5).
  destruct ev as [file| |id response|id response audioCtx]; cbn [step] in Hstep.
  - injection Hstep as <-. repeat split; cbn; try discriminate. exact H1.
  - injection Hstep as <-. repeat split; cbn; try discriminate.
  - destruct (calls st !! id) as [[[f|s]|]|]; try discriminate. injection Hstep as <-.
    unfold analyzed, Gemini.analyzeDocument.
    destruct response as [response|err]; [|apply consistent_catch, H].
    destruct (truthy (Gemini.text response)) as [script|] eqn:E;
      [|apply consistent_catch, H].
    apply truthy_Some in E. destruct E as [_ Hne].
    repeat split; cbn; try discriminate; auto.
  - destruct (calls st !! id) as [[[f|s]|]|]; try discriminate. injection Hstep as <-.
    unfold synthesized.
    destruct (Gemini.synthesizeAudio response) as [raw|err]; [|apply consistent_catch, H].
    destruct audioCtx as [ctx|e]; [|apply consistent_catch, H].
    destruct (decodeRawPCM raw ctx 24000) as [buffer|e] eqn:E; [|apply consistent_catch, H].
    repeat split; cbn; try discriminate.
    intros b Hb. injection Hb as <-. eauto.
Qed.

Lemma consistent_run (evs : list event) :
  forall st st', consistent st -> run messageOf evs st = Some st' -> consistent st'.
Proof.
  induction evs as [|ev evs IH]; intros st st' H Hrun; cbn [run] in Hrun.
  - injection Hrun as <-. exact H.
  - destruct (step messageOf ev st) as [st1|] eqn:Hstep; [|discriminate].
    apply (IH st1 st'); [apply (consistent_step ev st st1 H Hstep) | exact Hrun].
Qed.

Lemma consistent_initial : consistent initial.
Proof. repeat split; cbn; try discriminate. Qed.

(** X20: in every state the application can reach, by any
    interleaving of uploads, resets and settling requests, the main
    area shows exactly one panel; the player is shown only in READY and
    always receives a buffer, mono, at 24000 Hz, with at least one
    frame; the error panel never shows an empty message; Start Over is
    offered exactly when the upload panel is not shown. *)
Theorem one_panel_with_decoded_audio (evs : list event) (st : state) :
  run messageOf evs initial = Some st ->
  exists p,
    main st = [p] /\
    (startOver st = false <-> p = Upload) /\
    match p with
    | Upload => appState st = IDLE
    | Processing title _ =>
        (appState st = ANALYZING /\ title = "Analyzing Document"%string)
        \/ (appState st = SYNTHESIZING /\ title = "Synthesizing Audio"%string)
    | Player audioBuffer script =>
        appState st = READY /\
        exists buffer,
          audioBuffer = Some buffer /\
          AudioBuffer.numberOfChannels buffer = 1%nat /\
          AudioBuffer.sampleRate buffer = 24000 /\
          (1 <= AudioBuffer.length buffer)%nat
    | Failure errorMsg => appState st = ERROR /\ errorMsg <> EmptyString
    end.
Proof.
  intros Hrun.
  pose proof (consistent_run evs _ _ consistent_initial Hrun) as (H1 & H2 & H3 & _).
  unfold main, startOver.
  destruct (appState st) eqn:E; cbn; eexists; (split; [reflexivity|]);
    (split; [split; (reflexivity || discriminate)|]).
  - reflexivity.
  - left. split; reflexivity.
  - right. split; reflexivity.
  - split; [reflexivity|].
    destruct (audioBuffer st) as [buffer|] eqn:Hb; [|destruct (H2 eq_refl eq_refl)].
    exists buffer. split; [reflexivity|].
    destruct (H1 buffer eq_refl) as (raw & ctx & Hd).
    destruct (decodeRawPCM_Ok _ _ _ _ Hd) as (bytes & _ & _ & Hc & ->).
    repeat split.
    unfold AudioContext.createBuffer in Hc. cbn [decoded AudioBuffer.length].
    destruct (length (int16_elements bytes)); [|lia].
    cbn in Hc. rewrite orb_true_r in Hc. discriminate.
  - split; [reflexivity | apply H3; reflexivity].
Qed.

(** X21: one upload from the initial state.  If the analysis fails
    the application is in ERROR with a non-empty message (the error's
    own when it has one) and synthesis is never awaited.  Otherwise the
    script is stored, and when synthesis settles the application is
    READY with the decoded buffer exactly when synthesis, the audio
    context and the decoder all succeeded, and in ERROR without a
    buffer otherwise. *)
Theorem single_upload_outcome (file : FileData.t)
    (r1 r2 : outcome Gemini.GenerateContentResponse)
    (audioCtx : result AudioContext.t) :
  exists st1,
    run messageOf [FileSelect file; AnalysisSettled 0 r1] initial = Some st1 /\
    audioBuffer st1 = None /\
    match Gemini.analyzeDocument r1 with
    | Rejected err =>
        appState st1 = ERROR /\ generatedScript st1 = EmptyString /\
        errorMsg st1 <> EmptyString /\
        (message messageOf err <> EmptyString -> errorMsg st1 = message messageOf err) /\
        step messageOf (SynthesisSettled 0 r2 audioCtx) st1 = None
    | Fulfilled script =>
        appState st1 = SYNTHESIZING /\ generatedScript st1 = script /\
        exists st2,
          step messageOf (SynthesisSettled 0 r2 audioCtx) st1 = Some st2 /\
          generatedScript st2 = script /\ calls st2 = [None] /\
          ((appState st2 = READY /\ errorMsg st2 = EmptyString /\
            exists rawAudioData ctx buffer,
              Gemini.synthesizeAudio r2 = Fulfilled rawAudioData /\
              audioCtx = Ok ctx /\
              decodeRawPCM rawAudioData ctx 24000 = Ok buffer /\
              audioBuffer st2 = Some buffer)
           \/ (appState st2 = ERROR /\ errorMsg st2 <> EmptyString /\
               audioBuffer st2 = None /\
               forall rawAudioData ctx,
                 Gemini.synthesizeAudio r2 = Fulfilled rawAudioData ->
                 audioCtx = Ok ctx ->
                 exists e, decodeRawPCM rawAudioData ctx 24000 = Throw e
                           /\ (messageOf e <> EmptyString -> errorMsg st2 = messageOf e)))
    end.
Proof.
  assert (Hmsg : forall m : string,
             match truthy (Some m) with
             | Some message => message
             | None => "An unexpected error occurred processing your file."%string
             end <> EmptyString
             /\ (m <> EmptyString ->
                 match truthy (Some m) with
                 | Some message => message
                 | None => "An unexpected error occurred processing your file."%string
                 end = m)).
  { intros [|c r]; cbn; split; congruence. }
  eexists. split; [reflexivity|].
  unfold analyzed.
  destruct (Gemini.analyzeDocument r1) as [script|err]; (split; [reflexivity|]).
  - split; [reflexivity|]. split; [reflexivity|].
    eexists. split; [reflexivity|].
    unfold synthesized.
    destruct (Gemini.synthesizeAudio r2) as [raw|err];
      [destruct audioCtx as [ctx|e];
       [destruct (decodeRawPCM raw ctx 24000) as [buffer|e] eqn:E|]|];
      cbn [generatedScript calls catch appState errorMsg audioBuffer];
      (split; [reflexivity|]); (split; [reflexivity|]).
    + left. split; [reflexivity|]. split; [reflexivity|].
      exists raw, ctx, buffer. auto.
    + right. split; [reflexivity|]. split; [apply Hmsg|]. split; [reflexivity|].
      intros raw' ctx' Hr Hc. injection Hr as <-. injection Hc as <-.
      exists e. split; [exact E | apply Hmsg].
    + right. split; [reflexivity|]. split; [apply Hmsg|]. split; [reflexivity|].
      intros raw' ctx' _ Hc. discriminate.
    + right. split; [reflexivity|]. split; [apply Hmsg|]. split; [reflexivity|].
      intros raw' ctx' Hr. discriminate.
  - cbn. split; [reflexivity|]. split; [reflexivity|].
    split; [apply Hmsg|]. split; [apply Hmsg | reflexivity].
Qed.

(** X22: Start Over does not cancel a running upload.  When the
    synthesis of an upload settles after a reset, the application
    becomes READY by itself with that upload's audio and an empty
    script; and if a second upload has been analysed in between, the
    player shows the second document's script with the first
    document's audio. *)
Theorem reset_does_not_cancel (fileA fileB : FileData.t)
    (rA rB r2 : outcome Gemini.GenerateContentResponse)
    (scriptA scriptB rawAudioData : string) (ctx : AudioContext.t)
    (buffer : AudioBuffer.t) :
  Gemini.analyzeDocument rA = Fulfilled scriptA ->
  Gemini.analyzeDocument rB = Fulfilled scriptB ->
  Gemini.synthesizeAudio r2 = Fulfilled rawAudioData ->
  decodeRawPCM rawAudioData ctx 24000 = Ok buffer ->
  (exists st,
      run messageOf [FileSelect fileA; AnalysisSettled 0 rA; Reset;
                     SynthesisSettled 0 r2 (Ok ctx)] initial = Some st /\
      appState st = READY /\ generatedScript st = EmptyString /\
      audioBuffer st = Some buffer) /\
  (exists st,
      run messageOf [FileSelect fileA; AnalysisSettled 0 rA; Reset;
                     FileSelect fileB; AnalysisSettled 1 rB;
                     SynthesisSettled 0 r2 (Ok ctx)] initial = Some st /\
      appState st = READY /\ generatedScript st = scriptB /\
      audioBuffer st = Some buffer /\
      calls st = [None; Some (AwaitSynthesis scriptB)]).
Proof.
  intros HA HB H2 Hd.
  assert (EA : forall st, analyzed messageOf 0 rA st
                 = mkState SYNTHESIZING scriptA (audioBuffer st) (errorMsg st)
                     (<[0%nat := Some (AwaitSynthesis scriptA)]> (calls st)))
    by (intros st; unfold analyzed; rewrite HA; reflexivity).
  assert (EB : forall st, analyzed messageOf 1 rB st
                 = mkState SYNTHESIZING scriptB (audioBuffer st) (errorMsg st)
                     (<[1%nat := Some (AwaitSynthesis scriptB)]> (calls st)))
    by (intros st; unfold analyzed; rewrite HB; reflexivity).
  assert (E2 : forall st, synthesized messageOf 0 r2 (Ok ctx) st
                 = mkState READY (generatedScript st) (Some buffer) (errorMsg st)
                     (<[0%nat := None]> (calls st)))
    by (intros st; unfold synthesized; rewrite H2, Hd; reflexivity).
  split.
  - cbn -[analyzed synthesized]. rewrite EA. cbn -[analyzed synthesized]. rewrite E2.
    eexists. split; [reflexivity|]. repeat split.
  - cbn -[analyzed synthesized]. rewrite EA. cbn -[analyzed synthesized].
    rewrite EB. cbn -[analyzed synthesized]. rewrite E2.
    eexists. split; [reflexivity|]. repeat split.
Qed.

End Facts.

Lemma one_panel_with_decoded_audio_witness :
  exists st,
    run (fun _ => "failed"%string)
      [FileSelect lessonFile; AnalysisSettled 0 scriptResponse;
       SynthesisSettled 0 audioResponse (Ok AudioContext.standard)] initial = Some st /\
    exists p,
      main st = [p] /\
      (startOver st = false <-> p = Upload) /\
      match p with
      | Upload => appState st = IDLE
      | Processing title _ =>
          (appState st = ANALYZING /\ title = "Analyzing Document"%string)
          \/ (appState st = SYNTHESIZING /\ title = "Synthesizing Audio"%string)
      | Player audioBuffer script =>
          appState st = READY /\
          exists buffer,
            audioBuffer = Some buffer /\
            AudioBuffer.numberOfChannels buffer = 1%nat /\
            AudioBuffer.sampleRate buffer = 24000 /\
            (1 <= AudioBuffer.length buffer)%nat
      | Failure errorMsg => appState st = ERROR /\ errorMsg <> EmptyString
      end.
Proof.
  eexists. split; [vm_compute; reflexivity|].
  apply (one_panel_with_decoded_audio (fun _ => "failed"%string)
           [FileSelect lessonFile; AnalysisSettled 0 scriptResponse;
            SynthesisSettled 0 audioResponse (Ok AudioContext.standard)]).
  vm_compute. reflexivity.
Defined.

Lemma reset_does_not_cancel_witness :
  (exists st,
      run (fun _ => "failed"%string)
        [FileSelect lessonFile; AnalysisSettled 0 scriptResponse; Reset;
         SynthesisSettled 0 audioResponse (Ok AudioContext.standard)] initial = Some st /\
      appState st = READY /\ generatedScript st = EmptyString /\
      audioBuffer st = Some (decoded [-32768; 32767] 24000)) /\
  (exists st,
      run (fun _ => "failed"%string)
        [FileSelect lessonFile; AnalysisSettled 0 scriptResponse; Reset;
         FileSelect lessonFile; AnalysisSettled 1 scriptResponse;
         SynthesisSettled 0 audioResponse (Ok AudioContext.standard)] initial = Some st /\
      appState st = READY /\ generatedScript st = "Welcome."%string /\
      audioBuffer st = Some (decoded [-32768; 32767] 24000) /\
      calls st = [None; Some (AwaitSynthesis "Welcome.")]).
Proof.
  apply (reset_does_not_cancel (fun _ => "failed"%string) lessonFile lessonFile
           scriptResponse scriptResponse audioResponse
           "Welcome." "Welcome." "AID/fw==" AudioContext.standard
           (decoded [-32768; 32767] 24000)); vm_compute; reflexivity.
Defined.

End AppFacts.

Module FileUploadFacts.
Import FileUpload.

Lemma includes_In (l : list string) (s : string) : includes l s = true <-> In s l.
Proof.
  unfold includes. rewrite existsb_exists. split.
  - intros (x & Hx & E). apply String.eqb_eq in E. subst. exact Hx.
  - intros H. exists s. split; [exact H | apply String.eqb_refl].
Qed.

Lemma processFile_cases (file : File) (st : state) :
  (accepted file /\
   processFile file st = mkState (isDragging st) None (reading st ++ [file]))
  \/ (~ In (type file) validTypes /\
      processFile file st
      = mkState (isDragging st) (Some "Please upload a PDF or PowerPoint file."%string)
          (reading st))
  \/ (In (type file) validTypes /\ 10485760 < size file /\
      processFile file st
      = mkState (isDragging st) (Some "File size exceeds 10MB limit."%string) (reading st)).
Proof.
  unfold processFile, accepted.
  destruct (includes validTypes (type file)) eqn:E; cbn [negb].
  - apply includes_In in E. change (10 * 1024 * 1024) with 10485760.
    destruct (Z.ltb_spec 10485760 (size file)).
    + right. right. auto.
    + left. auto.
  - right. left. split; [|reflexivity].
    intros H. apply includes_In in H. congruence.
Qed.

(** X23: over every sequence of drag, drop and input events, a file
    is handed to the reader only if its MIME type is one of the three
    accepted ones and its size is at most 10 * 1024 * 1024 bytes (the
    limit itself is accepted).  The type is checked first; a rejected
    file sets the message of its check and an accepted one clears the
    error. *)
Theorem upload_reads_only_accepted_files (evs : list event) :
  Forall accepted (reading (run evs initial)) /\
  (forall (file : File) (st : state),
      (accepted file <-> reading (processFile file st) = reading st ++ [file]) /\
      (accepted file -> error (processFile file st) = None) /\
      (~ In (type file) validTypes ->
       error (processFile file st) = Some "Please upload a PDF or PowerPoint file."%string) /\
      (In (type file) validTypes -> 10485760 < size file ->
       error (processFile file st) = Some "File size exceeds 10MB limit."%string)).
Proof.
  split.
  - assert (G : forall st, Forall accepted (reading st) ->
                           Forall accepted (reading (run evs st))).
    { induction evs as [|ev evs IH]; intros st H; [exact H|].
      cbn [run foldl]. apply IH.
      assert (P : forall file st0, Forall accepted (reading st0) ->
                                   Forall accepted (reading (processFile file st0))).
      { intros file st0 H0.
        destruct (processFile_cases file st0) as [[Ha ->]|[[_ ->]|(_ & _ & ->)]]; cbn; auto.
        apply Forall_app. split; [exact H0 | constructor; [exact Ha | constructor]]. }
      destruct ev as [| |files|files]; cbn [step]; try exact H.
      - unfold handleDrop. destruct (files !! 0%nat); [apply P|]; exact H.
      - unfold handleInputChange. destruct (files !! 0%nat); [apply P|]; exact H. }
    apply G. constructor.
  - intros file st.
    assert (L : reading st <> reading st ++ [file]).
    { intros E. apply (f_equal length) in E. rewrite length_app in E. cbn in E. lia. }
    destruct (processFile_cases file st) as [[Ha ->]|[[Hn ->]|(Hi & Hs & ->)]];
      cbn [reading error]; unfold accepted in *;
      (split; [split; [intros A | intros E]
              | split; [intros A | split; [intros N | intros I S]]]);
      try reflexivity; try tauto; try lia; try congruence.
Qed.

Lemma split_no_sep (sep : ascii) (s : string) :
  (forall c, In c (list_ascii_of_string s) -> c <> sep) -> JSString.split sep s = [s].
Proof.
  induction s as [|c r IH]; intros H; [reflexivity|].
  cbn [JSString.split]. destruct (Ascii.eqb_spec c sep) as [->|Hne].
  - exfalso. apply (H sep); [left; reflexivity | reflexivity].
  - rewrite IH; [reflexivity|]. intros c' Hc'. apply H. right. exact Hc'.
Qed.

Lemma split_append (sep : ascii) (a b : string) :
  (forall c, In c (list_ascii_of_string a) -> c <> sep) ->
  JSString.split sep (a ++ String sep b) = a :: JSString.split sep b.
Proof.
  induction a as [|c r IH]; intros H.
  - cbn. rewrite Ascii.eqb_refl. reflexivity.
  - cbn [append JSString.split]. destruct (Ascii.eqb_spec c sep) as [->|Hne].
    + exfalso. apply (H sep); [left; reflexivity | reflexivity].
    + rewrite IH; [reflexivity|]. intros c' Hc'. apply H. right. exact Hc'.
Qed.

Lemma string_append_assoc (a b c : string) :
  ((a ++ b) ++ c = a ++ (b ++ c))%string.
Proof. induction a as [|x a IH]; [reflexivity|]. cbn. rewrite IH. reflexivity. Qed.

(** X24: for a file of an accepted type, [reader.onload] passes on
    the name, the type and, as [base64], the whole payload of the data
    URL, whenever the payload has no comma (base64 text has none). *)
Theorem onload_passes_payload (file : File) (payload : string) :
  In (type file) validTypes ->
  (forall c, In c (list_ascii_of_string payload) -> c <> ","%char) ->
  onload file (dataURL file payload)
  = FileData.mk (name file) (type file) (Some payload).
Proof.
  intros Ht Hp. unfold onload, dataURL. f_equal.
  assert (E : ("data:" ++ type file ++ ";base64," ++ payload
               = ("data:" ++ type file ++ ";base64") ++ String "," payload)%string).
  { rewrite !string_append_assoc. reflexivity. }
  rewrite E, split_append.
  - rewrite (split_no_sep _ payload Hp). reflexivity.
  - intros c. unfold validTypes in Ht. cbn in Ht.
    destruct Ht as [<-|[<-|[<-|[]]]]; cbn; intros Hc;
      repeat (destruct Hc as [<-|Hc]; [discriminate|]); destruct Hc.
Qed.

Lemma onload_passes_payload_witness :
  onload (mkFile "lesson.pdf" "application/pdf" 8) (dataURL (mkFile "lesson.pdf" "application/pdf" 8) "JVBERi0=")
  = FileData.mk "lesson.pdf" "application/pdf" (Some "JVBERi0="%string).
Proof.
  apply (onload_passes_payload (mkFile "lesson.pdf" "application/pdf" 8) "JVBERi0=").
  - left. reflexivity.
  - intros c Hc. cbn in Hc.
    repeat (destruct Hc as [<-|Hc]; [discriminate|]). destruct Hc.
Defined.

End FileUploadFacts.
